(** * The agent run loop of [src/agents/index.ts]

    A shallow embedding of [createAgent(...).run], [mergeTools],
    [withToolCallHints], [maybeExecuteTool], [parseToolCall] and
    [tryParseObject], and the properties of the run loop stated about them;
    with them the provider of [src/agents/openaiClient.ts], whose [chat] the
    loop calls, and the agents of [src/examples/handoffs.ts] and
    [src/examples/guardrails.ts], which run the loop.

    Asynchronous code is sequential here: every [await] in the source waits
    for its promise to settle before the next statement runs, so a promise is
    modelled by the outcome it settles to (a value, or a thrown error). *)

From Stdlib Require Import String Ascii List ZArith Bool Lia Arith DecimalString
  Permutation.
Import ListNotations.
Local Open Scope list_scope.
Local Open Scope string_scope.

Set Implicit Arguments.
Set Warnings "-register-all".

(** ** Characters and strings

    Strings are strings of bytes. The two characters the loop looks for are
    ASCII, so the first and the last of them stand where they stand in the
    source's strings, whatever the encoding of the rest. *)

Definition quote_char : ascii := ascii_of_nat 34.
Definition newline_char : ascii := ascii_of_nat 10.
Definition str1 (c : ascii) : string := String c EmptyString.
Definition dq : string := str1 quote_char.
Definition nl : string := str1 newline_char.

(** [text.indexOf(c)]: the index of the first occurrence, or [-1]. *)
Fixpoint indexOf (c : ascii) (text : string) : Z :=
  match text with
  | EmptyString => (-1)%Z
  | String d rest =>
      if Ascii.eqb d c then 0%Z
      else match indexOf c rest with
           | Zneg _ => (-1)%Z
           | i => (i + 1)%Z
           end
  end.

(** [text.lastIndexOf(c)]: the index of the last occurrence, or [-1]. *)
Fixpoint lastIndexOf (c : ascii) (text : string) : Z :=
  match text with
  | EmptyString => (-1)%Z
  | String d rest =>
      match lastIndexOf c rest with
      | Zneg _ => if Ascii.eqb d c then 0%Z else (-1)%Z
      | i => (i + 1)%Z
      end
  end.

(** [text.slice(from, to)] for [0 <= from <= to], the only way the run loop
    calls it. *)
Definition slice (text : string) (from to : Z) : string :=
  substring (Z.to_nat from) (Z.to_nat (to - from)) text.

(** [text.includes(c)] *)
Fixpoint contains (c : ascii) (text : string) : bool :=
  match text with
  | EmptyString => false
  | String d rest => Ascii.eqb d c || contains c rest
  end.

(** [xs.join(sep)] *)
Fixpoint join (sep : string) (xs : list string) : string :=
  match xs with
  | [] => EmptyString
  | [x] => x
  | x :: rest => x ++ sep ++ join sep rest
  end.

(** ** JavaScript values

    [json] are the values [JSON.parse] can return; a value of type [any] in
    the source is such a value or [undefined]. Numbers are the integers. *)

Inductive json : Type :=
| JNull
| JBool (b : bool)
| JNum (n : Z)
| JStr (s : string)
| JArr (items : list json)
| JObj (members : list (string * json)).

Definition any : Type := option json.
Definition undefined : any := None.

(** Truthiness of [v] in [v && ...]. *)
Definition truthy (v : any) : bool :=
  match v with
  | None => false
  | Some JNull => false
  | Some (JBool b) => b
  | Some (JNum n) => negb (Z.eqb n 0)
  | Some (JStr s) => negb (String.eqb s EmptyString)
  | Some (JArr _) => true
  | Some (JObj _) => true
  end.

(** [typeof v === 'object'] *)
Definition typeof_object (v : any) : bool :=
  match v with
  | Some JNull | Some (JArr _) | Some (JObj _) => true
  | _ => false
  end.

Fixpoint lookup_member (key : string) (members : list (string * json)) : any :=
  match members with
  | [] => undefined
  | (k, v) :: rest => if String.eqb k key then Some v else lookup_member key rest
  end.

(** [key in v], for an object or array [v] and a [key] that names no
    property of [Array.prototype] or [Object.prototype] (the run loop asks
    for ['handoff'], ['tool'] and ['args'] only). *)
Definition js_in (key : string) (v : any) : bool :=
  match v with
  | Some (JObj members) =>
      match lookup_member key members with Some _ => true | None => false end
  | _ => false
  end.

(** [v.key] (or [v[key]]) under the same proviso. *)
Definition js_get (v : any) (key : string) : any :=
  match v with
  | Some (JObj members) => lookup_member key members
  | _ => undefined
  end.

(** [name === v] for a string [name]. *)
Definition strict_eq_string (name : string) (v : any) : bool :=
  match v with
  | Some (JStr s) => String.eqb name s
  | _ => false
  end.

(** The outcome of [JSON.parse]: a value, or a thrown [SyntaxError]. *)
Inductive parsed : Type :=
| Parsed (v : json)
| SyntaxError.

(** ** Data model *)

Inductive Role : Type := user | assistant | system | tool.

Record Message : Type := {
  role : Role;
  content : string;
  name : option string;
}.

Definition message (r : Role) (c : string) : Message :=
  {| role := r; content := c; name := None |}.

(** The value [run] resolves to. *)
Record RunResult : Type := {
  result_content : string;
  result_structured : any;
}.

(** The payload [config] of [agent:start] is the agent's own configuration,
    a constant of the run; the event carries the agent's name only. *)
Inductive TraceEvent : Type :=
| agent_start (agentName : option string)
| agent_stop (agentName : option string)
| llm_request (model : string) (messages : list Message)
| llm_response (content : string)
| tool_start (name : string) (args : any)
| tool_stop (name : string) (result : json)
| handoff_event (from : option string) (to : any) (reason : any).

(** Temperatures are decimal fractions: [(2, 1)] is 0.2. *)
Definition number : Type := (Z * nat)%type.

Section Agents.

(** The state the caller's callbacks (provider, tools, guards, handoff
    handler, schema) share and change, the observer's own state, thrown
    values, and the opaque objects the loop only hands on (the context is a
    reference: what a tool keeps in it is part of the world). *)
Variables World Obs Error ToolContext AbortSignal OnDelta : Type.

(** [{}], the default of [context]. *)
Variable empty_context : ToolContext.

(** [JSON.parse] and [JSON.stringify] of the runtime. *)
Variable JSON_parse : string -> parsed.
Variable JSON_stringify : json -> string.

(** What a call settles to. *)
Inductive Outcome (A : Type) : Type :=
| Ok (a : A)
| Throw (e : Error).
Arguments Throw {A} e.

(** A callback of the caller: it reads and writes the world. *)
Definition Callback (A : Type) : Type := World -> Outcome A * World.

(** What [execute] returns is a value [JSON.stringify] makes a string of
    (the optional [schema] is never read by the loop). *)
Record ToolDefinition : Type := {
  tool_name : string;
  tool_description : option string;
  tool_execute : any -> ToolContext -> Callback json;
}.

Record StructuredSchema : Type := {
  parse : any -> Callback json;
}.

Record ChatArgs : Type := {
  chat_model : string;
  chat_messages : list Message;
  chat_temperature : number;
  chat_signal : option AbortSignal;
  chat_onDelta : option OnDelta;
}.

Record OpenAIClient : Type := {
  chat : ChatArgs -> Callback string;
}.

(** [onTrace]: it is shown the event, it may read the world, and what it
    writes is its own (a console, a log). It may throw. An observer that wrote
    into the arrays or the configuration it is shown is not an observer and
    is not modelled. *)
Definition Observer : Type := TraceEvent -> World -> Obs -> Outcome unit * Obs.

Record AgentConfig : Type := {
  agent_name : option string;
  instructions : option string;
  model : option string;
  temperature : option number;
  tools : option (list ToolDefinition);
  inputGuard : option (list Message -> Callback (list Message));
  outputGuard : option (string -> Callback string);
  onTrace : option Observer;
  handoff : option (any -> list Message -> ToolContext -> Callback RunResult);
}.

Record RunInput : Type := {
  messages : list Message;
  expect : option StructuredSchema;
  context : option ToolContext;
  signal : option AbortSignal;
  onDelta : option OnDelta;
  maxToolPasses : option Z;
}.

(** ** Calls made during a run

    Every call the loop makes to something it was given is recorded, in
    order. *)
Inductive Call : Type :=
| CallInputGuard (input : list Message)
| CallChat (args : ChatArgs)
| CallHandoff (to : any) (history : list Message) (ctx : ToolContext)
| CallTool (name : string) (args : any) (ctx : ToolContext)
| CallOutputGuard (output : string)
| CallParse (input : any)
| CallTrace (event : TraceEvent).

Record State : Type := {
  world : World;
  obs : Obs;
  calls : list Call;
}.

(** ** The monad of the run: state and thrown errors *)

Definition M (A : Type) : Type := State -> Outcome A * State.

Definition ret {A : Type} (a : A) : M A := fun s => (Ok a, s).

Definition bind {A B : Type} (m : M A) (f : A -> M B) : M B :=
  fun s =>
    match m s with
    | (Ok a, s') => f a s'
    | (Throw e, s') => (Throw e, s')
    end.

Notation "x <- m ;; k" := (bind m (fun x => k))
  (at level 100, m at next level, right associativity).
Notation "m ;;; k" := (bind m (fun _ => k))
  (at level 100, right associativity).

(** [await f(...)]: the call is recorded, the world moves on. *)
Definition invoke {A : Type} (c : Call) (f : Callback A) : M A :=
  fun s =>
    let (r, w) := f (world s) in
    (r, {| world := w; obs := obs s; calls := (calls s ++ [c])%list |}).

(** [onTrace?.(event)] *)
Definition emit (observer : option Observer) (event : TraceEvent) : M unit :=
  match observer with
  | None => ret tt
  | Some f =>
      fun s =>
        let (r, o) := f event (world s) (obs s) in
        (r, {| world := world s; obs := o; calls := (calls s ++ [CallTrace event])%list |})
  end.

(** ** Directive extraction *)

Definition open_brace : ascii := ascii_of_nat 123.
Definition close_brace : ascii := ascii_of_nat 125.

Definition tryParseObject (text : string) : any :=
  match JSON_parse text with
  | Parsed v => Some v
  | SyntaxError =>
      let start := indexOf open_brace text in
      let end_ := lastIndexOf close_brace text in
      if negb (Z.eqb start (-1)) && negb (Z.eqb end_ (-1)) && Z.gtb end_ start then
        match JSON_parse (slice text start (end_ + 1)) with
        | Parsed v => Some v
        | SyntaxError => undefined
        end
      else undefined
  end.

(** The [catch] of the source is dead code: [tryParseObject] never throws.
    The object itself is returned; [null] is [None]. *)
Definition parseToolCall (content : string) : option any :=
  let obj := tryParseObject content in
  if truthy obj && typeof_object obj && js_in "tool" obj && js_in "args" obj
  then Some obj
  else None.

(** ** Tools *)

Fixpoint map_set (t : ToolDefinition) (byName : list (string * ToolDefinition))
  : list (string * ToolDefinition) :=
  match byName with
  | [] => [(tool_name t, t)]
  | (k, v) :: rest =>
      if String.eqb k (tool_name t) then (k, t) :: rest
      else (k, v) :: map_set t rest
  end.

Definition or_empty {A : Type} (l : option (list A)) : list A :=
  match l with Some xs => xs | None => [] end.

(** [byName] is a [Map]: [set] on a key already present replaces the value
    where the key stands, a new key goes last. *)
Definition mergeTools (a b : option (list ToolDefinition))
  : option (list ToolDefinition) :=
  match a, b with
  | None, None => None
  | _, _ =>
      let byName := fold_left (fun m t => map_set t m) (or_empty a) [] in
      let byName := fold_left (fun m t => map_set t m) (or_empty b) byName in
      Some (map snd byName)
  end.

(** The tool of a name, in a list and in a [Map]; the [Map] after the
    tools of a list were set one by one. *)
Definition named (nm : string) (t : ToolDefinition) : bool :=
  String.eqb (tool_name t) nm.

Fixpoint assoc (nm : string) (m : list (string * ToolDefinition))
  : option ToolDefinition :=
  match m with
  | [] => None
  | (k, t) :: rest => if String.eqb k nm then Some t else assoc nm rest
  end.

Definition keyed (m : list (string * ToolDefinition)) : Prop :=
  forall k t, In (k, t) m -> k = tool_name t.

Definition set_all (l : list ToolDefinition) (m : list (string * ToolDefinition))
  : list (string * ToolDefinition) :=
  fold_left (fun m t => map_set t m) l m.

Definition hint_prefix : string :=
  "You may call tools by responding with JSON {" ++ dq ++ "tool" ++ dq ++ ":"
  ++ dq ++ "NAME" ++ dq ++ "," ++ dq ++ "args" ++ dq ++ ":OBJECT}. Tools:" ++ nl.

Definition tool_line (t : ToolDefinition) : string :=
  "- " ++ tool_name t ++ ": "
  ++ match tool_description t with Some d => d | None => EmptyString end.

Definition tool_hint (ts : list ToolDefinition) : Message :=
  message system (hint_prefix ++ join nl (map tool_line ts)).

Definition withToolCallHints (msgs : list Message)
  (ts : option (list ToolDefinition)) : list Message :=
  match ts with
  | None | Some [] => msgs
  | Some ts => tool_hint ts :: msgs
  end.

Definition maybeExecuteTool (content : string)
  (ts : option (list ToolDefinition)) (ctx : ToolContext)
  (observer : option Observer) : M string :=
  match ts with
  | None | Some [] => ret content
  | Some ts =>
      match parseToolCall content with
      | None => ret content
      | Some toolCall =>
          match find (fun t => strict_eq_string (tool_name t) (js_get toolCall "tool")) ts with
          | None => ret content
          | Some found =>
              emit observer (tool_start (tool_name found) (js_get toolCall "args")) ;;;
              result <- invoke (CallTool (tool_name found) (js_get toolCall "args") ctx)
                          (tool_execute found (js_get toolCall "args") ctx) ;;
              emit observer (tool_stop (tool_name found) result) ;;;
              ret (match result with
                   | JStr s => s
                   | _ => JSON_stringify result
                   end)
          end
      end
  end.

(** ** The run loop *)

(** [x = d] in a parameter list, [x ?? d]. *)
Definition default {A : Type} (d : A) (o : option A) : A :=
  match o with Some a => a | None => d end.

Section Run.

Variable client : OpenAIClient.
Variable baseConfig : AgentConfig.
Variable input : RunInput.

Definition run_context : ToolContext := default empty_context (context input).
Definition run_model : string := default "gpt-4o-mini" (model baseConfig).
Definition run_temperature : number := default (2%Z, 1%nat) (temperature baseConfig).

(** [Math.max(1, maxToolPasses + 1)], the number of times the loop body can
    run. *)
Definition turn_limit : nat :=
  Z.to_nat (Z.max 1 (default 3%Z (maxToolPasses input) + 1)).

(** Lines 85-89: guard the input, seed the history, emit [agent:start]. *)
Definition prepare : M (list Message) :=
  guardedInput <- match inputGuard baseConfig with
                  | Some guard => invoke (CallInputGuard (messages input)) (guard (messages input))
                  | None => ret (messages input)
                  end ;;
  let systemMsg :=
    match instructions baseConfig with
    | Some text => if String.eqb text EmptyString then [] else [message system text]
    | None => []
    end in
  let history := (systemMsg ++ guardedInput)%list in
  emit (onTrace baseConfig) (agent_start (agent_name baseConfig)) ;;;
  ret history.

(** [{ model, messages: hinted, temperature, signal, onDelta }] *)
Definition chat_args (hinted : list Message) : ChatArgs :=
  {| chat_model := run_model; chat_messages := hinted;
     chat_temperature := run_temperature;
     chat_signal := signal input; chat_onDelta := onDelta input |}.

(** How one pass through the loop body ends. *)
Inductive Turn : Type :=
| Continue (history : list Message) (lastContent : string)
| Break (history : list Message) (lastContent : string)
| Return (result : RunResult).

(** Lines 100-127: what the loop body does with the provider's answer. *)
Definition dispatch (history : list Message) (lastContent : string) : M Turn :=
  let handoffObj := tryParseObject lastContent in
  if truthy handoffObj && typeof_object handoffObj && js_in "handoff" handoffObj then
    let to := js_get handoffObj "handoff" in
    emit (onTrace baseConfig)
      (handoff_event (agent_name baseConfig) to (js_get handoffObj "reason")) ;;;
    match handoff baseConfig with
    | Some handler =>
        result <- invoke (CallHandoff to history run_context)
                    (handler to history run_context) ;;
        emit (onTrace baseConfig) (agent_stop (agent_name baseConfig)) ;;;
        ret (Return {| result_content := result_content result;
                       result_structured := result_structured result |})
    | None => ret (Break history lastContent)
    end
  else
    toolResult <- maybeExecuteTool lastContent (tools baseConfig) run_context
                    (onTrace baseConfig) ;;
    if negb (String.eqb toolResult lastContent) then
      ret (Continue (history ++ [message assistant lastContent;
                                 message tool toolResult])%list lastContent)
    else ret (Break history lastContent).

(** Lines 93-127: the loop body. *)
Definition turn (history : list Message) : M Turn :=
  let hinted := withToolCallHints history (tools baseConfig) in
  emit (onTrace baseConfig) (llm_request run_model hinted) ;;;
  lastContent <- invoke (CallChat (chat_args hinted)) (chat client (chat_args hinted)) ;;
  emit (onTrace baseConfig) (llm_response lastContent) ;;;
  dispatch history lastContent.

(** Line 92: [for (let i = 0; i < Math.max(1, maxToolPasses + 1); i++)], with
    [remaining] the passes still allowed. The loop ends with the history and
    the last content, or with the value [run] returns from inside it. *)
Fixpoint loop (remaining : nat) (history : list Message) (lastContent : string)
  : M Turn :=
  match remaining with
  | O => ret (Break history lastContent)
  | S remaining' =>
      t <- turn history ;;
      match t with
      | Continue history' lastContent' => loop remaining' history' lastContent'
      | Break history' lastContent' => ret (Break history' lastContent')
      | Return result => ret (Return result)
      end
  end.

(** Lines 130-139: what follows the loop. *)
Definition finalize (lastContent : string) : M RunResult :=
  content <- match outputGuard baseConfig with
             | Some guard => invoke (CallOutputGuard lastContent) (guard lastContent)
             | None => ret lastContent
             end ;;
  structured <- match expect input with
                | Some schema =>
                    v <- invoke (CallParse (tryParseObject content))
                           (parse schema (tryParseObject content)) ;;
                    ret (Some v)
                | None => ret undefined
                end ;;
  emit (onTrace baseConfig) (agent_stop (agent_name baseConfig)) ;;;
  ret {| result_content := content; result_structured := structured |}.

Definition finish (t : Turn) : M RunResult :=
  match t with
  | Return result => ret result
  | Continue _ lastContent | Break _ lastContent => finalize lastContent
  end.

(** The run from a pass of the loop on. *)
Definition run_from (remaining : nat) (history : list Message)
  (lastContent : string) : M RunResult :=
  t <- loop remaining history lastContent ;;
  finish t.

Definition run : M RunResult :=
  history <- prepare ;;
  run_from turn_limit history EmptyString.

(** The passes of the loop a run started in [s0] gets to: with [remaining]
    passes left, history [history], last content [lastContent], in state
    [s]. *)
Inductive reaches (s0 : State) : nat -> list Message -> string -> State -> Prop :=
| reaches_first history s :
    prepare s0 = (Ok history, s) ->
    reaches s0 turn_limit history EmptyString s
| reaches_next remaining history lastContent s history' lastContent' s' :
    reaches s0 (S remaining) history lastContent s ->
    turn history s = (Ok (Continue history' lastContent'), s') ->
    reaches s0 remaining history' lastContent' s'.

End Run.

(** ** [agent.with(extension)]

    A key of [extension] that is present replaces the key of the base
    configuration, [tools] is merged by name. *)
Record PartialAgentConfig : Type := {
  ext_name : option (option string);
  ext_instructions : option (option string);
  ext_model : option (option string);
  ext_temperature : option (option number);
  ext_tools : option (option (list ToolDefinition));
  ext_inputGuard : option (option (list Message -> Callback (list Message)));
  ext_outputGuard : option (option (string -> Callback string));
  ext_onTrace : option (option Observer);
  ext_handoff :
    option (option (any -> list Message -> ToolContext -> Callback RunResult));
}.

Definition agent_with (baseConfig : AgentConfig) (extension : PartialAgentConfig)
  : AgentConfig :=
  {| agent_name := default (agent_name baseConfig) (ext_name extension);
     instructions := default (instructions baseConfig) (ext_instructions extension);
     model := default (model baseConfig) (ext_model extension);
     temperature := default (temperature baseConfig) (ext_temperature extension);
     tools := mergeTools (tools baseConfig) (default None (ext_tools extension));
     inputGuard := default (inputGuard baseConfig) (ext_inputGuard extension);
     outputGuard := default (outputGuard baseConfig) (ext_outputGuard extension);
     onTrace := default (onTrace baseConfig) (ext_onTrace extension);
     handoff := default (handoff baseConfig) (ext_handoff extension) |}.

(** ** Reading the record of calls *)

Definition is_chat (c : Call) : bool :=
  match c with CallChat _ => true | _ => false end.

Definition is_tool (c : Call) : bool :=
  match c with CallTool _ _ _ => true | _ => false end.

Definition is_trace (c : Call) : bool :=
  match c with CallTrace _ => true | _ => false end.

Definition count (p : Call -> bool) (cs : list Call) : nat :=
  length (filter p cs).

(** The calls to the provider, the tools, the guards, the handoff handler
    and the schema: all but the trace. *)
Definition invocations (cs : list Call) : list Call :=
  filter (fun c => negb (is_trace c)) cs.

(** The calls that are counted: those of the provider, those of the tools. *)
Definition counted (p : Call -> bool) : Prop :=
  p = is_chat \/ p = is_tool.

(** What [onTrace?.(event)] adds to the record. *)
Definition traced (observer : option Observer) (event : TraceEvent) : list Call :=
  match observer with Some _ => [CallTrace event] | None => [] end.

(** An observer that returns normally. *)
Definition quiet (observer : option Observer) : Prop :=
  forall f, observer = Some f -> forall event w o, fst (f event w o) = Ok tt.

(** The configuration with [onTrace] absent. *)
Definition without_trace (cfg : AgentConfig) : AgentConfig :=
  {| agent_name := agent_name cfg; instructions := instructions cfg;
     model := model cfg; temperature := temperature cfg; tools := tools cfg;
     inputGuard := inputGuard cfg; outputGuard := outputGuard cfg;
     onTrace := None; handoff := handoff cfg |}.

(** [m], started in [s], settles to [r], leaves the world as [w] and adds
    the calls [new] to the record. *)
Definition settles {A : Type} (m : M A) (s : State) (r : Outcome A)
  (w : World) (new : list Call) : Prop :=
  exists o, m s = (r, {| world := w; obs := o; calls := (calls s ++ new)%list |}).

(** [m] adds to the record, and at most [k] calls that satisfy [p]. *)
Definition adds_at_most (p : Call -> bool) (k : nat) {A : Type} (m : M A) : Prop :=
  forall s, exists new,
    calls (snd (m s)) = (calls s ++ new)%list /\ count p new <= k.

(** Two states an observer cannot tell apart from what it may not touch:
    the same world, the same invocations. *)
Definition same_low (s s0 : State) : Prop :=
  world s = world s0 /\ invocations (calls s) = invocations (calls s0).

(** [m] and [m0] settle alike from states that are the same but for the
    observer. *)
Definition alike {A : Type} (m m0 : M A) : Prop :=
  forall s s0, same_low s s0 ->
    fst (m s) = fst (m0 s0) /\ same_low (snd (m s)) (snd (m0 s0)).

(** The text a tool's result becomes. *)
Definition tool_text (result : json) : string :=
  match result with JStr s => s | _ => JSON_stringify result end.

(** The model's text is a directive to call the tool [nm] with [args]: it
    parses to an object with the keys [tool] and [args] and no key
    [handoff]. *)
Definition calls_tool (text nm : string) (args : json) : Prop :=
  exists members,
    tryParseObject text = Some (JObj members) /\
    lookup_member "handoff" members = None /\
    lookup_member "tool" members = Some (JStr nm) /\
    lookup_member "args" members = Some args.

(** The model's text is a handoff directive: it parses to an object with the
    key [handoff]. *)
Definition hands_off (text : string) (to : json) (reason : any) : Prop :=
  exists members,
    tryParseObject text = Some (JObj members) /\
    lookup_member "handoff" members = Some to /\
    lookup_member "reason" members = reason.

(** The provider's call [c], if it is one, is given messages that begin
    with [pre]. *)
Definition begins_with (pre : list Message) (c : Call) : Prop :=
  match c with
  | CallChat args => exists rest, chat_messages args = (pre ++ rest)%list
  | _ => True
  end.

(** [m] adds to the record calls that satisfy [P] only, and what it settles
    to satisfies [post]. *)
Definition every (P : Call -> Prop) {A : Type} (post : A -> Prop) (m : M A)
  : Prop :=
  forall s, exists new,
    calls (snd (m s)) = (calls s ++ new)%list /\ Forall P new /\
    forall a, fst (m s) = Ok a -> post a.

(** With the hint of the tools [ts] before it, the history begins with
    [pre]. *)
Definition seeded (pre : list Message) (ts : list ToolDefinition)
  (history : list Message) : Prop :=
  exists rest, (tool_hint ts :: history = pre ++ rest)%list.

(** The messages the loop starts from, after the input guard. *)
Definition guarded_input (cfg : AgentConfig) (input : RunInput) (w : World)
  : list Message :=
  match inputGuard cfg with
  | Some guard =>
      match fst (guard (messages input) w) with
      | Ok guarded => guarded
      | Throw _ => []
      end
  | None => messages input
  end.

(** The model's text holds no directive: as a whole it is no JSON object,
    and it has no brace to cut at or the cut does not parse. *)
Definition plain_prose (text : string) : Prop :=
  (forall members, JSON_parse text <> Parsed (JObj members)) /\
  (indexOf open_brace text = (-1)%Z \/
   lastIndexOf close_brace text = (-1)%Z \/
   (lastIndexOf close_brace text <= indexOf open_brace text)%Z \/
   JSON_parse (slice text (indexOf open_brace text)
                 (lastIndexOf close_brace text + 1)) = SyntaxError).

End Agents.

Arguments Ok {Error A} a.
Arguments Throw {Error A} e.
Arguments tool_name {World Error ToolContext} t.
Arguments named {World Error ToolContext} nm t.
Arguments traced {World Obs Error ToolContext AbortSignal OnDelta} observer event.
Arguments is_chat {ToolContext AbortSignal OnDelta} c.
Arguments is_tool {ToolContext AbortSignal OnDelta} c.
Arguments is_trace {ToolContext AbortSignal OnDelta} c.
Arguments CallInputGuard {ToolContext AbortSignal OnDelta} input.
Arguments CallChat {ToolContext AbortSignal OnDelta} args.
Arguments CallHandoff {ToolContext AbortSignal OnDelta} to history ctx.
Arguments CallTool {ToolContext AbortSignal OnDelta} name args ctx.
Arguments CallOutputGuard {ToolContext AbortSignal OnDelta} output.
Arguments CallParse {ToolContext AbortSignal OnDelta} input.
Arguments CallTrace {ToolContext AbortSignal OnDelta} event.

(** ** More of the record, and of the loop *)

Section Reading.

Variables World Obs Error ToolContext AbortSignal OnDelta : Type.
Variable empty_context : ToolContext.
Variable JSON_parse : string -> parsed.
Variable JSON_stringify : json -> string.

Definition is_stop (c : Call ToolContext AbortSignal OnDelta) : bool :=
  match c with CallTrace (agent_stop _) => true | _ => false end.

Definition is_handoff (c : Call ToolContext AbortSignal OnDelta) : bool :=
  match c with CallHandoff _ _ _ => true | _ => false end.

Definition is_output_guard (c : Call ToolContext AbortSignal OnDelta) : bool :=
  match c with CallOutputGuard _ => true | _ => false end.

Definition is_input_guard (c : Call ToolContext AbortSignal OnDelta) : bool :=
  match c with CallInputGuard _ => true | _ => false end.

Definition is_parse (c : Call ToolContext AbortSignal OnDelta) : bool :=
  match c with CallParse _ => true | _ => false end.

(** [m] adds to the record one call at most that satisfies [p], and none
    when it settles to a value that is not [final]. *)
Definition ends_once (p : Call ToolContext AbortSignal OnDelta -> bool)
  (A : Type) (final : A -> bool)
  (m : M World Obs Error ToolContext AbortSignal OnDelta A) : Prop :=
  forall s, exists new,
    calls (snd (m s)) = (calls s ++ new)%list /\
    match fst (m s) with
    | Ok a => if final a then count p new <= 1 else count p new = 0
    | Throw _ => count p new <= 1
    end.

(** The loop of the run started in [s0] is left (not returned from) in state
    [s], with [text] the last answer of the provider. *)
Definition leaves_loop (client : OpenAIClient World Error AbortSignal OnDelta)
  (cfg : AgentConfig World Obs Error ToolContext)
  (input : RunInput World Error ToolContext AbortSignal OnDelta)
  (s0 : State World Obs ToolContext AbortSignal OnDelta) (text : string)
  (s : State World Obs ToolContext AbortSignal OnDelta) : Prop :=
  exists seed s1 history,
    prepare cfg input s0 = (Ok seed, s1) /\
    loop empty_context JSON_parse JSON_stringify client cfg input
      (turn_limit input) seed EmptyString s1
    = (Ok (Break history text), s).

(** [m] emits [agent:stop] as the last thing it does when it settles to a
    value that is [final], and not at all otherwise. *)
Definition stops_last (observer : option (Observer World Obs Error))
  (name : option string) (A : Type) (final : A -> bool)
  (m : M World Obs Error ToolContext AbortSignal OnDelta A) : Prop :=
  forall s, exists new,
    calls (snd (m s)) = (calls s ++ new)%list /\
    match fst (m s) with
    | Ok a =>
        if final a
        then exists before,
               new = (before ++ traced observer (agent_stop name))%list /\
               count is_stop before = 0
        else count is_stop new = 0
    | Throw _ => count is_stop new = 0
    end.

(** The loop was returned from. *)
Definition returned (t : Turn) : bool :=
  match t with Return _ => true | _ => false end.

(** What every call of a run is given: the provider the model and the
    temperature of the configuration, or ['gpt-4o-mini'] and [0.2], and the
    caller's [signal] and [onDelta]; the tools and the handoff handler the
    caller's [context], or [{}]. *)
Definition run_constants (cfg : AgentConfig World Obs Error ToolContext)
  (input : RunInput World Error ToolContext AbortSignal OnDelta)
  (c : Call ToolContext AbortSignal OnDelta) : Prop :=
  match c with
  | CallChat args =>
      chat_model args = default "gpt-4o-mini" (model cfg) /\
      chat_temperature args = default (2%Z, 1%nat) (temperature cfg) /\
      chat_signal args = signal input /\
      chat_onDelta args = onDelta input
  | CallTool _ _ ctx | CallHandoff _ _ ctx =>
      ctx = default empty_context (context input)
  | _ => True
  end.

(** The keys of a [Map] after [set]: a key already there stays where it
    is, a new one goes last. *)
Definition set_key (keys : list string) (k : string) : list string :=
  if existsb (fun k' => String.eqb k' k) keys then keys else (keys ++ [k])%list.

(** The names of a list in the order they first appear in, each once. *)
Definition first_appearances (names : list string) : list string :=
  rev (nodup string_dec (rev names)).

(** What a pass that ran a tool appends: the model's text, the tool's. *)
Definition exchange (p : string * string) : list Message :=
  [message assistant (fst p); message tool (snd p)].

End Reading.

Arguments is_stop {ToolContext AbortSignal OnDelta} c.
Arguments is_handoff {ToolContext AbortSignal OnDelta} c.
Arguments is_output_guard {ToolContext AbortSignal OnDelta} c.
Arguments is_input_guard {ToolContext AbortSignal OnDelta} c.
Arguments is_parse {ToolContext AbortSignal OnDelta} c.

(** ** The provider of [src/agents/openaiClient.ts]

    [createOpenAIClientFromEnv] and the [chat] it returns, over the
    completions API of the SDK. A streamed completion is an async iterable:
    each [next()] settles to a chunk and the rest of the stream, or to the
    end of the stream, or throws; a stream ends. *)

Section Provider.

Variables World Error AbortSignal : Type.

(** [new Error(message)] *)
Variable error_of : string -> Error.

(** [onDelta] *)
Definition DeltaHandler : Type := string -> Callback World Error unit.

(** What [chat] reads of a chunk, [chunk.choices?.[0]?.delta?.content], and
    of a completion, [completion.choices?.[0]?.message?.content]: every link
    may be missing, and the content may be [null]. *)
Record Delta : Type := { delta_content : option string }.
Record ChunkChoice : Type := { choice_delta : option Delta }.
Record Chunk : Type := { chunk_choices : option (list ChunkChoice) }.

Record CompletionMessage : Type := { message_content : option string }.
Record CompletionChoice : Type := { choice_message : option CompletionMessage }.
Record Completion : Type := { completion_choices : option (list CompletionChoice) }.

(** [chunk.choices?.[0]?.delta?.content ?? ''] *)
Definition chunk_text (chunk : Chunk) : string :=
  match chunk_choices chunk with
  | Some (first :: _) =>
      match choice_delta first with
      | Some d => default EmptyString (delta_content d)
      | None => EmptyString
      end
  | _ => EmptyString
  end.

(** [completion.choices?.[0]?.message?.content ?? ''] *)
Definition completion_text (completion : Completion) : string :=
  match completion_choices completion with
  | Some (first :: _) =>
      match choice_message first with
      | Some m => default EmptyString (message_content m)
      | None => EmptyString
      end
  | _ => EmptyString
  end.

(** The argument of [client.chat.completions.create]; [stream] is [true] or
    not there. *)
Record CompletionRequest : Type := {
  request_model : string;
  request_messages : list Message;
  request_temperature : number;
  request_stream : bool;
  request_signal : option AbortSignal;
}.

Inductive Stream : Type :=
| Next (next : World -> Outcome Error (option (Chunk * Stream)) * World).

(** [create] resolves to a stream when it is asked for one, to a completion
    otherwise. *)
Record OpenAI : Type := {
  create_stream : CompletionRequest -> Callback World Error Stream;
  create_completion : CompletionRequest -> Callback World Error Completion;
}.

(** The [ChatArgs] of the provider: the temperature is optional here. *)
Record ProviderArgs : Type := {
  args_model : string;
  args_messages : list Message;
  args_temperature : option number;
  args_signal : option AbortSignal;
  args_onDelta : option DeltaHandler;
}.

(** The calls [chat] makes, in order. *)
Inductive ProviderCall : Type :=
| CallCreate (request : CompletionRequest)
| CallNext
| CallOnDelta (delta : string).

(** A computation of the provider: it changes the world and adds to the
    record of its calls. *)
Definition Logged (A : Type) : Type :=
  World -> list ProviderCall -> Outcome Error A * World * list ProviderCall.

(** [m => ({ role: m.role, content: m.content, name: m.name })] *)
Definition chat_message (m : Message) : Message :=
  {| role := role m; content := content m; name := name m |}.

(** Lines 37-45: [for await (const chunk of stream)]. *)
Fixpoint consume (onDelta : DeltaHandler) (stream : Stream) (full : string)
  (w : World) (log : list ProviderCall)
  : Outcome Error string * World * list ProviderCall :=
  match stream with
  | Next next =>
      match next w with
      | (Throw e, w1) => (Throw e, w1, (log ++ [CallNext])%list)
      | (Ok None, w1) => (Ok full, w1, (log ++ [CallNext])%list)
      | (Ok (Some (chunk, rest)), w1) =>
          let delta := chunk_text chunk in
          if negb (String.eqb delta EmptyString) then
            match onDelta delta w1 with
            | (Throw e, w2) => (Throw e, w2, (log ++ [CallNext; CallOnDelta delta])%list)
            | (Ok _, w2) =>
                consume onDelta rest (full ++ delta) w2
                  (log ++ [CallNext; CallOnDelta delta])%list
            end
          else consume onDelta rest full w1 (log ++ [CallNext])%list
      end
  end.

(** Lines 24-57: [chat]. *)
Definition provider_chat (openai : OpenAI) (args : ProviderArgs) : Logged string :=
  fun w log =>
    let temperature := default (2%Z, 1%nat) (args_temperature args) in
    let chatMessages := map chat_message (args_messages args) in
    match args_onDelta args with
    | Some onDelta =>
        let request :=
          {| request_model := args_model args; request_messages := chatMessages;
             request_temperature := temperature; request_stream := true;
             request_signal := args_signal args |} in
        match create_stream openai request w with
        | (Ok stream, w1) =>
            consume onDelta stream EmptyString w1 (log ++ [CallCreate request])%list
        | (Throw e, w1) => (Throw e, w1, (log ++ [CallCreate request])%list)
        end
    | None =>
        let request :=
          {| request_model := args_model args; request_messages := chatMessages;
             request_temperature := temperature; request_stream := false;
             request_signal := args_signal args |} in
        match create_completion openai request w with
        | (Ok completion, w1) =>
            (Ok (completion_text completion), w1, (log ++ [CallCreate request])%list)
        | (Throw e, w1) => (Throw e, w1, (log ++ [CallCreate request])%list)
        end
    end.

(** Lines 14-23: the key is read from the environment, [connect] is
    [new OpenAI({ apiKey })]. *)
Definition createOpenAIClientFromEnv (env : string -> option string)
  (connect : string -> OpenAI) : Outcome Error (ProviderArgs -> Logged string) :=
  match env "OPENAI_API_KEY" with
  | Some apiKey =>
      if String.eqb apiKey EmptyString
      then Throw (error_of "OPENAI_API_KEY is not set in the environment")
      else Ok (provider_chat (connect apiKey))
  | None => Throw (error_of "OPENAI_API_KEY is not set in the environment")
  end.

(** The deltas [onDelta] was given, in order. *)
Definition delivered (log : list ProviderCall) : list string :=
  flat_map (fun c => match c with CallOnDelta delta => [delta] | _ => [] end) log.

(** The chunks were asked for one at a time, and [onDelta] was only called
    right after a chunk came. *)
Fixpoint chunk_by_chunk (log : list ProviderCall) : Prop :=
  match log with
  | [] => True
  | CallNext :: CallOnDelta _ :: rest => chunk_by_chunk rest
  | CallNext :: rest => chunk_by_chunk rest
  | _ => False
  end.

End Provider.

Arguments CallCreate {AbortSignal} request.
Arguments CallNext {AbortSignal}.
Arguments CallOnDelta {AbortSignal} delta.

(** ** The router of [src/examples/handoffs.ts] *)

Section Handoffs.

Variables World Obs Error ToolContext AbortSignal OnDelta : Type.
Variable empty_context : ToolContext.
Variable JSON_parse : string -> parsed.
Variable JSON_stringify : json -> string.
Variable client : OpenAIClient World Error AbortSignal OnDelta.

(** [createAgent(client, { name, instructions })] *)
Definition instructed (O : Type) (nm text : string)
  : AgentConfig World O Error ToolContext :=
  {| agent_name := Some nm; instructions := Some text;
     model := None; temperature := None; tools := None;
     inputGuard := None; outputGuard := None; onTrace := None; handoff := None |}.

Definition spanishAgent : AgentConfig World unit Error ToolContext :=
  instructed unit "SpanishAgent" "Answer only in Spanish.".

Definition englishAgent : AgentConfig World unit Error ToolContext :=
  instructed unit "EnglishAgent" "Answer only in English.".

(** [agent.run({ messages })] *)
Definition only_messages (msgs : list Message)
  : RunInput World Error ToolContext AbortSignal OnDelta :=
  {| messages := msgs; expect := None; context := None; signal := None;
     onDelta := None; maxToolPasses := None |}.

(** A run awaited inside a callback: of the state it ends in, the caller
    sees the world. *)
Definition awaited (A : Type)
  (m : M World unit Error ToolContext AbortSignal OnDelta A) : Callback World Error A :=
  fun w =>
    let (r, s) := m {| world := w; obs := tt; calls := [] |} in (r, world s).

(** [to === 'SpanishAgent' ? spanishAgent : englishAgent] *)
Definition target (to : any) : AgentConfig World unit Error ToolContext :=
  if strict_eq_string "SpanishAgent" to then spanishAgent else englishAgent.

Definition router_instructions : string :=
  "Detect language of the user. If Spanish, return {" ++ dq ++ "handoff" ++ dq ++ ":"
  ++ dq ++ "SpanishAgent" ++ dq ++ "," ++ dq ++ "reason" ++ dq ++ ":"
  ++ dq ++ "spanish" ++ dq ++ "}. If English, answer directly.".

Definition handoffs_router : AgentConfig World Obs Error ToolContext :=
  {| agent_name := Some "Router"; instructions := Some router_instructions;
     model := None; temperature := None; tools := None;
     inputGuard := None; outputGuard := None; onTrace := None;
     handoff :=
       Some (fun to msgs _ =>
               awaited (run empty_context JSON_parse JSON_stringify client (target to)
                          (only_messages msgs))) |}.

End Handoffs.

(** ** The agent of [src/examples/guardrails.ts] *)

Section Guardrails.

Variables World Error ToolContext : Type.

(** [String.prototype.trim] of the runtime. *)
Variable trim : string -> string.

(** [messages.slice(-10)] *)
Definition last_ten (msgs : list Message) : list Message :=
  skipn (length msgs - 10) msgs.

(** The observer writes on the console, which is all it has. *)
Definition console_trace : Observer World (list string) Error :=
  fun event _ console =>
    match event with
    | agent_start _ => (Ok tt, (console ++ ["Agent start"])%list)
    | agent_stop _ => (Ok tt, (console ++ ["Agent stop"])%list)
    | _ => (Ok tt, console)
    end.

Definition guardedAgent : AgentConfig World (list string) Error ToolContext :=
  {| agent_name := Some "GuardedAgent"; instructions := Some "Be concise.";
     model := None; temperature := None; tools := None;
     inputGuard := Some (fun msgs w => (Ok (last_ten msgs), w));
     outputGuard := Some (fun text w => (Ok (trim text), w));
     onTrace := Some console_trace;
     handoff := None |}.

End Guardrails.

(** ** A [JSON.parse] and a [JSON.stringify]

    The functions of the runtime on the texts the model handles: strings of
    bytes, integer number literals (a fraction or an exponent is answered with
    [SyntaxError]), and [\u] escapes below 128. *)

Module JSON.

Inductive token : Type :=
| TLBrace | TRBrace | TLBracket | TRBracket | TColon | TComma
| TString (s : string)
| TNumber (n : Z)
| TTrue | TFalse | TNull.

Definition code (c : ascii) : nat := nat_of_ascii c.

Definition is_ws (c : ascii) : bool :=
  let n := code c in
  Nat.eqb n 32 || Nat.eqb n 9 || Nat.eqb n 10 || Nat.eqb n 13.

Definition is_digit (c : ascii) : bool :=
  Nat.leb 48 (code c) && Nat.leb (code c) 57.

Definition is_letter (c : ascii) : bool :=
  (Nat.leb 97 (code c) && Nat.leb (code c) 122)
  || (Nat.leb 65 (code c) && Nat.leb (code c) 90).

(** The characters of literals and numbers. *)
Definition is_word (c : ascii) : bool :=
  is_digit c || is_letter c
  || Nat.eqb (code c) 45 || Nat.eqb (code c) 43 || Nat.eqb (code c) 46.

Definition hex_value (c : ascii) : option nat :=
  let n := code c in
  if is_digit c then Some (n - 48)
  else if Nat.leb 97 n && Nat.leb n 102 then Some (n - 87)
  else if Nat.leb 65 n && Nat.leb n 70 then Some (n - 55)
  else None.

Fixpoint digits_value (acc : Z) (ds : string) : option Z :=
  match ds with
  | EmptyString => Some acc
  | String d rest =>
      if is_digit d then digits_value (acc * 10 + Z.of_nat (code d - 48)) rest
      else None
  end.

(** [0], or a digit other than [0] followed by digits. *)
Definition natural_literal (ds : string) : option Z :=
  match ds with
  | EmptyString => None
  | String d rest =>
      if Nat.eqb (code d) 48
      then match rest with EmptyString => Some 0%Z | _ => None end
      else digits_value 0 ds
  end.

Definition number_literal (w : string) : option Z :=
  match w with
  | String c rest =>
      if Nat.eqb (code c) 45 then option_map Z.opp (natural_literal rest)
      else natural_literal w
  | EmptyString => None
  end.

Definition word_token (w : string) : option token :=
  if String.eqb w "true" then Some TTrue
  else if String.eqb w "false" then Some TFalse
  else if String.eqb w "null" then Some TNull
  else option_map TNumber (number_literal w).

Inductive lex_state : Type :=
| LIdle
| LString (acc : string)
| LEscape (acc : string)
| LUnicode (acc : string) (digits : list nat)
| LWord (acc : string).

Definition snoc (acc : string) (c : ascii) : string := acc ++ str1 c.

(** A character met outside strings and words; [k] lexes what follows. *)
Definition lex_idle (c : ascii) (k : lex_state -> option (list token))
  : option (list token) :=
  let n := code c in
  if is_ws c then k LIdle
  else if Nat.eqb n 123 then option_map (cons TLBrace) (k LIdle)
  else if Nat.eqb n 125 then option_map (cons TRBrace) (k LIdle)
  else if Nat.eqb n 91 then option_map (cons TLBracket) (k LIdle)
  else if Nat.eqb n 93 then option_map (cons TRBracket) (k LIdle)
  else if Nat.eqb n 58 then option_map (cons TColon) (k LIdle)
  else if Nat.eqb n 44 then option_map (cons TComma) (k LIdle)
  else if Nat.eqb n 34 then k (LString EmptyString)
  else if is_word c then k (LWord (str1 c))
  else None.

Definition escape (c : ascii) : option ascii :=
  let n := code c in
  if Nat.eqb n 34 then Some c
  else if Nat.eqb n 92 then Some c
  else if Nat.eqb n 47 then Some c
  else if Nat.eqb n 98 then Some (ascii_of_nat 8)
  else if Nat.eqb n 102 then Some (ascii_of_nat 12)
  else if Nat.eqb n 110 then Some (ascii_of_nat 10)
  else if Nat.eqb n 114 then Some (ascii_of_nat 13)
  else if Nat.eqb n 116 then Some (ascii_of_nat 9)
  else None.

(** What the text's end makes of the state. *)
Definition lex_end (st : lex_state) : option (list token) :=
  match st with
  | LIdle => Some []
  | LWord w => option_map (fun t => [t]) (word_token w)
  | _ => None
  end.

(** What a character makes of the state; [k] lexes what follows. *)
Definition lex_char (st : lex_state) (c : ascii)
  (k : lex_state -> option (list token)) : option (list token) :=
  match st with
  | LIdle => lex_idle c k
  | LString acc =>
      if Nat.eqb (code c) 34 then option_map (cons (TString acc)) (k LIdle)
      else if Nat.eqb (code c) 92 then k (LEscape acc)
      else if Nat.ltb (code c) 32 then None
      else k (LString (snoc acc c))
  | LEscape acc =>
      if Nat.eqb (code c) 117 then k (LUnicode acc [])
      else match escape c with
           | Some e => k (LString (snoc acc e))
           | None => None
           end
  | LUnicode acc ds =>
      match hex_value c with
      | None => None
      | Some d =>
          match ds with
          | [d1; d2; d3] =>
              let n := ((d1 * 16 + d2) * 16 + d3) * 16 + d in
              if Nat.ltb n 128 then k (LString (snoc acc (ascii_of_nat n)))
              else None
          | _ => k (LUnicode acc (ds ++ [d])%list)
          end
      end
  | LWord w =>
      if is_word c then k (LWord (snoc w c))
      else match word_token w with
           | Some t => option_map (cons t) (lex_idle c k)
           | None => None
           end
  end.

Fixpoint lex (st : lex_state) (text : string) : option (list token) :=
  match text with
  | EmptyString => lex_end st
  | String c rest => lex_char st c (fun st' => lex st' rest)
  end.

(** Setting a property: a key already present keeps its place. *)
Fixpoint set_member (key : string) (v : json) (members : list (string * json))
  : list (string * json) :=
  match members with
  | [] => [(key, v)]
  | (k, w) :: rest =>
      if String.eqb k key then (k, v) :: rest
      else (k, w) :: set_member key v rest
  end.

(** The containers being read, innermost first. *)
Inductive frame : Type :=
| FArr (items : list json)
| FObj (members : list (string * json))
| FKey (key : string).

Inductive expecting : Type :=
| EValue | EArrStart | EObjStart | EKey | EColon | EArrNext | EObjNext
| EDone (v : json).

(** A value is complete: it goes into the container being read. *)
Definition complete (v : json) (stack : list frame)
  : option (list frame * expecting) :=
  match stack with
  | [] => Some ([], EDone v)
  | FArr items :: below => Some (FArr (items ++ [v])%list :: below, EArrNext)
  | FKey key :: FObj members :: below =>
      Some (FObj (set_member key v members) :: below, EObjNext)
  | _ => None
  end.

Definition open_value (t : token) (stack : list frame)
  : option (list frame * expecting) :=
  match t with
  | TString s => complete (JStr s) stack
  | TNumber n => complete (JNum n) stack
  | TTrue => complete (JBool true) stack
  | TFalse => complete (JBool false) stack
  | TNull => complete JNull stack
  | TLBracket => Some (FArr [] :: stack, EArrStart)
  | TLBrace => Some (FObj [] :: stack, EObjStart)
  | _ => None
  end.

Definition close_array (stack : list frame) : option (list frame * expecting) :=
  match stack with
  | FArr items :: below => complete (JArr items) below
  | _ => None
  end.

Definition close_object (stack : list frame) : option (list frame * expecting) :=
  match stack with
  | FObj members :: below => complete (JObj members) below
  | _ => None
  end.

Definition step (t : token) (stack : list frame) (e : expecting)
  : option (list frame * expecting) :=
  match e, t with
  | EValue, _ => open_value t stack
  | EArrStart, TRBracket => close_array stack
  | EArrStart, _ => open_value t stack
  | EObjStart, TRBrace => close_object stack
  | EObjStart, TString key => Some (FKey key :: stack, EColon)
  | EKey, TString key => Some (FKey key :: stack, EColon)
  | EColon, TColon => Some (stack, EValue)
  | EArrNext, TComma => Some (stack, EValue)
  | EArrNext, TRBracket => close_array stack
  | EObjNext, TComma => Some (stack, EKey)
  | EObjNext, TRBrace => close_object stack
  | _, _ => None
  end.

Fixpoint read (ts : list token) (stack : list frame) (e : expecting) : parsed :=
  match ts with
  | [] => match e with EDone v => Parsed v | _ => SyntaxError end
  | t :: rest =>
      match step t stack e with
      | Some (stack', e') => read rest stack' e'
      | None => SyntaxError
      end
  end.

Definition parse (text : string) : parsed :=
  match lex LIdle text with
  | Some ts => read ts [] EValue
  | None => SyntaxError
  end.

Definition hex_digit (n : nat) : ascii :=
  if Nat.ltb n 10 then ascii_of_nat (48 + n) else ascii_of_nat (87 + n).

Definition quote_one (c : ascii) : string :=
  let n := code c in
  if Nat.eqb n 34 then "\" ++ dq
  else if Nat.eqb n 92 then "\\"
  else if Nat.eqb n 8 then "\b"
  else if Nat.eqb n 12 then "\f"
  else if Nat.eqb n 10 then "\n"
  else if Nat.eqb n 13 then "\r"
  else if Nat.eqb n 9 then "\t"
  else if Nat.ltb n 32
       then "\u00" ++ str1 (hex_digit (n / 16)) ++ str1 (hex_digit (n mod 16))
  else str1 c.

Fixpoint quote_body (s : string) : string :=
  match s with
  | EmptyString => EmptyString
  | String c rest => quote_one c ++ quote_body rest
  end.

Definition quote (s : string) : string := dq ++ quote_body s ++ dq.

Definition decimal (n : Z) : string := NilZero.string_of_int (Z.to_int n).

Fixpoint stringify (v : json) : string :=
  match v with
  | JNull => "null"
  | JBool true => "true"
  | JBool false => "false"
  | JNum n => decimal n
  | JStr s => quote s
  | JArr items => "[" ++ join "," (map stringify items) ++ "]"
  | JObj members =>
      "{" ++ join "," (map (fun kv => quote (fst kv) ++ ":" ++ stringify (snd kv)) members)
      ++ "}"
  end.

(** Whitespace only. *)
Fixpoint all_ws (text : string) : bool :=
  match text with
  | EmptyString => true
  | String c rest => is_ws c && all_ws rest
  end.

(** The character a punctuation token is made from. *)
Definition token_code (t : token) : option nat :=
  match t with
  | TLBrace => Some 123 | TRBrace => Some 125
  | TLBracket => Some 91 | TRBracket => Some 93
  | TColon => Some 58 | TComma => Some 44
  | _ => None
  end.

(** Every punctuation token of [ts] comes from a character of [text]. *)
Definition from_chars (text : string) (ts : list token) : Prop :=
  forall t n, In t ts -> token_code t = Some n ->
    contains (ascii_of_nat n) text = true.

Definition in_string (st : lex_state) : Prop :=
  match st with
  | LString _ | LEscape _ | LUnicode _ _ => True
  | _ => False
  end.

(** What [lex_char] does at the character [c]: from a state, the tokens
    it puts out and the state it goes on in. *)
Inductive lex_move (c : ascii) : lex_state -> list token -> lex_state -> Prop :=
| move_ws : is_ws c = true -> lex_move c LIdle [] LIdle
| move_punct t : token_code t = Some (code c) -> lex_move c LIdle [t] LIdle
| move_quote : code c = 34 -> lex_move c LIdle [] (LString EmptyString)
| move_word : is_word c = true -> lex_move c LIdle [] (LWord (str1 c))
| move_string st st' : in_string st -> in_string st' -> lex_move c st [] st'
| move_close acc : code c = 34 -> lex_move c (LString acc) [TString acc] LIdle
| move_more w : is_word c = true -> lex_move c (LWord w) [] (LWord (snoc w c))
| move_word_end w t front st' :
    is_word c = false ->
    word_token w = Some t ->
    lex_move c LIdle front st' ->
    lex_move c (LWord w) (t :: front) st'.

(** The outermost container being read is an array. *)
Definition array_below (stack : list frame) : Prop :=
  exists above items, stack = (above ++ [FArr items])%list.

(** No value is complete yet. *)
Definition pending (e : expecting) : Prop :=
  match e with EDone _ => False | _ => True end.

Definition not_object (v : json) : Prop :=
  match v with JObj _ => False | _ => True end.

End JSON.

(** ** Concrete agents

    The world counts the provider's calls; a scripted provider answers its
    [n]-th call with the [n]-th text of its script. The observer keeps the
    events it was shown. *)

Module Examples.

Definition World : Type := nat.
Definition Obs : Type := list TraceEvent.
Definition Error : Type := string.

Definition scripted (script : list string) : OpenAIClient World Error unit unit :=
  {| chat := fun _ n => (Ok (nth n script EmptyString), S n) |}.

Definition recorder : Observer World Obs Error :=
  fun event _ seen => (Ok tt, (seen ++ [event])%list).

Definition calculator : ToolDefinition World Error unit :=
  {| tool_name := "calculator";
     tool_description := Some "Evaluate an expression";
     tool_execute := fun _ _ n => (Ok (JStr "4"), n) |}.

Definition broken : ToolDefinition World Error unit :=
  {| tool_name := "broken";
     tool_description := None;
     tool_execute := fun _ _ n => (Throw "boom", n) |}.

Definition agent (ts : option (list (ToolDefinition World Error unit)))
  (observer : option (Observer World Obs Error))
  : AgentConfig World Obs Error unit :=
  {| agent_name := Some "Assistant";
     instructions := Some "Be concise.";
     model := None; temperature := None;
     tools := ts;
     inputGuard := None; outputGuard := None;
     onTrace := observer;
     handoff := None |}.

Definition ask (passes : option Z) : RunInput World Error unit unit unit :=
  {| messages := [message user "Hello"];
     expect := None; context := None; signal := None; onDelta := None;
     maxToolPasses := passes |}.

Definition start : State World Obs unit unit unit :=
  {| world := 0; obs := []; calls := [] |}.

Definition run_example (script : list string)
  (cfg : AgentConfig World Obs Error unit) (passes : option Z) :=
  run tt JSON.parse JSON.stringify (scripted script) cfg (ask passes) start.

(** [{"tool":"calculator","args":{"expression":"2+2"}}] *)
Definition call_calculator : string :=
  "{" ++ dq ++ "tool" ++ dq ++ ":" ++ dq ++ "calculator" ++ dq ++ ","
  ++ dq ++ "args" ++ dq ++ ":{" ++ dq ++ "expression" ++ dq ++ ":"
  ++ dq ++ "2+2" ++ dq ++ "}}".

(** [{"handoff":"Spanish","reason":"detected"}] *)
Definition hand_to_spanish : string :=
  "{" ++ dq ++ "handoff" ++ dq ++ ":" ++ dq ++ "Spanish" ++ dq ++ ","
  ++ dq ++ "reason" ++ dq ++ ":" ++ dq ++ "detected" ++ dq ++ "}".

(** [{"tool":"broken","args":{}}] *)
Definition call_broken : string :=
  "{" ++ dq ++ "tool" ++ dq ++ ":" ++ dq ++ "broken" ++ dq ++ ","
  ++ dq ++ "args" ++ dq ++ ":{}}".

(** [{"tool":"echo","args":{}}] *)
Definition call_echo : string :=
  "{" ++ dq ++ "tool" ++ dq ++ ":" ++ dq ++ "echo" ++ dq ++ ","
  ++ dq ++ "args" ++ dq ++ ":{}}".

(** A tool that answers with the very text that calls it. *)
Definition echo : ToolDefinition World Error unit :=
  {| tool_name := "echo";
     tool_description := None;
     tool_execute := fun _ _ n => (Ok (JStr call_echo), n) |}.

Definition hola : RunResult :=
  {| result_content := "Hola"; result_structured := None |}.

Definition to_spanish
  : any -> list Message -> unit -> Callback World Error RunResult :=
  fun _ _ _ n => (Ok hola, n).

(** An agent that hands off, with an output guard that must not be
    applied to what the handler returns. *)
Definition router (observer : option (Observer World Obs Error))
  : AgentConfig World Obs Error unit :=
  {| agent_name := Some "Router";
     instructions := Some "Detect the language.";
     model := None; temperature := None;
     tools := Some [calculator];
     inputGuard := None;
     outputGuard := Some (fun _ n => (Ok "guarded", n));
     onTrace := observer;
     handoff := Some to_spanish |}.

(** The state a run of [ask] is in when it enters the loop: [agent:start]
    was shown to the observer, if there is one. *)
Definition started (name : string) (observer : option (Observer World Obs Error))
  : State World Obs unit unit unit :=
  match observer with
  | Some _ =>
      {| world := 0; obs := [agent_start (Some name)];
         calls := [CallTrace (agent_start (Some name))] |}
  | None => start
  end.

(** The history the loop of [router] and [ask] starts from. *)
Definition router_history : list Message :=
  [message system "Detect the language."; message user "Hello"].

(** The history the loop of [agent] and [ask] starts from. *)
Definition first_history : list Message :=
  [message system "Be concise."; message user "Hello"].

(** [{"handoff":"Spanish","reason":"detected","tool":"calculator","args":{}}] *)
Definition hand_and_call : string :=
  "{" ++ dq ++ "handoff" ++ dq ++ ":" ++ dq ++ "Spanish" ++ dq ++ ","
  ++ dq ++ "reason" ++ dq ++ ":" ++ dq ++ "detected" ++ dq ++ ","
  ++ dq ++ "tool" ++ dq ++ ":" ++ dq ++ "calculator" ++ dq ++ ","
  ++ dq ++ "args" ++ dq ++ ":{}}".

(** An input guard that refuses, a provider that is down, an output guard
    that adds a mark, a schema that accepts whatever it is given. *)
Definition refusing : list Message -> Callback World Error (list Message) :=
  fun _ n => (Throw "refused", n).

Definition down : OpenAIClient World Error unit unit :=
  {| chat := fun _ n => (Throw "unavailable", S n) |}.

Definition marking : string -> Callback World Error string :=
  fun text n => (Ok (text ++ "!"), n).

Definition accepting : StructuredSchema World Error :=
  {| parse := fun v n => (Ok (match v with Some j => j | None => JNull end), n) |}.

(** [agent] with guards. *)
Definition guarded
  (guard_in : option (list Message -> Callback World Error (list Message)))
  (guard_out : option (string -> Callback World Error string))
  (observer : option (Observer World Obs Error))
  : AgentConfig World Obs Error unit :=
  {| agent_name := Some "Assistant";
     instructions := Some "Be concise.";
     model := None; temperature := None;
     tools := None;
     inputGuard := guard_in; outputGuard := guard_out;
     onTrace := observer;
     handoff := None |}.

Definition ask_for (schema : option (StructuredSchema World Error))
  : RunInput World Error unit unit unit :=
  {| messages := [message user "Hello"];
     expect := schema; context := None; signal := None; onDelta := None;
     maxToolPasses := None |}.

(** [{"result":42}] *)
Definition forty_two : string :=
  "{" ++ dq ++ "result" ++ dq ++ ":42}".

(** Two calculators of one name. *)
Definition calculator_two : ToolDefinition World Error unit :=
  {| tool_name := "calculator";
     tool_description := Some "Evaluate, again";
     tool_execute := fun _ _ n => (Ok (JStr "5"), n) |}.

Definition no_extension : PartialAgentConfig World Obs Error unit :=
  {| ext_name := None; ext_instructions := None; ext_model := None;
     ext_temperature := None; ext_tools := None; ext_inputGuard := None;
     ext_outputGuard := None; ext_onTrace := None; ext_handoff := None |}.

Definition with_tools (ts : list (ToolDefinition World Error unit))
  : PartialAgentConfig World Obs Error unit :=
  {| ext_name := None; ext_instructions := None; ext_model := None;
     ext_temperature := None; ext_tools := Some (Some ts); ext_inputGuard := None;
     ext_outputGuard := None; ext_onTrace := None; ext_handoff := None |}.

(** An input guard that lets the messages through. *)
Definition keeping : list Message -> Callback World Error (list Message) :=
  fun msgs n => (Ok msgs, n).

(** The history and the state of [agent (Some [calculator]) None] and a
    script that begins with [call_calculator], after the first pass. *)
Definition second_history : list Message :=
  (first_history ++ exchange (call_calculator, "4"))%list.

Definition second_state : State World Obs unit unit unit :=
  {| world := 1; obs := [];
     calls := [CallChat (chat_args (agent (Some [calculator]) None) (ask (Some 1%Z))
                           (tool_hint [calculator] :: first_history));
               CallTool "calculator" (Some (JObj [("expression", JStr "2+2")])) tt] |}.

(** An observer that throws. *)
Definition jammed : Observer World Obs Error :=
  fun _ _ seen => (Throw "jammed", seen).

(** [{"handoff":"SpanishAgent","reason":"spanish"}] *)
Definition hand_to_spanish_agent : string :=
  "{" ++ dq ++ "handoff" ++ dq ++ ":" ++ dq ++ "SpanishAgent" ++ dq ++ ","
  ++ dq ++ "reason" ++ dq ++ ":" ++ dq ++ "spanish" ++ dq ++ "}".

(** A streamed completion of the SDK: the chunks of a list, one for each
    [next()]. The world counts the calls. *)
Definition chunk_of (text : option string) : Chunk :=
  {| chunk_choices := Some [ {| choice_delta := Some {| delta_content := text |} |} ] |}.

Fixpoint stream_of (chunks : list Chunk) : Stream World Error :=
  Next (fun n =>
          match chunks with
          | [] => (Ok None, S n)
          | chunk :: rest => (Ok (Some (chunk, stream_of rest)), S n)
          end).

Definition sdk (chunks : list Chunk) : OpenAI World Error unit :=
  {| create_stream := fun _ n => (Ok (stream_of chunks), S n);
     create_completion := fun _ n => (Ok {| completion_choices := None |}, S n) |}.

Definition counting : DeltaHandler World Error := fun _ n => (Ok tt, S n).

Definition streaming : ProviderArgs World Error unit :=
  {| args_model := "gpt-4o-mini"; args_messages := [message user "Hello"];
     args_temperature := None; args_signal := None; args_onDelta := Some counting |}.

End Examples.

(** * Properties *)

(** ** Cutting at the braces *)

Lemma indexOf_least (c : ascii) (text : string) : (-1 <= indexOf c text)%Z.
Proof.
  induction text as [|d rest IH]; simpl; [lia|].
  destruct (Ascii.eqb d c); [lia|].
  destruct (indexOf c rest); lia.
Qed.

Lemma lastIndexOf_least (c : ascii) (text : string) : (-1 <= lastIndexOf c text)%Z.
Proof.
  induction text as [|d rest IH]; simpl; [lia|].
  destruct (lastIndexOf c rest); try lia.
  destruct (Ascii.eqb d c); lia.
Qed.

(** [indexOf] finds the first occurrence. *)
Lemma indexOf_first (c : ascii) (text : string) :
  indexOf c text <> (-1)%Z ->
  exists pre post,
    text = pre ++ String c post /\ contains c pre = false /\
    indexOf c text = Z.of_nat (String.length pre).
Proof.
  induction text as [|d rest IH]; simpl; [intros H; contradiction H; reflexivity|].
  destruct (Ascii.eqb_spec d c) as [->|N]; intros H.
  - exists EmptyString, rest. repeat split.
  - pose proof (indexOf_least c rest) as L.
    destruct (indexOf c rest) as [|i|i] eqn:E.
    + destruct IH as [pre [post [T [C I]]]]; [discriminate|].
      exists (String d pre), post. simpl. rewrite T, C.
      apply Ascii.eqb_neq in N. rewrite N. repeat split. lia.
    + destruct IH as [pre [post [T [C I]]]]; [discriminate|].
      exists (String d pre), post. simpl. rewrite T, C.
      apply Ascii.eqb_neq in N. rewrite N. repeat split. lia.
    + contradiction H. reflexivity.
Qed.

(** [lastIndexOf] finds the last occurrence. *)
Lemma lastIndexOf_last (c : ascii) (text : string) :
  lastIndexOf c text <> (-1)%Z ->
  exists pre post,
    text = pre ++ String c post /\ contains c post = false /\
    lastIndexOf c text = Z.of_nat (String.length pre).
Proof.
  induction text as [|d rest IH]; simpl; [intros H; contradiction H; reflexivity|].
  pose proof (lastIndexOf_least c rest) as L.
  destruct (lastIndexOf c rest) as [|i|i] eqn:E; intros H.
  - destruct IH as [pre [post [T [C I]]]]; [discriminate|].
    exists (String d pre), post. simpl. rewrite T. repeat split; [exact C | lia].
  - destruct IH as [pre [post [T [C I]]]]; [discriminate|].
    exists (String d pre), post. simpl. rewrite T. repeat split; [exact C | lia].
  - assert (i = 1%positive) by lia. subst i.
    destruct (Ascii.eqb_spec d c) as [->|N]; [|contradiction H; reflexivity].
    exists EmptyString, rest. repeat split.
    clear IH H L. induction rest as [|e rest IH]; simpl in *; [reflexivity|].
    pose proof (lastIndexOf_least c rest) as L.
    destruct (lastIndexOf c rest) as [|j|j]; try discriminate.
    assert (j = 1%positive) by lia. subst j.
    destruct (Ascii.eqb e c); [discriminate|]. simpl. apply IH. reflexivity.
Qed.

Lemma append_overlap (p1 p2 a b : string) :
  p1 ++ a = p2 ++ b ->
  String.length p1 < String.length p2 ->
  exists m, p2 = p1 ++ m /\ a = m ++ b /\ m <> EmptyString.
Proof.
  revert p2. induction p1 as [|c p1 IH]; intros p2 E L.
  - exists p2. simpl in *. repeat split; [exact E|].
    intros ->. simpl in L. lia.
  - destruct p2 as [|d p2]; simpl in L; [lia|].
    simpl in E. injection E as -> E.
    destruct (IH p2 E) as [m [P [A N]]]; [lia|].
    exists m. simpl. rewrite <- P. repeat split; assumption.
Qed.

Lemma substring_skip (p text : string) (n : nat) :
  substring (String.length p) n (p ++ text) = substring 0 n text.
Proof. induction p as [|c p IH]; simpl; [reflexivity | exact IH]. Qed.

Lemma substring_take (a b : string) :
  substring 0 (String.length a) (a ++ b) = a.
Proof.
  induction a as [|c a IH]; simpl.
  - destruct b; reflexivity.
  - rewrite IH. reflexivity.
Qed.

Lemma append_length (a b : string) :
  String.length (a ++ b) = String.length a + String.length b.
Proof. induction a as [|c a IH]; simpl; [reflexivity | rewrite IH; reflexivity]. Qed.

Lemma append_assoc (a b c : string) : (a ++ b) ++ c = a ++ (b ++ c).
Proof. induction a as [|d a IH]; simpl; [reflexivity | rewrite IH; reflexivity]. Qed.

Lemma append_empty (a : string) : a ++ EmptyString = a.
Proof. induction a as [|c a IH]; simpl; [reflexivity | rewrite IH; reflexivity]. Qed.

(** What [tryParseObject] cuts out: the text from its first opening brace
    to its last closing brace, both included. *)
Lemma slice_at_braces (text : string) :
  indexOf open_brace text <> (-1)%Z ->
  (lastIndexOf close_brace text > indexOf open_brace text)%Z ->
  exists pre mid post,
    text = pre ++ String open_brace (mid ++ String close_brace post) /\
    contains open_brace pre = false /\
    contains close_brace post = false /\
    slice text (indexOf open_brace text) (lastIndexOf close_brace text + 1)
    = String open_brace (mid ++ str1 close_brace).
Proof.
  intros A C.
  pose proof (indexOf_least open_brace text) as L.
  destruct (indexOf_first open_brace text A) as [p1 [q1 [T1 [N1 I1]]]].
  destruct (lastIndexOf_last close_brace text) as [p2 [q2 [T2 [N2 I2]]]]; [lia|].
  destruct (append_overlap p1 p2 (String open_brace q1) (String close_brace q2))
    as [m [P [Q M]]]; [congruence | lia |].
  destruct m as [|c mid]; [contradiction M; reflexivity|].
  simpl in Q. injection Q as <- Q.
  exists p1, mid, q2. split; [rewrite T1, Q; reflexivity|].
  split; [exact N1|]. split; [exact N2|].
  unfold slice. rewrite I1, I2, P, append_length. simpl String.length.
  rewrite Nat2Z.id.
  replace (Z.to_nat (Z.of_nat (String.length p1 + S (String.length mid)) + 1
                     - Z.of_nat (String.length p1)))
    with (String.length (String open_brace (mid ++ str1 close_brace)))
    by (simpl; rewrite append_length; simpl; lia).
  rewrite T1 at 1. rewrite Q, substring_skip.
  replace (String open_brace (mid ++ String close_brace q2))
    with (String open_brace (mid ++ str1 close_brace) ++ q2)
    by (simpl; rewrite append_assoc; reflexivity).
  apply substring_take.
Qed.

(** ** The runtime's parser reads an object from brace to brace *)

Lemma code_char (c : ascii) (n : nat) : JSON.code c = n -> c = ascii_of_nat n.
Proof.
  intros H. rewrite <- (ascii_nat_embedding c). unfold JSON.code in H.
  rewrite H. reflexivity.
Qed.

Lemma word_token_code (w : string) (t : JSON.token) :
  JSON.word_token w = Some t -> JSON.token_code t = None.
Proof.
  unfold JSON.word_token.
  destruct (String.eqb w "true"); [intros [= <-]; reflexivity|].
  destruct (String.eqb w "false"); [intros [= <-]; reflexivity|].
  destruct (String.eqb w "null"); [intros [= <-]; reflexivity|].
  destruct (JSON.number_literal w); simpl; [intros [= <-]; reflexivity | discriminate].
Qed.

Lemma option_cons (t : JSON.token) (o : option (list JSON.token))
  (ts : list JSON.token) :
  option_map (cons t) o = Some ts -> exists back, o = Some back /\ ts = t :: back.
Proof.
  destruct o as [back|]; simpl; [|discriminate].
  intros [= <-]. exists back. split; reflexivity.
Qed.

Lemma lex_idle_move (c : ascii) (k : JSON.lex_state -> option (list JSON.token))
  (ts : list JSON.token) :
  JSON.lex_idle c k = Some ts ->
  exists front st' back,
    JSON.lex_move c JSON.LIdle front st' /\ k st' = Some back /\
    ts = (front ++ back)%list.
Proof.
  unfold JSON.lex_idle.
  destruct (JSON.is_ws c) eqn:W.
  { intros H. exists [], JSON.LIdle, ts. repeat split; [constructor; exact W | exact H]. }
  repeat (match goal with
          | |- context [if Nat.eqb (JSON.code c) ?n then _ else _] =>
              let E := fresh "E" in
              destruct (Nat.eqb (JSON.code c) n) eqn:E;
              [apply Nat.eqb_eq in E;
               first [ intros H; apply option_cons in H; destruct H as [back [H ->]];
                       eexists [_], JSON.LIdle, back;
                       repeat split;
                       [apply JSON.move_punct; rewrite E; reflexivity | exact H]
                     | intros H; exists [], (JSON.LString EmptyString), ts;
                       repeat split; [apply JSON.move_quote; exact E | exact H] ]
              | clear E]
          end).
  destruct (JSON.is_word c) eqn:I; [|discriminate].
  intros H. exists [], (JSON.LWord (str1 c)), ts.
  repeat split; [apply JSON.move_word; exact I | exact H].
Qed.

Lemma lex_char_move (st : JSON.lex_state) (c : ascii)
  (k : JSON.lex_state -> option (list JSON.token)) (ts : list JSON.token) :
  JSON.lex_char st c k = Some ts ->
  exists front st' back,
    JSON.lex_move c st front st' /\ k st' = Some back /\ ts = (front ++ back)%list.
Proof.
  destruct st as [|acc|acc|acc ds|w]; simpl.
  - apply lex_idle_move.
  - destruct (Nat.eqb (JSON.code c) 34) eqn:E.
    { apply Nat.eqb_eq in E. intros H. apply option_cons in H.
      destruct H as [back [H ->]].
      exists [JSON.TString acc], JSON.LIdle, back.
      repeat split; [apply JSON.move_close; exact E | exact H]. }
    destruct (Nat.eqb (JSON.code c) 92).
    { intros H. exists [], (JSON.LEscape acc), ts.
      repeat split; [apply JSON.move_string; exact I | exact H]. }
    destruct (Nat.ltb (JSON.code c) 32); [discriminate|].
    intros H. exists [], (JSON.LString (JSON.snoc acc c)), ts.
    repeat split; [apply JSON.move_string; exact I | exact H].
  - destruct (Nat.eqb (JSON.code c) 117).
    { intros H. exists [], (JSON.LUnicode acc []), ts.
      repeat split; [apply JSON.move_string; exact I | exact H]. }
    destruct (JSON.escape c) as [e|]; [|discriminate].
    intros H. exists [], (JSON.LString (JSON.snoc acc e)), ts.
    repeat split; [apply JSON.move_string; exact I | exact H].
  - destruct (JSON.hex_value c) as [d|]; [|discriminate].
    destruct ds as [|d1 [|d2 [|d3 [|d4 more]]]];
      try (intros H; eexists [], _, ts;
           split; [|split; [exact H | reflexivity]];
           apply JSON.move_string; exact I).
    match goal with |- context [if ?b then _ else _] => destruct b end;
      [|discriminate].
    intros H; eexists [], _, ts.
    split; [|split; [exact H | reflexivity]].
    apply JSON.move_string; exact I.
  - destruct (JSON.is_word c) eqn:W.
    { intros H. exists [], (JSON.LWord (JSON.snoc w c)), ts.
      repeat split; [apply JSON.move_more; exact W | exact H]. }
    destruct (JSON.word_token w) as [t|] eqn:T; [|discriminate].
    intros H. apply option_cons in H. destruct H as [rest [H ->]].
    apply lex_idle_move in H. destruct H as [front [st' [back [M [K ->]]]]].
    exists (t :: front), st', back.
    repeat split; [apply JSON.move_word_end; assumption | exact K].
Qed.

Lemma move_codes (c : ascii) (st st' : JSON.lex_state) (front : list JSON.token) :
  JSON.lex_move c st front st' ->
  forall t n, In t front -> JSON.token_code t = Some n -> n = JSON.code c.
Proof.
  induction 1; intros u n Hin Hc; simpl in Hin; try contradiction.
  - destruct Hin as [<-|[]]. congruence.
  - destruct Hin as [<-|[]]. discriminate.
  - destruct Hin as [<-|Hin]; [|eauto].
    rewrite (word_token_code _ H0) in Hc. discriminate.
Qed.

Lemma lex_from_chars (text : string) :
  forall (st : JSON.lex_state) (ts : list JSON.token),
    JSON.lex st text = Some ts -> JSON.from_chars text ts.
Proof.
  induction text as [|c rest IH]; intros st ts; simpl.
  - destruct st; simpl; try discriminate.
    + intros [= <-] t n [].
    + destruct (JSON.word_token acc) as [t|] eqn:W; simpl; [|discriminate].
      intros [= <-] u n [<-|[]] Hc.
      rewrite (word_token_code _ W) in Hc. discriminate.
  - intros H. apply lex_char_move in H.
    destruct H as [front [st' [back [M [K ->]]]]].
    intros t n Hin Hc. simpl. apply in_app_or in Hin. destruct Hin as [Hin|Hin].
    + rewrite (move_codes M t Hin Hc), <- (@code_char c (JSON.code c) eq_refl).
      rewrite Ascii.eqb_refl. reflexivity.
    + rewrite (IH st' back K t n Hin Hc). apply orb_true_r.
Qed.

Lemma move_from_idle (c : ascii) (front : list JSON.token) (st' : JSON.lex_state) :
  JSON.lex_move c JSON.LIdle front st' ->
  (JSON.is_ws c = true /\ front = [] /\ st' = JSON.LIdle) \/
  (exists t, JSON.token_code t = Some (JSON.code c) /\ front = [t] /\ st' = JSON.LIdle) \/
  (JSON.code c = 34 /\ front = [] /\ st' = JSON.LString EmptyString) \/
  (JSON.is_word c = true /\ front = [] /\ st' = JSON.LWord (str1 c)).
Proof.
  inversion 1; subst; try contradiction; eauto 10.
Qed.

Lemma move_from_string (c : ascii) (st : JSON.lex_state)
  (front : list JSON.token) (st' : JSON.lex_state) :
  JSON.lex_move c st front st' ->
  JSON.in_string st ->
  (front = [] /\ JSON.in_string st') \/
  (exists acc, front = [JSON.TString acc] /\ st' = JSON.LIdle).
Proof.
  inversion 1; subst; intros S; try contradiction; eauto.
Qed.

Lemma move_from_word (c : ascii) (w : string) (front : list JSON.token)
  (st' : JSON.lex_state) :
  JSON.lex_move c (JSON.LWord w) front st' ->
  (front = [] /\ st' = JSON.LWord (JSON.snoc w c)) \/
  (exists t front', front = t :: front' /\ JSON.word_token w = Some t).
Proof.
  inversion 1; subst; try contradiction; eauto.
Qed.

Lemma lex_nothing (text : string) :
  forall st, JSON.lex st text = Some [] ->
    st = JSON.LIdle /\ JSON.all_ws text = true.
Proof.
  induction text as [|c rest IH]; intros st; cbn [JSON.lex JSON.all_ws].
  - destruct st; simpl; try discriminate; [intros _; split; reflexivity|].
    destruct (JSON.word_token acc); discriminate.
  - intros H. apply lex_char_move in H.
    destruct H as [front [st' [back [M [K E]]]]].
    symmetry in E. apply app_eq_nil in E. destruct E as [-> ->].
    destruct (IH st' K) as [-> W]. rewrite W.
    destruct st as [|acc|acc|acc ds|w].
    + destruct (move_from_idle M) as [[Hw _]|[[t [_ [F _]]]|[[_ [_ F]]|[_ [_ F]]]]];
        try discriminate.
      rewrite Hw. split; reflexivity.
    + destruct (move_from_string M I) as [[_ F]|[a [F _]]];
        [contradiction | discriminate].
    + destruct (move_from_string M I) as [[_ F]|[a [F _]]];
        [contradiction | discriminate].
    + destruct (move_from_string M I) as [[_ F]|[a [F _]]];
        [contradiction | discriminate].
    + destruct (move_from_word M) as [[_ F]|[t [f [F _]]]]; discriminate.
Qed.

Lemma lex_in_string (text : string) :
  forall st ts, JSON.in_string st -> JSON.lex st text = Some ts ->
    exists s back, ts = JSON.TString s :: back.
Proof.
  induction text as [|c rest IH]; intros st ts S; cbn [JSON.lex].
  - destruct st; simpl; try discriminate; contradiction.
  - intros H. apply lex_char_move in H.
    destruct H as [front [st' [back [M [K ->]]]]].
    destruct (move_from_string M S) as [[-> S']|[acc [-> _]]].
    + exact (IH st' back S' K).
    + exists acc, back. reflexivity.
Qed.

Lemma lex_in_word (text : string) :
  forall w ts, JSON.lex (JSON.LWord w) text = Some ts ->
    exists t back, ts = t :: back /\ JSON.token_code t = None.
Proof.
  induction text as [|c rest IH]; intros w ts; cbn [JSON.lex].
  - simpl. destruct (JSON.word_token w) as [t|] eqn:W; simpl; [|discriminate].
    intros [= <-]. exists t, []. split; [reflexivity | exact (word_token_code _ W)].
  - intros H. apply lex_char_move in H.
    destruct H as [front [st' [back [M [K ->]]]]].
    destruct (move_from_word M) as [[-> ->]|[t [f [-> W]]]].
    + exact (IH _ back K).
    + exists t, (f ++ back)%list. split; [reflexivity|].
      exact (word_token_code _ W).
Qed.

(** The tokens of a text are those of its first part, then those of the
    rest. *)
Lemma lex_append (a b : string) :
  forall st ts, JSON.lex st (a ++ b) = Some ts ->
    exists st1 ts1 ts2, JSON.lex st1 b = Some ts2 /\ ts = (ts1 ++ ts2)%list.
Proof.
  induction a as [|c a IH]; intros st ts; cbn [JSON.lex append].
  - intros H. exists st, [], ts. split; [exact H | reflexivity].
  - intros H. apply lex_char_move in H.
    destruct H as [front [st' [back [M [K ->]]]]].
    destruct (IH st' back K) as [st1 [ts1 [ts2 [L ->]]]].
    exists st1, (front ++ ts1)%list, ts2.
    split; [exact L | apply app_assoc].
Qed.

Lemma ws_without (c : ascii) (text : string) :
  JSON.is_ws c = false -> JSON.all_ws text = true -> contains c text = false.
Proof.
  intros N. induction text as [|d rest IH]; simpl; [reflexivity|].
  intros H. apply andb_prop in H. destruct H as [W R].
  rewrite (IH R), orb_false_r. apply Ascii.eqb_neq. intros ->. congruence.
Qed.

(** Before the brace that opens the first token there is whitespace only. *)
Lemma lex_leading (pre post : string) (back : list JSON.token) :
  JSON.lex JSON.LIdle (pre ++ String open_brace post)
  = Some (JSON.TLBrace :: back) ->
  contains open_brace pre = false ->
  JSON.all_ws pre = true.
Proof.
  induction pre as [|c pre IH]; cbn [JSON.lex append JSON.all_ws contains];
    [reflexivity|].
  intros H N. apply orb_false_iff in N. destruct N as [N1 N2].
  apply lex_char_move in H. destruct H as [front [st' [rest [M [K E]]]]].
  destruct (move_from_idle M)
    as [[W [-> ->]]|[[t [T [-> ->]]]|[[_ [-> ->]]|[_ [-> ->]]]]]; simpl in E.
  - subst rest. rewrite W, (IH K N2). reflexivity.
  - injection E as <- _. simpl in T. injection T as T.
    apply eq_sym, code_char in T. subst c.
    unfold open_brace in N1. rewrite Ascii.eqb_refl in N1. discriminate.
  - destruct (@lex_in_string _ (JSON.LString EmptyString) _ I K) as [s [b ->]].
    discriminate.
  - destruct (lex_in_word _ _ K) as [t [b [-> T]]].
    injection E as <- _. discriminate.
Qed.

Lemma last_app_cons (A : Type) (l1 l2 : list A) (d : A) :
  l2 <> [] -> last (l1 ++ l2) d = last l2 d.
Proof.
  intros N. induction l1 as [|x l1 IH]; simpl; [reflexivity|].
  rewrite IH. destruct (l1 ++ l2)%list eqn:E; [|reflexivity].
  apply app_eq_nil in E. destruct E as [_ E]. contradiction.
Qed.

Lemma last_in (A : Type) (l : list A) (d : A) : l <> [] -> In (last l d) l.
Proof.
  induction l as [|x l IH]; [contradiction|]. intros _.
  destruct l as [|y l]; [left; reflexivity|].
  right. apply IH. discriminate.
Qed.

(** After the brace that closes the last token there is whitespace only. *)
Lemma lex_trailing (pre post : string) (st : JSON.lex_state)
  (ts : list JSON.token) :
  JSON.lex st (pre ++ String close_brace post) = Some ts ->
  ts <> [] ->
  last ts JSON.TNull = JSON.TRBrace ->
  contains close_brace post = false ->
  JSON.all_ws post = true.
Proof.
  intros H Ne La N.
  destruct (lex_append pre _ st H) as [st1 [ts1 [ts2 [L ->]]]].
  cbn [JSON.lex] in L. apply lex_char_move in L.
  destruct L as [front [st' [back [M [K ->]]]]].
  destruct back as [|b back].
  - destruct (lex_nothing _ _ K) as [_ W]. exact W.
  - exfalso.
    rewrite last_app_cons in La by (destruct front; discriminate).
    rewrite last_app_cons in La by discriminate.
    assert (Hin : In JSON.TRBrace (b :: back))
      by (rewrite <- La; apply last_in; discriminate).
    pose proof (lex_from_chars post st' K JSON.TRBrace Hin eq_refl) as C.
    unfold close_brace in N. congruence.
Qed.

Lemma ws_code (c : ascii) :
  JSON.is_ws c = true ->
  JSON.code c = 32 \/ JSON.code c = 9 \/ JSON.code c = 10 \/ JSON.code c = 13.
Proof.
  unfold JSON.is_ws. intros H.
  repeat (apply orb_true_iff in H; destruct H as [H|H]);
    apply Nat.eqb_eq in H; tauto.
Qed.

Lemma lex_char_same (st : JSON.lex_state) (c : ascii)
  (k k' : JSON.lex_state -> option (list JSON.token)) :
  (forall st', k st' = k' st') ->
  JSON.lex_char st c k = JSON.lex_char st c k'.
Proof.
  intros E. destruct st as [|acc|acc|acc ds|w]; simpl; unfold JSON.lex_idle.
  - rewrite !E. reflexivity.
  - rewrite !E. reflexivity.
  - destruct (JSON.escape c); rewrite !E; reflexivity.
  - destruct (JSON.hex_value c); [|reflexivity].
    destruct ds as [|d1 [|d2 [|d3 [|d4 more]]]]; rewrite !E; reflexivity.
  - destruct (JSON.word_token w); rewrite !E; reflexivity.
Qed.

Lemma lex_char_ws (st : JSON.lex_state) (c : ascii) :
  JSON.is_ws c = true -> JSON.lex_char st c JSON.lex_end = JSON.lex_end st.
Proof.
  intros W. pose proof (ws_code c W) as C.
  destruct st as [|acc|acc|acc ds|w]; simpl;
    unfold JSON.lex_idle, JSON.is_word, JSON.is_digit, JSON.is_letter,
      JSON.escape, JSON.hex_value, JSON.is_digit;
    rewrite ?W; destruct C as [C|[C|[C|C]]]; rewrite ?C; simpl;
    try reflexivity; destruct (JSON.word_token w); reflexivity.
Qed.

Lemma lex_ws_only (ws : string) :
  JSON.all_ws ws = true -> forall st, JSON.lex st ws = JSON.lex_end st.
Proof.
  induction ws as [|c ws IH]; cbn [JSON.lex JSON.all_ws]; intros H st;
    [reflexivity|].
  apply andb_prop in H. destruct H as [W R].
  rewrite (lex_char_same st c _ JSON.lex_end (IH R)). apply lex_char_ws, W.
Qed.

(** Whitespace before and after a text does not change its tokens. *)
Lemma lex_trailing_ws (text ws : string) :
  JSON.all_ws ws = true ->
  forall st, JSON.lex st (text ++ ws) = JSON.lex st text.
Proof.
  intros W. induction text as [|c text IH]; cbn [JSON.lex append]; intros st.
  - apply lex_ws_only, W.
  - apply lex_char_same, IH.
Qed.

Lemma lex_leading_ws (ws text : string) :
  JSON.all_ws ws = true ->
  JSON.lex JSON.LIdle (ws ++ text) = JSON.lex JSON.LIdle text.
Proof.
  induction ws as [|c ws IH]; simpl; intros H; [reflexivity|].
  apply andb_prop in H. destruct H as [W R].
  unfold JSON.lex_idle. rewrite W. apply IH, R.
Qed.

Lemma complete_array_below (v : json) (stack stack' : list JSON.frame)
  (e' : JSON.expecting) :
  JSON.array_below stack ->
  JSON.complete v stack = Some (stack', e') ->
  JSON.array_below stack' /\ JSON.pending e'.
Proof.
  intros [above [items ->]]. unfold JSON.complete.
  destruct above as [|[i|m|k] above]; simpl; try discriminate.
  - intros [= <- <-]. split; [exists [], (items ++ [v])%list; reflexivity | exact I].
  - intros [= <- <-].
    split; [exists (JSON.FArr (i ++ [v]) :: above), items; reflexivity | exact I].
  - destruct above as [|[i'|m'|k'] above']; simpl; try discriminate.
    intros [= <- <-].
    split; [eexists (JSON.FObj _ :: above'), items; reflexivity | exact I].
Qed.

Lemma step_array_below (t : JSON.token) (stack stack' : list JSON.frame)
  (e e' : JSON.expecting) :
  JSON.array_below stack ->
  JSON.step t stack e = Some (stack', e') ->
  (JSON.array_below stack' /\ JSON.pending e') \/
  (stack' = [] /\ exists items, e' = JSON.EDone (JArr items)).
Proof.
  intros A.
  assert (grow : forall f, JSON.array_below (f :: stack)).
  { intros f. destruct A as [above [items ->]]. exists (f :: above), items. reflexivity. }
  assert (O : forall st' x, JSON.open_value t stack = Some (st', x) ->
                (JSON.array_below st' /\ JSON.pending x) \/
                (st' = [] /\ exists items, x = JSON.EDone (JArr items))).
  { intros st' x. destruct t; simpl; try discriminate;
      try (intros H; left; exact (complete_array_below _ A H));
      intros [= <- <-]; left; (split; [apply grow | exact I]). }
  assert (C : forall st' x, JSON.close_array stack = Some (st', x) ->
                (JSON.array_below st' /\ JSON.pending x) \/
                (st' = [] /\ exists items, x = JSON.EDone (JArr items))).
  { intros st' x. destruct A as [above [items ->]]. unfold JSON.close_array.
    destruct above as [|[i|m|k] above]; simpl; try discriminate.
    - intros [= <- <-]. right. split; [reflexivity | exists items; reflexivity].
    - intros H. left. refine (complete_array_below _ _ H).
      exists above, items. reflexivity. }
  assert (B : forall st' x, JSON.close_object stack = Some (st', x) ->
                (JSON.array_below st' /\ JSON.pending x) \/
                (st' = [] /\ exists items, x = JSON.EDone (JArr items))).
  { intros st' x. destruct A as [above [items ->]]. unfold JSON.close_object.
    destruct above as [|[i|m|k] above]; simpl; try discriminate.
    intros H. left. refine (complete_array_below _ _ H).
    exists above, items. reflexivity. }
  destruct e, t; simpl; try discriminate;
    try apply O; try apply C; try apply B;
    intros [= <- <-]; left; (split; [|exact I]);
    first [exact A | apply grow].
Qed.

Lemma read_done (ts : list JSON.token) (stack : list JSON.frame) (v v' : json) :
  JSON.read ts stack (JSON.EDone v) = Parsed v' -> ts = [] /\ v' = v.
Proof.
  destruct ts as [|t ts]; simpl.
  - intros [= <-]. split; reflexivity.
  - destruct t; discriminate.
Qed.

Lemma read_array_below (ts : list JSON.token) :
  forall (stack : list JSON.frame) (e : JSON.expecting) (v : json),
    JSON.array_below stack ->
    JSON.pending e ->
    JSON.read ts stack e = Parsed v -> JSON.not_object v.
Proof.
  induction ts as [|t ts IH]; intros stack e v A P; simpl.
  - destruct e; try discriminate. contradiction.
  - destruct (JSON.step t stack e) as [[stack' e']|] eqn:S; [|discriminate].
    destruct (step_array_below _ _ A S) as [[A' P']|[-> [items ->]]].
    + apply IH; assumption.
    + intros H. apply read_done in H. destruct H as [_ ->]. exact I.
Qed.

(** The tokens of an object begin with an opening brace and end with a
    closing brace. *)
Lemma read_object_head (ts : list JSON.token) (members : list (string * json)) :
  JSON.read ts [] JSON.EValue = Parsed (JObj members) ->
  exists back, ts = JSON.TLBrace :: back.
Proof.
  destruct ts as [|t ts]; simpl; [discriminate|].
  destruct t; simpl; try discriminate;
    try (intros H; apply read_done in H; destruct H as [_ H]; discriminate).
  - intros _. exists ts. reflexivity.
  - intros H.
    assert (A : JSON.array_below [JSON.FArr []]) by (exists [], []; reflexivity).
    destruct (@read_array_below ts [JSON.FArr []] JSON.EArrStart (JObj members)
                A I H).
Qed.

Lemma complete_done (v v' : json) (stack stack' : list JSON.frame) :
  JSON.complete v stack = Some (stack', JSON.EDone v') -> v' = v.
Proof.
  unfold JSON.complete. destruct stack as [|[i|m|k] below]; try discriminate.
  - intros [= _ <-]. reflexivity.
  - destruct below as [|[i'|m'|k'] below']; discriminate.
Qed.

Lemma step_done_object (t : JSON.token) (stack stack' : list JSON.frame)
  (e : JSON.expecting) (members : list (string * json)) :
  JSON.step t stack e = Some (stack', JSON.EDone (JObj members)) ->
  t = JSON.TRBrace.
Proof.
  assert (O : forall u, JSON.open_value u stack
                        = Some (stack', JSON.EDone (JObj members)) -> False).
  { intros u. destruct u; simpl; try discriminate;
      intros H; apply complete_done in H; discriminate. }
  assert (C : JSON.close_array stack
              = Some (stack', JSON.EDone (JObj members)) -> False).
  { unfold JSON.close_array. destruct stack as [|[i|m|k] below]; try discriminate.
    intros H. apply complete_done in H. discriminate. }
  assert (B : JSON.close_array stack
              = Some (stack', JSON.EDone (JObj members)) -> t = JSON.TRBrace)
    by (intros H; destruct (C H)).
  assert (P : forall u, JSON.open_value u stack
                        = Some (stack', JSON.EDone (JObj members)) ->
                        t = JSON.TRBrace)
    by (intros u H; destruct (O u H)).
  destruct e, t; simpl; try discriminate; try (intros _; reflexivity);
    try exact B; try apply P;
    intros H; apply complete_done in H; discriminate.
Qed.

Lemma read_object_last (ts : list JSON.token) :
  forall (stack : list JSON.frame) (e : JSON.expecting)
         (members : list (string * json)),
    JSON.read ts stack e = Parsed (JObj members) ->
    ts <> [] ->
    last ts JSON.TNull = JSON.TRBrace.
Proof.
  induction ts as [|t ts IH]; intros stack e members H Ne; [contradiction|].
  simpl in H.
  destruct (JSON.step t stack e) as [[stack' e']|] eqn:S; [|discriminate].
  destruct ts as [|u ts].
  - simpl in H. destruct e'; try discriminate. injection H as ->.
    simpl. exact (step_done_object _ _ _ S).
  - change (last (t :: u :: ts) JSON.TNull) with (last (u :: ts) JSON.TNull).
    apply (IH stack' e' members H). discriminate.
Qed.

Lemma indexOf_absent (c : ascii) (text : string) :
  contains c text = false -> indexOf c text = (-1)%Z.
Proof.
  induction text as [|d rest IH]; simpl; [reflexivity|].
  intros H. apply orb_false_iff in H. destruct H as [H1 H2].
  rewrite H1, (IH H2). reflexivity.
Qed.

Lemma indexOf_present (c : ascii) (text : string) :
  contains c text = true -> indexOf c text <> (-1)%Z.
Proof.
  induction text as [|d rest IH]; simpl; [discriminate|].
  destruct (Ascii.eqb d c); simpl; [discriminate|].
  intros H. specialize (IH H). pose proof (indexOf_least c rest).
  destruct (indexOf c rest); lia.
Qed.

Lemma lastIndexOf_present (c : ascii) (text : string) :
  contains c text = true -> lastIndexOf c text <> (-1)%Z.
Proof.
  induction text as [|d rest IH]; simpl; [discriminate|].
  pose proof (lastIndexOf_least c rest).
  destruct (Ascii.eqb d c); simpl.
  - intros _. destruct (lastIndexOf c rest); lia.
  - intros H'. specialize (IH H'). destruct (lastIndexOf c rest); lia.
Qed.

Lemma contains_append (c : ascii) (a b : string) :
  contains c (a ++ b) = contains c a || contains c b.
Proof.
  induction a as [|d a IH]; simpl; [reflexivity|].
  rewrite IH. apply orb_assoc.
Qed.

Lemma append_same_length (p1 p2 a b : string) :
  p1 ++ a = p2 ++ b -> String.length p1 = String.length p2 -> a = b.
Proof.
  revert p2. induction p1 as [|c p1 IH]; intros [|d p2] E L;
    simpl in *; try discriminate; [exact E|].
  injection E as _ E. apply (IH p2 E). lia.
Qed.

(** A text that parses to an object is that object's text from brace to
    brace, with whitespace around. *)
Lemma parse_object_cut (text : string) (members : list (string * json)) :
  JSON.parse text = Parsed (JObj members) ->
  indexOf open_brace text <> (-1)%Z /\
  (lastIndexOf close_brace text > indexOf open_brace text)%Z /\
  JSON.parse (slice text (indexOf open_brace text)
                (lastIndexOf close_brace text + 1))
  = Parsed (JObj members).
Proof.
  intros H. unfold JSON.parse in H.
  destruct (JSON.lex JSON.LIdle text) as [ts|] eqn:L; [|discriminate].
  destruct (read_object_head _ H) as [back ->].
  assert (La : last (JSON.TLBrace :: back) JSON.TNull = JSON.TRBrace)
    by (apply (@read_object_last _ _ _ _ H); discriminate).
  assert (Co : contains open_brace text = true)
    by (apply (lex_from_chars text JSON.LIdle L JSON.TLBrace);
        [left; reflexivity | reflexivity]).
  assert (Cc : contains close_brace text = true).
  { apply (lex_from_chars text JSON.LIdle L JSON.TRBrace); [|reflexivity].
    rewrite <- La. apply last_in. discriminate. }
  pose proof (indexOf_present _ _ Co) as Io.
  pose proof (lastIndexOf_present _ _ Cc) as Ic.
  assert (Ord : (lastIndexOf close_brace text > indexOf open_brace text)%Z).
  { destruct (indexOf_first open_brace text Io) as [p1 [q1 [T1 [N1 I1]]]].
    destruct (lastIndexOf_last close_brace text Ic) as [p2 [q2 [T2 [N2 I2]]]].
    assert (W1 : JSON.all_ws p1 = true)
      by (rewrite T1 in L; exact (lex_leading _ _ L N1)).
    rewrite I1, I2.
    destruct (Nat.lt_trichotomy (String.length p1) (String.length p2))
      as [Lt|[Eq|Gt]]; [lia | exfalso | exfalso].
    - assert (E : String open_brace q1 = String close_brace q2)
        by (apply (append_same_length p1 p2); congruence).
      vm_compute in E. discriminate E.
    - destruct (append_overlap p2 p1 (String close_brace q2) (String open_brace q1))
        as [m [P [Q M]]]; [congruence | exact Gt |].
      destruct m as [|c m]; [contradiction M; reflexivity|].
      simpl in Q. injection Q as <- _.
      pose proof (ws_without close_brace p1 eq_refl W1) as F.
      rewrite P, contains_append in F.
      cbn [contains] in F. rewrite Ascii.eqb_refl, orb_true_r in F. discriminate F. }
  split; [exact Io|]. split; [exact Ord|].
  destruct (slice_at_braces text Io Ord) as [pre [mid [post [T [Np [Nq S]]]]]].
  rewrite S. unfold JSON.parse.
  assert (Wp : JSON.all_ws pre = true)
    by (rewrite T in L; exact (lex_leading _ _ L Np)).
  assert (Wq : JSON.all_ws post = true).
  { replace (pre ++ String open_brace (mid ++ String close_brace post))
      with ((pre ++ String open_brace mid) ++ String close_brace post) in T
      by (rewrite append_assoc; reflexivity).
    rewrite T in L.
    apply (lex_trailing _ _ _ L); [discriminate | exact La | exact Nq]. }
  replace (JSON.lex JSON.LIdle (String open_brace (mid ++ str1 close_brace)))
    with (JSON.lex JSON.LIdle text); [rewrite L; exact H|].
  rewrite T.
  replace (pre ++ String open_brace (mid ++ String close_brace post))
    with (pre ++ (String open_brace (mid ++ str1 close_brace) ++ post))
    by (simpl; rewrite append_assoc; reflexivity).
  rewrite (lex_leading_ws _ _ Wp). apply lex_trailing_ws, Wq.
Qed.

(** So, for the runtime's parser, a text is plain prose as soon as it has no
    brace to cut at or the cut does not parse: as a whole it is then no
    object. *)
Lemma unparseable_cut_is_prose (text : string) :
  indexOf open_brace text = (-1)%Z \/
  lastIndexOf close_brace text = (-1)%Z \/
  (lastIndexOf close_brace text <= indexOf open_brace text)%Z \/
  JSON.parse (slice text (indexOf open_brace text)
                (lastIndexOf close_brace text + 1)) = SyntaxError ->
  plain_prose JSON.parse text.
Proof.
  intros H. split; [|exact H].
  intros members P. destruct (parse_object_cut text P) as [Io [Ord C]].
  pose proof (indexOf_least open_brace text).
  destruct H as [H|[H|[H|H]]]; try lia. congruence.
Qed.

Lemma braceless_is_prose (text : string) :
  contains open_brace text = false -> plain_prose JSON.parse text.
Proof.
  intros N. apply unparseable_cut_is_prose. left. apply indexOf_absent, N.
Qed.

(** ** Merging tool lists *)

Section Merging.

Variables World Error ToolContext : Type.

Local Abbreviation Tool := (ToolDefinition World Error ToolContext).

Lemma find_append (A : Type) (p : A -> bool) (l1 l2 : list A) :
  find p (l1 ++ l2)%list
  = match find p l1 with Some x => Some x | None => find p l2 end.
Proof.
  induction l1 as [|x l1 IH]; simpl; [reflexivity|].
  destruct (p x); [reflexivity | exact IH].
Qed.

Lemma map_set_keys (t : Tool) (m : list (string * Tool)) (k : string) :
  In k (map fst (map_set t m)) <-> k = tool_name t \/ In k (map fst m).
Proof.
  induction m as [|[k' v] m IH]; simpl.
  - intuition.
  - destruct (String.eqb_spec k' (tool_name t)) as [E|E]; simpl.
    + subst k'. intuition.
    + rewrite IH. intuition.
Qed.

Lemma map_set_nodup (t : Tool) (m : list (string * Tool)) :
  NoDup (map fst m) -> NoDup (map fst (map_set t m)).
Proof.
  induction m as [|[k' v] m IH]; simpl; intros H.
  - constructor; [intros [] | constructor].
  - inversion H as [|? ? Hk Hm]; subst.
    destruct (String.eqb_spec k' (tool_name t)) as [E|E]; simpl.
    + constructor; assumption.
    + constructor; [|auto].
      rewrite map_set_keys. intros [F|F]; [congruence | contradiction].
Qed.

Lemma map_set_keyed (t : Tool) (m : list (string * Tool)) :
  keyed m -> keyed (map_set t m).
Proof.
  unfold keyed. induction m as [|[k' v] m IH]; simpl; intros H k u Hin.
  - destruct Hin as [Hin|[]]. congruence.
  - destruct (String.eqb_spec k' (tool_name t)) as [E|E]; simpl in Hin.
    + destruct Hin as [Hin|Hin]; [congruence | eauto].
    + destruct Hin as [Hin|Hin]; [eauto | apply IH; eauto].
Qed.

Lemma map_set_assoc (t : Tool) (m : list (string * Tool)) (nm : string) :
  assoc nm (map_set t m) = if named nm t then Some t else assoc nm m.
Proof.
  unfold named. induction m as [|[k' v] m IH]; simpl.
  - reflexivity.
  - destruct (String.eqb_spec k' (tool_name t)) as [E|E]; simpl.
    + subst k'. destruct (String.eqb (tool_name t) nm); reflexivity.
    + rewrite IH. destruct (String.eqb_spec k' nm) as [F|F]; [|reflexivity].
      subst k'. destruct (String.eqb_spec (tool_name t) nm); congruence.
Qed.

Lemma keyed_values (m : list (string * Tool)) (nm : string) :
  keyed m -> find (named nm) (map snd m) = assoc nm m.
Proof.
  unfold named. induction m as [|[k v] m IH]; simpl; intros H; [reflexivity|].
  rewrite <- (H k v) by (left; reflexivity).
  destruct (String.eqb k nm); [reflexivity|].
  apply IH. intros k' t' Hin. apply H. right. exact Hin.
Qed.

Lemma set_all_keys (l : list Tool) (m : list (string * Tool)) (k : string) :
  In k (map fst (set_all l m)) <-> In k (map fst m) \/ In k (map tool_name l).
Proof.
  revert m. induction l as [|t l IH]; simpl; intros m.
  - intuition.
  - unfold set_all in *. simpl. rewrite IH, map_set_keys. intuition.
Qed.

Lemma set_all_nodup (l : list Tool) (m : list (string * Tool)) :
  NoDup (map fst m) -> NoDup (map fst (set_all l m)).
Proof.
  revert m. induction l as [|t l IH]; simpl; intros m H; [exact H|].
  apply IH, map_set_nodup, H.
Qed.

Lemma set_all_keyed (l : list Tool) (m : list (string * Tool)) :
  keyed m -> keyed (set_all l m).
Proof.
  revert m. induction l as [|t l IH]; simpl; intros m H; [exact H|].
  apply IH, map_set_keyed, H.
Qed.

Lemma set_all_assoc (l : list Tool) (m : list (string * Tool)) (nm : string) :
  assoc nm (set_all l m)
  = match find (named nm) (rev l) with Some t => Some t | None => assoc nm m end.
Proof.
  revert m. induction l as [|t l IH]; simpl; intros m; [reflexivity|].
  unfold set_all in *. simpl. rewrite IH, find_append, map_set_assoc. simpl.
  destruct (find (named nm) (rev l)); [reflexivity|].
  destruct (named nm t); reflexivity.
Qed.

Lemma keyed_names (m : list (string * Tool)) :
  keyed m -> map tool_name (map snd m) = map fst m.
Proof.
  induction m as [|[k v] m IH]; simpl; intros H; [reflexivity|].
  rewrite <- (H k v) by (left; reflexivity). f_equal.
  apply IH. intros k' t' Hin. apply H. right. exact Hin.
Qed.

(** C5. [mergeTools a b] is [undefined] exactly when both lists are absent;
    otherwise it holds one tool for each distinct name of [a] and [b] (no
    name twice, every name of either list, as many tools as distinct names),
    and the tool under a name is the last one of that name in [b] when [b]
    has one, the last one in [a] otherwise. *)
Theorem mergeTools_last_write_wins (a b : option (list Tool)) :
  (mergeTools a b = None <-> a = None /\ b = None) /\
  forall merged, mergeTools a b = Some merged ->
    NoDup (map tool_name merged) /\
    (forall nm, In nm (map tool_name merged)
                <-> In nm (map tool_name (or_empty a ++ or_empty b)%list)) /\
    length merged
    = length (nodup string_dec (map tool_name (or_empty a ++ or_empty b)%list)) /\
    (forall nm, find (named nm) merged
                = match find (named nm) (rev (or_empty b)) with
                  | Some t => Some t
                  | None => find (named nm) (rev (or_empty a))
                  end).
Proof.
  split.
  - destruct a, b; simpl; split; intros H; try discriminate; try tauto;
      destruct H; discriminate.
  - intros merged H.
    assert (E : merged = map snd (set_all (or_empty b) (set_all (or_empty a) []))).
    { destruct a, b; simpl in H; try discriminate; injection H as <-; reflexivity. }
    clear H. subst merged.
    assert (K : keyed (set_all (or_empty b) (set_all (or_empty a) []))).
    { apply set_all_keyed, set_all_keyed. intros k t []. }
    assert (N : NoDup (map fst (set_all (or_empty b) (set_all (or_empty a) [])))).
    { apply set_all_nodup, set_all_nodup. constructor. }
    assert (S : forall nm,
               In nm (map fst (set_all (or_empty b) (set_all (or_empty a) [])))
               <-> In nm (map tool_name (or_empty a ++ or_empty b)%list)).
    { intros nm. rewrite !set_all_keys, map_app, in_app_iff. simpl. tauto. }
    rewrite (keyed_names K). repeat split.
    + exact N.
    + apply S.
    + apply S.
    + rewrite <- (length_map tool_name), (keyed_names K).
      apply Permutation_length, NoDup_Permutation.
      * exact N.
      * apply NoDup_nodup.
      * intros nm. rewrite S, nodup_In. tauto.
    + intros nm. rewrite (keyed_values nm K), !set_all_assoc. simpl.
      destruct (find (named nm) (rev (or_empty b))); [reflexivity|].
      destruct (find (named nm) (rev (or_empty a))); reflexivity.
Qed.

(** *** The order of the merged list, and merging again *)

Lemma mergeTools_set_all (a b : option (list Tool)) :
  mergeTools a b
  = match a, b with
    | None, None => None
    | _, _ => Some (map snd (set_all (or_empty a ++ or_empty b)%list []))
    end.
Proof.
  unfold mergeTools, set_all. rewrite fold_left_app.
  destruct a, b; reflexivity.
Qed.

Lemma existsb_key (k : string) (keys : list string) :
  existsb (fun k' => String.eqb k' k) keys = true <-> In k keys.
Proof.
  rewrite existsb_exists. split.
  - intros [x [H E]]. apply String.eqb_eq in E. subst. exact H.
  - intros H. exists k. split; [exact H | apply String.eqb_refl].
Qed.

Lemma map_set_fst (t : Tool) (m : list (string * Tool)) :
  map fst (map_set t m) = set_key (map fst m) (tool_name t).
Proof.
  unfold set_key. induction m as [|[k v] m IH]; simpl; [reflexivity|].
  destruct (String.eqb k (tool_name t)) eqn:E; simpl; [reflexivity|].
  rewrite IH. destruct (existsb _ (map fst m)); reflexivity.
Qed.

Lemma set_all_fst (l : list Tool) (m : list (string * Tool)) :
  map fst (set_all l m) = fold_left set_key (map tool_name l) (map fst m).
Proof.
  unfold set_all. revert m. induction l as [|t l IH]; intros m; simpl; [reflexivity|].
  rewrite IH, map_set_fst. reflexivity.
Qed.

Lemma set_key_there (keys : list string) (k : string) :
  In k keys -> set_key keys k = keys.
Proof.
  intros H. unfold set_key.
  replace (existsb (fun k' => String.eqb k' k) keys) with true
    by (symmetry; apply existsb_key, H).
  reflexivity.
Qed.

Lemma set_key_new (keys : list string) (k : string) :
  ~ In k keys -> set_key keys k = (keys ++ [k])%list.
Proof.
  intros H. unfold set_key.
  replace (existsb (fun k' => String.eqb k' k) keys) with false; [reflexivity|].
  symmetry. apply not_true_is_false. intros F. apply H, existsb_key, F.
Qed.

Lemma set_key_in (keys : list string) (n k : string) :
  In k (set_key keys n) <-> In k keys \/ k = n.
Proof.
  destruct (in_dec string_dec n keys) as [H|H].
  - rewrite set_key_there by exact H. split; [tauto|].
    intros [K| ->]; assumption.
  - rewrite set_key_new by exact H. rewrite in_app_iff. simpl.
    split; [intros [K|[K|[]]]; auto | intros [K|K]; auto].
Qed.

Lemma set_keys_in (names keys : list string) (k : string) :
  In k (fold_left set_key names keys) <-> In k keys \/ In k names.
Proof.
  revert keys. induction names as [|n names IH]; intros keys; simpl.
  - tauto.
  - rewrite IH, set_key_in. split.
    + intros [[H|H]|H]; auto.
    + intros [H|[H|H]]; auto.
Qed.

Lemma set_keys_twice (names acc keys : list string) :
  fold_left set_key (fold_left set_key names acc) keys
  = fold_left set_key names (fold_left set_key acc keys).
Proof.
  revert acc. induction names as [|n names IH]; intros acc; simpl; [reflexivity|].
  rewrite IH. f_equal.
  destruct (in_dec string_dec n acc) as [H|H].
  - rewrite (@set_key_there acc n H). symmetry. apply set_key_there.
    apply set_keys_in. right. exact H.
  - rewrite (@set_key_new acc n H), fold_left_app. reflexivity.
Qed.

Lemma set_keys_first (names : list string) :
  fold_left set_key names [] = first_appearances names.
Proof.
  unfold first_appearances.
  induction names as [|n names IH] using rev_ind; [reflexivity|].
  rewrite fold_left_app, rev_app_distr. simpl. rewrite IH.
  destruct (in_dec string_dec n (rev names)) as [H|H].
  - apply set_key_there. apply in_rev. rewrite rev_involutive.
    apply nodup_In. exact H.
  - simpl. apply set_key_new. intros F.
    apply H. apply in_rev in F. rewrite ?rev_involutive in F.
    apply nodup_In in F. exact F.
Qed.

Lemma assoc_none (nm : string) (m : list (string * Tool)) :
  ~ In nm (map fst m) -> assoc nm m = None.
Proof.
  induction m as [|[k v] m IH]; simpl; intros H; [reflexivity|].
  destruct (String.eqb k nm) eqn:E.
  - apply String.eqb_eq in E. exfalso. apply H. left. exact E.
  - apply IH. intros F. apply H. right. exact F.
Qed.

(** Two [Map]s with the same keys in the same order and the same value
    under each key are the same. *)
Lemma map_ext (m1 m2 : list (string * Tool)) :
  NoDup (map fst m1) ->
  map fst m1 = map fst m2 ->
  (forall nm, assoc nm m1 = assoc nm m2) ->
  m1 = m2.
Proof.
  revert m2. induction m1 as [|[k1 v1] m1 IH]; intros [|[k2 v2] m2] N K A;
    try discriminate; [reflexivity|].
  simpl in K. injection K as -> K. inversion N as [|x xs Hx N']. subst.
  assert (v1 = v2).
  { specialize (A k2). simpl in A. rewrite String.eqb_refl in A. congruence. }
  subst v2. f_equal. apply IH; [exact N' | exact K |].
  intros nm. specialize (A nm). simpl in A.
  destruct (String.eqb k2 nm) eqn:E; [|exact A].
  apply String.eqb_eq in E. subst nm.
  rewrite !assoc_none; [reflexivity | rewrite <- K; exact Hx | exact Hx].
Qed.

Lemma find_absent (nm : string) (l : list Tool) :
  ~ In nm (map tool_name l) -> find (named nm) l = None.
Proof.
  induction l as [|t l IH]; simpl; intros H; [reflexivity|].
  unfold named at 1. destruct (String.eqb (tool_name t) nm) eqn:E.
  - apply String.eqb_eq in E. exfalso. apply H. left. exact E.
  - apply IH. intros F. apply H. right. exact F.
Qed.

Lemma find_rev_distinct (nm : string) (l : list Tool) :
  NoDup (map tool_name l) ->
  find (named nm) (rev l) = find (named nm) l.
Proof.
  induction l as [|t l IH]; simpl; intros N; [reflexivity|].
  inversion N as [|x xs Hx N']. subst.
  rewrite find_append, IH by exact N'. simpl.
  destruct (named nm t) eqn:E.
  - rewrite find_absent; [reflexivity|].
    unfold named in E. apply String.eqb_eq in E. rewrite <- E. exact Hx.
  - destruct (find (named nm) l); reflexivity.
Qed.

Lemma keyed_nil : keyed (@nil (string * Tool)).
Proof. intros k t []. Qed.

(** Setting the tools of a merged list again is setting the tools it was
    merged from. *)
Lemma set_all_merged (l : list Tool) (m : list (string * Tool)) :
  keyed m ->
  NoDup (map fst m) ->
  set_all (map snd (set_all l [])) m = set_all l m.
Proof.
  intros K N.
  assert (K0 : keyed (set_all l [])) by apply set_all_keyed, keyed_nil.
  assert (N0 : NoDup (map fst (set_all l []))) by (apply set_all_nodup; constructor).
  apply map_ext.
  - apply set_all_nodup, N.
  - rewrite !set_all_fst, (keyed_names K0), set_all_fst. simpl.
    rewrite set_keys_twice. reflexivity.
  - intros nm. rewrite !set_all_assoc.
    rewrite find_rev_distinct by (rewrite (keyed_names K0); exact N0).
    rewrite (keyed_values nm K0), set_all_assoc. simpl.
    destruct (find (named nm) (rev l)); reflexivity.
Qed.

Lemma set_all_app (l1 l2 : list Tool) (m : list (string * Tool)) :
  set_all (l1 ++ l2)%list m = set_all l2 (set_all l1 m).
Proof. apply fold_left_app. Qed.

Lemma set_all_merged_left (x y : list Tool) :
  set_all (map snd (set_all x []) ++ y)%list [] = set_all (x ++ y)%list [].
Proof.
  rewrite !set_all_app, set_all_merged;
    [reflexivity | apply keyed_nil | constructor].
Qed.

Lemma set_all_merged_right (x y : list Tool) :
  set_all (x ++ map snd (set_all y []))%list [] = set_all (x ++ y)%list [].
Proof.
  rewrite !set_all_app, set_all_merged;
    [reflexivity | apply set_all_keyed, keyed_nil | apply set_all_nodup; constructor].
Qed.

Lemma set_all_merged_alone (x : list Tool) :
  set_all (map snd (set_all x [])) [] = set_all x [].
Proof. apply set_all_merged; [apply keyed_nil | constructor]. Qed.

Lemma mergeTools_assoc (a b c : option (list Tool)) :
  mergeTools (mergeTools a b) c = mergeTools a (mergeTools b c).
Proof.
  rewrite !mergeTools_set_all.
  destruct a as [a|], b as [b|], c as [c|]; simpl or_empty;
    rewrite ?app_nil_r; simpl app;
    rewrite ?set_all_merged_left, ?set_all_merged_right, ?set_all_merged_alone,
      ?app_assoc;
    reflexivity.
Qed.

Lemma set_keys_there (names keys : list string) :
  (forall k, In k names -> In k keys) ->
  fold_left set_key names keys = keys.
Proof.
  induction names as [|n names IH]; simpl; intros H; [reflexivity|].
  rewrite set_key_there by (apply H; left; reflexivity).
  apply IH. intros k Hk. apply H. right. exact Hk.
Qed.

Lemma set_all_again (x y : list Tool) :
  set_all ((x ++ y) ++ y)%list [] = set_all (x ++ y)%list [].
Proof.
  rewrite (set_all_app (x ++ y) y). apply map_ext.
  - apply set_all_nodup, set_all_nodup. constructor.
  - rewrite set_all_fst. apply set_keys_there.
    intros k Hk. apply set_all_keys. right. rewrite map_app. apply in_or_app.
    right. exact Hk.
  - intros nm. rewrite (set_all_assoc y), !set_all_assoc, rev_app_distr, find_append.
    simpl. destruct (find (named nm) (rev y)); reflexivity.
Qed.

Lemma map_set_fresh (t : Tool) (m : list (string * Tool)) :
  ~ In (tool_name t) (map fst m) ->
  map_set t m = (m ++ [(tool_name t, t)])%list.
Proof.
  induction m as [|[k v] m IH]; simpl; intros H; [reflexivity|].
  destruct (String.eqb k (tool_name t)) eqn:E.
  - apply String.eqb_eq in E. exfalso. apply H. left. exact E.
  - rewrite IH; [reflexivity|]. intros F. apply H. right. exact F.
Qed.

Lemma set_all_fresh (l : list Tool) (m : list (string * Tool)) :
  NoDup (map fst m ++ map tool_name l)%list ->
  set_all l m = (m ++ map (fun t => (tool_name t, t)) l)%list.
Proof.
  unfold set_all. revert m. induction l as [|t l IH]; intros m N; simpl.
  - symmetry. apply app_nil_r.
  - simpl in N. rewrite map_set_fresh.
    + rewrite IH.
      * rewrite <- app_assoc. reflexivity.
      * rewrite map_app, <- app_assoc. exact N.
    + apply NoDup_remove_2 in N. intros F. apply N, in_or_app. left. exact F.
Qed.

(** The merged list holds the names of [a] followed by [b] in the order
    they first appear in: a tool of [b] that replaces one of [a] takes its
    place in the list, a tool of a new name goes to the end. *)
Theorem mergeTools_keeps_first_positions (a b : option (list Tool)) :
  option_map (map tool_name) (mergeTools a b)
  = match a, b with
    | None, None => None
    | _, _ => Some (first_appearances (map tool_name (or_empty a ++ or_empty b)%list))
    end.
Proof.
  rewrite mergeTools_set_all.
  assert (H : map tool_name (map snd (set_all (or_empty a ++ or_empty b)%list []))
              = first_appearances (map tool_name (or_empty a ++ or_empty b)%list)).
  { rewrite keyed_names by apply set_all_keyed, keyed_nil.
    rewrite set_all_fst. apply set_keys_first. }
  destruct a as [a|], b as [b|]; cbn [option_map or_empty] in *; rewrite ?H;
    reflexivity.
Qed.

(** When no name occurs twice in [a] followed by [b], merging is appending:
    every tool is kept, those of [a] before those of [b]. In particular
    merging a list of distinct names with nothing, as [agent.with({})] does,
    gives the list back. *)
Theorem mergeTools_of_distinct_names (a b : option (list Tool)) :
  NoDup (map tool_name (or_empty a ++ or_empty b)%list) ->
  mergeTools a b
  = match a, b with
    | None, None => None
    | _, _ => Some (or_empty a ++ or_empty b)%list
    end.
Proof.
  intros N. rewrite mergeTools_set_all.
  assert (H : map snd (set_all (or_empty a ++ or_empty b)%list [])
              = (or_empty a ++ or_empty b)%list).
  { rewrite set_all_fresh by exact N. simpl. rewrite map_map. apply map_id. }
  rewrite H. reflexivity.
Qed.

(** Merging is associative, and merging a merged list with nothing or with
    one of the lists it was merged from changes nothing: so
    [agent.with(x).with(y)] has the tools of [agent] merged with those of [x]
    merged with those of [y], however the merges are grouped. *)
Theorem mergeTools_is_associative (a b c : option (list Tool)) :
  mergeTools (mergeTools a b) c = mergeTools a (mergeTools b c) /\
  mergeTools (mergeTools a b) None = mergeTools a b /\
  mergeTools (mergeTools a b) b = mergeTools a b.
Proof.
  split; [apply mergeTools_assoc|]. split.
  - rewrite !mergeTools_set_all.
    destruct a as [a|], b as [b|]; simpl or_empty;
      rewrite ?app_nil_r; simpl app; rewrite ?set_all_merged_alone; reflexivity.
  - rewrite !mergeTools_set_all.
    destruct a as [a|], b as [b|]; simpl or_empty;
      rewrite ?app_nil_r; simpl app;
      rewrite ?set_all_merged_left, ?set_all_merged_alone; try reflexivity.
    + rewrite set_all_again. reflexivity.
    + pose proof (set_all_again [] b) as G. simpl in G. rewrite G. reflexivity.
Qed.

(** The tool under a name in a merged list: the last of that name in [b],
    or else the last in [a]. *)
Lemma mergeTools_find (a b : option (list Tool)) (merged : list Tool) (nm : string) :
  mergeTools a b = Some merged ->
  find (named nm) merged
  = match find (named nm) (rev (or_empty b)) with
    | Some t => Some t
    | None => find (named nm) (rev (or_empty a))
    end.
Proof.
  rewrite mergeTools_set_all. intros H.
  assert (E : merged = map snd (set_all (or_empty a ++ or_empty b)%list []))
    by (destruct a, b; try discriminate; injection H as <-; reflexivity).
  subst merged.
  rewrite keyed_values by apply set_all_keyed, keyed_nil.
  rewrite set_all_assoc, rev_app_distr, find_append. simpl.
  destruct (find (named nm) (rev (or_empty b))); [reflexivity|].
  destruct (find (named nm) (rev (or_empty a))); reflexivity.
Qed.

End Merging.

Section Properties.

Variables World Obs Error ToolContext AbortSignal OnDelta : Type.
Variable empty_context : ToolContext.
Variable JSON_parse : string -> parsed.
Variable JSON_stringify : json -> string.

Local Abbreviation Tool := (ToolDefinition World Error ToolContext).
Local Abbreviation Config := (AgentConfig World Obs Error ToolContext).
Local Abbreviation Client := (OpenAIClient World Error AbortSignal OnDelta).
Local Abbreviation Input := (RunInput World Error ToolContext AbortSignal OnDelta).
Local Abbreviation St := (State World Obs ToolContext AbortSignal OnDelta).
Local Abbreviation Calls := (list (Call ToolContext AbortSignal OnDelta)).
Local Abbreviation Run A := (M World Obs Error ToolContext AbortSignal OnDelta A).
Local Abbreviation tryParse := (tryParseObject JSON_parse).
Local Abbreviation parseTool := (parseToolCall JSON_parse).
Local Abbreviation execTool := (@maybeExecuteTool World Obs Error ToolContext
                              AbortSignal OnDelta JSON_parse JSON_stringify).
Local Abbreviation prepare_ := (@prepare World Obs Error ToolContext AbortSignal OnDelta).
Local Abbreviation dispatch_ := (@dispatch World Obs Error ToolContext AbortSignal
                               OnDelta empty_context JSON_parse JSON_stringify).
Local Abbreviation turn_ := (@turn World Obs Error ToolContext AbortSignal OnDelta
                           empty_context JSON_parse JSON_stringify).
Local Abbreviation loop_ := (@loop World Obs Error ToolContext AbortSignal OnDelta
                           empty_context JSON_parse JSON_stringify).
Local Abbreviation finalize_ := (@finalize World Obs Error ToolContext AbortSignal
                               OnDelta JSON_parse).
Local Abbreviation run_from_ := (@run_from World Obs Error ToolContext AbortSignal
                               OnDelta empty_context JSON_parse JSON_stringify).
Local Abbreviation run_ := (@run World Obs Error ToolContext AbortSignal OnDelta
                          empty_context JSON_parse JSON_stringify).
Local Abbreviation reaches_ := (@reaches World Obs Error ToolContext AbortSignal
                              OnDelta empty_context JSON_parse JSON_stringify).
Local Abbreviation ctx_of := (run_context empty_context).

Local Abbreviation emit_ := (@emit World Obs Error ToolContext AbortSignal OnDelta).
Local Abbreviation invoke_ := (@invoke World Obs Error ToolContext AbortSignal OnDelta).
Local Abbreviation ret_ := (@ret World Obs Error ToolContext AbortSignal OnDelta).
Local Abbreviation bind_ := (@bind World Obs Error ToolContext AbortSignal OnDelta).

(** ** The monad *)

Lemma settles_ret (A : Type) (a : A) (s : St) :
  settles (ret_ a) s (Ok a) (world s) [].
Proof.
  exists (obs s). unfold ret. rewrite app_nil_r. destruct s; reflexivity.
Qed.

Lemma settles_bind (A B : Type) (m : Run A) (f : A -> Run B) (s : St)
  (a : A) (w : World) (new : Calls) (r : Outcome Error B) (w' : World)
  (new' : Calls) :
  settles m s (Ok a) w new ->
  (forall s1, world s1 = w -> settles (f a) s1 r w' new') ->
  settles (bind m f) s r w' (new ++ new')%list.
Proof.
  intros [o H] K.
  destruct (K {| world := w; obs := o; calls := (calls s ++ new)%list |} eq_refl)
    as [o' K'].
  exists o'. unfold bind. rewrite H, K'. simpl. rewrite app_assoc. reflexivity.
Qed.

Lemma settles_throw (A B : Type) (m : Run A) (f : A -> Run B) (s : St)
  (e : Error) (w : World) (new : Calls) :
  settles m s (Throw e) w new ->
  settles (bind m f) s (Throw e) w new.
Proof.
  intros [o H]. exists o. unfold bind. rewrite H. reflexivity.
Qed.

Lemma settles_invoke (A : Type) (c : Call ToolContext AbortSignal OnDelta)
  (f : Callback World Error A) (s : St) (r : Outcome Error A) (w : World) :
  f (world s) = (r, w) ->
  settles (invoke_ c f) s r w [c].
Proof.
  intros H. exists (obs s). unfold invoke. rewrite H. reflexivity.
Qed.

Lemma settles_emit (observer : option (Observer World Obs Error))
  (event : TraceEvent) (s : St) :
  quiet observer ->
  settles (emit_ observer event) s (Ok tt) (world s) (traced observer event).
Proof.
  intros Q. destruct observer as [f|]; simpl.
  - specialize (Q f eq_refl event (world s) (obs s)).
    destruct (f event (world s) (obs s)) as [r o] eqn:E. simpl in Q. subst r.
    exists o. rewrite E. reflexivity.
  - apply settles_ret.
Qed.

Lemma count_app (p : Call ToolContext AbortSignal OnDelta -> bool) (l1 l2 : Calls) :
  count p (l1 ++ l2)%list = count p l1 + count p l2.
Proof. unfold count. rewrite filter_app, length_app. reflexivity. Qed.

Lemma adds_ret (p : Call ToolContext AbortSignal OnDelta -> bool) (A : Type) (a : A) :
  adds_at_most p 0 (ret_ a).
Proof.
  intros s. exists []. simpl. rewrite app_nil_r. split; [reflexivity | apply le_n].
Qed.

Lemma adds_bind (p : Call ToolContext AbortSignal OnDelta -> bool) (A B : Type)
  (m : Run A) (f : A -> Run B) (k1 k2 : nat) :
  adds_at_most p k1 m ->
  (forall a, adds_at_most p k2 (f a)) ->
  adds_at_most p (k1 + k2) (bind m f).
Proof.
  intros Hm Hf s. unfold bind.
  destruct (Hm s) as [new1 [E1 C1]].
  destruct (m s) as [[a|e] s1]; simpl in E1.
  - destruct (Hf a s1) as [new2 [E2 C2]].
    exists (new1 ++ new2)%list. rewrite E2, E1, app_assoc, count_app.
    split; [reflexivity | lia].
  - exists new1. simpl. split; [exact E1 | lia].
Qed.

Lemma adds_more (p : Call ToolContext AbortSignal OnDelta -> bool) (A : Type)
  (m : Run A) (k k' : nat) :
  k <= k' -> adds_at_most p k m -> adds_at_most p k' m.
Proof.
  intros L H s. destruct (H s) as [new [E C]]. exists new. split; [exact E | lia].
Qed.

Lemma adds_invoke (p : Call ToolContext AbortSignal OnDelta -> bool) (A : Type)
  (c : Call ToolContext AbortSignal OnDelta) (f : Callback World Error A) :
  adds_at_most p (if p c then 1 else 0) (invoke_ c f).
Proof.
  intros s. exists [c]. unfold invoke. destruct (f (world s)) as [r w]. simpl.
  split; [reflexivity|]. unfold count. simpl. destruct (p c); apply le_n.
Qed.

Lemma adds_emit (p : Call ToolContext AbortSignal OnDelta -> bool)
  (observer : option (Observer World Obs Error)) (event : TraceEvent) :
  p (CallTrace event) = false ->
  adds_at_most p 0 (emit_ observer event).
Proof.
  intros H. destruct observer as [f|]; simpl; [|apply adds_ret].
  intros s. exists [CallTrace event].
  destruct (f event (world s) (obs s)) as [r o]. simpl.
  split; [reflexivity|]. unfold count. simpl. rewrite H. apply le_n.
Qed.

Lemma invocations_app (l1 l2 : Calls) :
  invocations (l1 ++ l2)%list = (invocations l1 ++ invocations l2)%list.
Proof. apply filter_app. Qed.

Lemma alike_ret (A : Type) (a : A) : alike (ret_ a) (ret_ a).
Proof. intros s s0 H. split; [reflexivity | exact H]. Qed.

Lemma alike_bind (A B : Type) (m m0 : Run A) (f f0 : A -> Run B) :
  alike m m0 ->
  (forall a, alike (f a) (f0 a)) ->
  alike (bind m f) (bind m0 f0).
Proof.
  intros Hm Hf s s0 H. unfold bind.
  destruct (Hm s s0 H) as [E L].
  destruct (m s) as [[a|e] s1], (m0 s0) as [[a0|e0] s1']; simpl in E;
    try discriminate.
  - injection E as <-. apply Hf, L.
  - injection E as <-. split; [reflexivity | exact L].
Qed.

Lemma alike_invoke (A : Type) (c : Call ToolContext AbortSignal OnDelta)
  (f : Callback World Error A) :
  alike (invoke_ c f) (invoke_ c f).
Proof.
  intros s s0 [W I]. unfold invoke. rewrite <- W.
  destruct (f (world s)) as [r w]. simpl. split; [reflexivity|].
  split; simpl; [reflexivity|]. rewrite !invocations_app, I. reflexivity.
Qed.

Lemma alike_emit (observer observer0 : option (Observer World Obs Error))
  (event : TraceEvent) :
  quiet observer -> quiet observer0 ->
  alike (emit_ observer event) (emit_ observer0 event).
Proof.
  assert (one : forall obsv (s : St), quiet obsv ->
            fst (emit_ obsv event s) = Ok tt /\ same_low (snd (emit_ obsv event s)) s).
  { intros [f|] s Q; simpl.
    - specialize (Q f eq_refl event (world s) (obs s)).
      destruct (f event (world s) (obs s)) as [r o]. simpl in *.
      split; [exact Q|]. split; simpl; [reflexivity|].
      rewrite invocations_app. simpl. apply app_nil_r.
    - split; [reflexivity|]. split; reflexivity. }
  intros Q Q0 s s0 [W I].
  destruct (one observer s Q) as [E [W1 I1]].
  destruct (one observer0 s0 Q0) as [E0 [W2 I2]].
  split; [congruence|]. split; congruence.
Qed.

Lemma quiet_none : quiet (@None (Observer World Obs Error)).
Proof. intros f H. discriminate. Qed.

Lemma alike_silent (observer : option (Observer World Obs Error))
  (event : TraceEvent) :
  quiet observer -> alike (emit_ observer event) (ret_ tt).
Proof. intros Q. exact (alike_emit event Q quiet_none). Qed.

Ltac alike_emits Q :=
  first [ apply alike_silent; exact Q
        | apply alike_emit; [exact Q | apply quiet_none] ].

(** ** Directives *)

Lemma key_of_object (key : string) (v : any) :
  truthy v && typeof_object v && js_in key v = true <->
  exists members w, v = Some (JObj members) /\ lookup_member key members = Some w.
Proof.
  split.
  - destruct v as [[| | | | |members]|]; simpl; try discriminate;
      rewrite ?andb_false_r; try discriminate.
    destruct (lookup_member key members) as [w|] eqn:E; [|discriminate].
    intros _. exists members, w. split; [reflexivity | exact E].
  - intros [members [w [-> E]]]. simpl. rewrite E. reflexivity.
Qed.

Lemma no_key_unless_object (key : string) (v : any) :
  (forall members, v <> Some (JObj members)) ->
  truthy v && typeof_object v && js_in key v = false.
Proof.
  intros H. destruct (truthy v && typeof_object v && js_in key v) eqn:E;
    [|reflexivity].
  apply key_of_object in E. destruct E as [members [w [E _]]].
  exfalso. exact (H members E).
Qed.

Lemma prose_not_object (text : string) :
  plain_prose JSON_parse text ->
  forall members, tryParse text <> Some (JObj members).
Proof.
  intros [Hwhole Hcut] members. unfold tryParseObject.
  destruct (JSON_parse text) as [v|] eqn:E.
  - intros F. injection F as ->. exact (Hwhole members eq_refl).
  - destruct (negb (indexOf open_brace text =? -1)%Z
              && negb (lastIndexOf close_brace text =? -1)%Z
              && (lastIndexOf close_brace text >? indexOf open_brace text)%Z) eqn:C;
      [|discriminate].
    apply andb_prop in C. destruct C as [C C3].
    apply andb_prop in C. destruct C as [C1 C2].
    apply negb_true_iff, Z.eqb_neq in C1.
    apply negb_true_iff, Z.eqb_neq in C2.
    apply Z.gtb_lt in C3.
    destruct Hcut as [H|[H|[H|H]]]; try lia.
    rewrite H. discriminate.
Qed.

Lemma parseToolCall_not_object (text : string) :
  (forall members, tryParse text <> Some (JObj members)) ->
  parseTool text = None.
Proof.
  intros H. unfold parseToolCall.
  destruct (tryParse text) as [[| | | | |members]|]; simpl;
    rewrite ?andb_false_r; try reflexivity.
  exfalso. exact (H members eq_refl).
Qed.

Lemma find_nothing (A : Type) (p : A -> bool) (l : list A) :
  (forall x, In x l -> p x = false) -> find p l = None.
Proof.
  induction l as [|x l IH]; simpl; intros H; [reflexivity|].
  rewrite (H x) by (left; reflexivity). apply IH. intros y Hy. apply H. right. exact Hy.
Qed.

Lemma strict_eq_string_spec (nm : string) (v : any) :
  strict_eq_string nm v = true <-> v = Some (JStr nm).
Proof.
  destruct v as [[| | |s| |]|]; simpl; split; try discriminate.
  - intros H. apply String.eqb_eq in H. subst. reflexivity.
  - intros H. injection H as ->. apply String.eqb_refl.
Qed.

(** C8. [maybeExecuteTool] settles to the content it was given, with no
    call made, no event emitted and the state untouched, when the tool list
    is absent, when it is empty, when the content holds no tool-call
    directive, and when the directive names a tool that is not in the list. *)
Theorem maybeExecuteTool_pass_through (content : string)
  (ts : option (list Tool)) (ctx : ToolContext)
  (observer : option (Observer World Obs Error)) (s : St) :
  ts = None \/ ts = Some [] \/ parseTool content = None \/
  (exists toolCall, parseTool content = Some toolCall /\
     forall t, In t (or_empty ts) ->
       js_get toolCall "tool" <> Some (JStr (tool_name t))) ->
  execTool content ts ctx observer s = (Ok content, s).
Proof.
  intros H. unfold maybeExecuteTool.
  destruct ts as [[|t ts]|]; try reflexivity.
  destruct H as [H|[H|[H|[toolCall [H N]]]]]; try discriminate.
  - rewrite H. reflexivity.
  - rewrite H, find_nothing; [reflexivity|].
    intros x Hx. simpl in N. specialize (N x Hx).
    destruct (strict_eq_string (tool_name x) (js_get toolCall "tool")) eqn:E;
      [|reflexivity].
    apply strict_eq_string_spec in E. contradiction.
Qed.

(** ** The passes of the loop *)

Section Loop.

Variable client : Client.
Variable cfg : Config.
Variable input : Input.

Local Abbreviation turn' := (turn_ client cfg input).
Local Abbreviation loop' := (loop_ client cfg input).
Local Abbreviation run_from' := (run_from_ client cfg input).
Local Abbreviation finalize' := (finalize_ cfg input).
Local Abbreviation run' := (run_ client cfg input).
Local Abbreviation reaches' := (reaches_ client cfg input).
Local Abbreviation args_of := (chat_args cfg input).
Local Abbreviation observer := (onTrace cfg).

Lemma run_from_continue (n : nat) (history : list Message) (last : string)
  (s s' : St) (history' : list Message) (last' : string) :
  turn' history s = (Ok (Continue history' last'), s') ->
  run_from' (S n) history last s = run_from' n history' last' s'.
Proof.
  intros H. unfold run_from. simpl. unfold bind. rewrite H. reflexivity.
Qed.

Lemma run_from_break (n : nat) (history : list Message) (last : string)
  (s s' : St) (history' : list Message) (last' : string) :
  turn' history s = (Ok (Break history' last'), s') ->
  run_from' (S n) history last s = finalize' last' s'.
Proof.
  intros H. unfold run_from. simpl. unfold bind. rewrite H. reflexivity.
Qed.

Lemma run_from_return (n : nat) (history : list Message) (last : string)
  (s s' : St) (result : RunResult) :
  turn' history s = (Ok (Return result), s') ->
  run_from' (S n) history last s = (Ok result, s').
Proof.
  intros H. unfold run_from. simpl. unfold bind. rewrite H. reflexivity.
Qed.

Lemma run_from_throw (n : nat) (history : list Message) (last : string)
  (s s' : St) (e : Error) :
  turn' history s = (Throw e, s') ->
  run_from' (S n) history last s = (Throw e, s').
Proof.
  intros H. unfold run_from. simpl. unfold bind. rewrite H. reflexivity.
Qed.

Lemma run_from_last (history : list Message) (last : string)
  (s s' : St) (history' : list Message) (last' : string) :
  turn' history s = (Ok (Continue history' last'), s') ->
  run_from' 1 history last s = finalize' last' s'.
Proof.
  intros H. rewrite (@run_from_continue 0 _ last _ _ _ _ H). reflexivity.
Qed.

(** A run is the rest of the run from any pass it gets to. *)
Lemma reaches_run (s0 : St) (n : nat) (history : list Message) (last : string)
  (s : St) :
  reaches' s0 n history last s ->
  run' s0 = run_from' n history last s.
Proof.
  induction 1 as [history s H | n history last s history' last' s' _ IH H].
  - unfold run, bind. rewrite H. reflexivity.
  - rewrite IH. apply run_from_continue, H.
Qed.

(** *** One pass *)

Lemma settles_as (A : Type) (m : Run A) (s : St) (r : Outcome Error A)
  (w : World) (new new' : Calls) :
  new = new' -> settles m s r w new -> settles m s r w new'.
Proof. intros <-. exact (fun H => H). Qed.

Lemma settles_here (A : Type) (m : Run A) (s : St) (a : A) :
  m s = (Ok a, s) -> settles m s (Ok a) (world s) [].
Proof.
  intros H. exists (obs s). rewrite H, app_nil_r. destruct s; reflexivity.
Qed.

Lemma find_same (A : Type) (p q : A -> bool) (l : list A) :
  (forall x, p x = q x) -> find p l = find q l.
Proof.
  intros H. induction l as [|x l IH]; simpl; [reflexivity|].
  rewrite H, IH. reflexivity.
Qed.

Lemma turn_settles (history : list Message) (s : St) (text : string)
  (w1 : World) (r : Outcome Error Turn) (w' : World) (new' : Calls) :
  quiet observer ->
  chat client (args_of (withToolCallHints history (tools cfg))) (world s)
  = (Ok text, w1) ->
  (forall s1, world s1 = w1 -> settles (dispatch_ cfg input history text) s1 r w' new') ->
  settles (turn' history) s r w'
    (traced observer (llm_request (run_model cfg) (withToolCallHints history (tools cfg)))
     ++ [CallChat (args_of (withToolCallHints history (tools cfg)))]
     ++ traced observer (llm_response text) ++ new')%list.
Proof.
  intros Q C K. unfold turn.
  eapply settles_bind; [apply settles_emit, Q|]. intros s1 E1.
  eapply settles_bind; [apply settles_invoke; rewrite E1; exact C|]. intros s2 E2.
  eapply settles_bind; [apply settles_emit, Q|]. intros s3 E3.
  apply K. congruence.
Qed.

Lemma dispatch_prose (history : list Message) (text : string) (s : St) :
  plain_prose JSON_parse text ->
  dispatch_ cfg input history text s = (Ok (Break history text), s).
Proof.
  intros P. pose proof (prose_not_object P) as N. unfold dispatch.
  rewrite (no_key_unless_object "handoff" N). unfold bind.
  rewrite maybeExecuteTool_pass_through.
  - rewrite String.eqb_refl. reflexivity.
  - right. right. left. apply parseToolCall_not_object, N.
Qed.

Lemma dispatch_handoff (history : list Message) (text : string) (s : St)
  (handler : any -> list Message -> ToolContext -> Callback World Error RunResult)
  (to : json) (reason : any) (r : Outcome Error RunResult) (w2 : World) :
  quiet observer ->
  handoff cfg = Some handler ->
  hands_off JSON_parse text to reason ->
  handler (Some to) history (ctx_of input) (world s) = (r, w2) ->
  match r with
  | Ok result =>
      settles (dispatch_ cfg input history text) s (Ok (Return result)) w2
        (traced observer (handoff_event (agent_name cfg) (Some to) reason)
         ++ [CallHandoff (Some to) history (ctx_of input)]
         ++ traced observer (agent_stop (agent_name cfg)))%list
  | Throw e =>
      settles (dispatch_ cfg input history text) s (Throw e) w2
        (traced observer (handoff_event (agent_name cfg) (Some to) reason)
         ++ [CallHandoff (Some to) history (ctx_of input)])%list
  end.
Proof.
  intros Q Hh [members [P [K R]]] C. unfold dispatch. rewrite P.
  replace (truthy (Some (JObj members)) && typeof_object (Some (JObj members))
           && js_in "handoff" (Some (JObj members))) with true
    by (simpl; rewrite K; reflexivity).
  rewrite Hh. simpl js_get. rewrite K, R.
  destruct r as [result|e].
  - eapply settles_bind; [apply settles_emit, Q|]. intros s1 E1.
    eapply settles_bind; [apply settles_invoke; rewrite E1; exact C|]. intros s2 E2.
    eapply settles_as; [|eapply settles_bind; [apply settles_emit, Q|]].
    + apply app_nil_r.
    + intros s3 E3. rewrite <- E2, <- E3.
      replace {| result_content := result_content result;
                 result_structured := result_structured result |}
        with result by (destruct result; reflexivity).
      apply settles_ret.
  - eapply settles_bind; [apply settles_emit, Q|]. intros s1 E1.
    apply settles_throw. apply settles_invoke. rewrite E1. exact C.
Qed.

Lemma maybeExecuteTool_settles (text nm : string) (args : json) (s : St)
  (ts : list Tool) (found : Tool) (r : Outcome Error json) (w2 : World) :
  quiet observer ->
  calls_tool JSON_parse text nm args ->
  find (named nm) ts = Some found ->
  tool_execute found (Some args) (ctx_of input) (world s) = (r, w2) ->
  match r with
  | Ok result =>
      settles (execTool text (Some ts) (ctx_of input) observer) s
        (Ok (tool_text JSON_stringify result)) w2
        (traced observer (tool_start (tool_name found) (Some args))
         ++ [CallTool (tool_name found) (Some args) (ctx_of input)]
         ++ traced observer (tool_stop (tool_name found) result))%list
  | Throw e =>
      settles (execTool text (Some ts) (ctx_of input) observer) s (Throw e) w2
        (traced observer (tool_start (tool_name found) (Some args))
         ++ [CallTool (tool_name found) (Some args) (ctx_of input)])%list
  end.
Proof.
  intros Q [members [P [H [T A]]]] F C. unfold maybeExecuteTool.
  destruct ts as [|t ts]; [discriminate|].
  unfold parseToolCall. rewrite P.
  replace (truthy (Some (JObj members)) && typeof_object (Some (JObj members))
           && js_in "tool" (Some (JObj members))
           && js_in "args" (Some (JObj members))) with true
    by (simpl; rewrite T, A; reflexivity).
  simpl js_get. rewrite T, A.
  rewrite (find_same (fun t => strict_eq_string (tool_name t) (Some (JStr nm)))
             (named nm) (t :: ts)) by reflexivity.
  rewrite F.
  destruct r as [result|e].
  - eapply settles_bind; [apply settles_emit, Q|]. intros s1 E1.
    eapply settles_bind; [apply settles_invoke; rewrite E1; exact C|]. intros s2 E2.
    eapply settles_as; [|eapply settles_bind; [apply settles_emit, Q|]].
    + apply app_nil_r.
    + intros s3 E3. rewrite <- E2, <- E3. apply settles_ret.
  - eapply settles_bind; [apply settles_emit, Q|]. intros s1 E1.
    apply settles_throw. apply settles_invoke. rewrite E1. exact C.
Qed.

(** What the loop body makes of a tool's text. *)
Lemma dispatch_tool (history : list Message) (text nm : string) (args : json)
  (s : St) (ts : list Tool) (found : Tool) (r : Outcome Error json) (w2 : World) :
  quiet observer ->
  calls_tool JSON_parse text nm args ->
  tools cfg = Some ts ->
  find (named nm) ts = Some found ->
  tool_execute found (Some args) (ctx_of input) (world s) = (r, w2) ->
  match r with
  | Ok result =>
      settles (dispatch_ cfg input history text) s
        (Ok (if negb (String.eqb (tool_text JSON_stringify result) text)
             then Continue (history ++ [message assistant text;
                                        message tool (tool_text JSON_stringify result)])%list
                    text
             else Break history text)) w2
        (traced observer (tool_start (tool_name found) (Some args))
         ++ [CallTool (tool_name found) (Some args) (ctx_of input)]
         ++ traced observer (tool_stop (tool_name found) result))%list
  | Throw e =>
      settles (dispatch_ cfg input history text) s (Throw e) w2
        (traced observer (tool_start (tool_name found) (Some args))
         ++ [CallTool (tool_name found) (Some args) (ctx_of input)])%list
  end.
Proof.
  intros Q D Ht F C.
  pose proof (@maybeExecuteTool_settles text nm args s ts found r w2 Q D F C) as E.
  destruct D as [members [P [H _]]].
  unfold dispatch. rewrite P.
  replace (truthy (Some (JObj members)) && typeof_object (Some (JObj members))
           && js_in "handoff" (Some (JObj members))) with false
    by (simpl; rewrite H; reflexivity).
  rewrite Ht. destruct r as [result|e].
  - eapply settles_as; [|eapply settles_bind; [exact E|]].
    + apply app_nil_r.
    + intros s1 E1. rewrite <- E1.
      destruct (negb (String.eqb (tool_text JSON_stringify result) text));
        apply settles_ret.
  - apply settles_throw, E.
Qed.

Lemma settles_state (A : Type) (m : Run A) (s : St) (r : Outcome Error A)
  (w : World) (new : Calls) :
  settles m s r w new ->
  exists s', m s = (r, s') /\ world s' = w /\ calls s' = (calls s ++ new)%list.
Proof.
  intros [o H]. eexists. split; [exact H|]. split; reflexivity.
Qed.

(** With no output guard and no schema, what follows the loop returns the
    last content as it is. *)
Lemma finalize_plain (text : string) (s : St) :
  quiet observer ->
  outputGuard cfg = None ->
  expect input = None ->
  settles (finalize' text) s
    (Ok {| result_content := text; result_structured := undefined |})
    (world s) (traced observer (agent_stop (agent_name cfg))).
Proof.
  intros Q G X. unfold finalize. rewrite G, X.
  eapply settles_as; cycle 1.
  - eapply settles_bind; [apply settles_ret|].
    intros s1 E1. eapply settles_bind; [apply settles_ret|].
    intros s2 E2. eapply settles_bind; [apply settles_emit, Q|].
    intros s3 E3. rewrite <- E1, <- E2, <- E3. apply settles_ret.
  - simpl. apply app_nil_r.
Qed.

Lemma pass_prose (history : list Message) (s : St) (text : string) (w1 : World) :
  quiet observer ->
  chat client (args_of (withToolCallHints history (tools cfg))) (world s)
  = (Ok text, w1) ->
  plain_prose JSON_parse text ->
  settles (turn' history) s (Ok (Break history text)) w1
    (traced observer (llm_request (run_model cfg) (withToolCallHints history (tools cfg)))
     ++ [CallChat (args_of (withToolCallHints history (tools cfg)))]
     ++ traced observer (llm_response text))%list.
Proof.
  intros Q C P.
  eapply settles_as; [|apply turn_settles with (w1 := w1); [exact Q | exact C |]].
  - rewrite app_nil_r. reflexivity.
  - intros s1 E1. rewrite <- E1. apply settles_here, dispatch_prose, P.
Qed.

Lemma pass_handoff (history : list Message) (s : St) (text : string) (w1 : World)
  (handler : any -> list Message -> ToolContext -> Callback World Error RunResult)
  (to : json) (reason : any) (result : RunResult) (w2 : World) :
  quiet observer ->
  chat client (args_of (withToolCallHints history (tools cfg))) (world s)
  = (Ok text, w1) ->
  handoff cfg = Some handler ->
  hands_off JSON_parse text to reason ->
  handler (Some to) history (ctx_of input) w1 = (Ok result, w2) ->
  settles (turn' history) s (Ok (Return result)) w2
    (traced observer (llm_request (run_model cfg) (withToolCallHints history (tools cfg)))
     ++ [CallChat (args_of (withToolCallHints history (tools cfg)))]
     ++ traced observer (llm_response text)
     ++ traced observer (handoff_event (agent_name cfg) (Some to) reason)
     ++ [CallHandoff (Some to) history (ctx_of input)]
     ++ traced observer (agent_stop (agent_name cfg)))%list.
Proof.
  intros Q C Hh D K.
  apply turn_settles with (w1 := w1); [exact Q | exact C |].
  intros s1 E1. rewrite <- E1 in K.
  exact (dispatch_handoff history s1 Q Hh D K).
Qed.

Lemma pass_tool (history : list Message) (s : St) (text : string) (w1 : World)
  (nm : string) (args : json) (ts : list Tool) (found : Tool)
  (r : Outcome Error json) (w2 : World) :
  quiet observer ->
  chat client (args_of (withToolCallHints history (tools cfg))) (world s)
  = (Ok text, w1) ->
  calls_tool JSON_parse text nm args ->
  tools cfg = Some ts ->
  find (named nm) ts = Some found ->
  tool_execute found (Some args) (ctx_of input) w1 = (r, w2) ->
  match r with
  | Ok result =>
      settles (turn' history) s
        (Ok (if negb (String.eqb (tool_text JSON_stringify result) text)
             then Continue (history ++ [message assistant text;
                                        message tool (tool_text JSON_stringify result)])%list
                    text
             else Break history text)) w2
        (traced observer (llm_request (run_model cfg) (withToolCallHints history (tools cfg)))
         ++ [CallChat (args_of (withToolCallHints history (tools cfg)))]
         ++ traced observer (llm_response text)
         ++ traced observer (tool_start (tool_name found) (Some args))
         ++ [CallTool (tool_name found) (Some args) (ctx_of input)]
         ++ traced observer (tool_stop (tool_name found) result))%list
  | Throw e =>
      settles (turn' history) s (Throw e) w2
        (traced observer (llm_request (run_model cfg) (withToolCallHints history (tools cfg)))
         ++ [CallChat (args_of (withToolCallHints history (tools cfg)))]
         ++ traced observer (llm_response text)
         ++ traced observer (tool_start (tool_name found) (Some args))
         ++ [CallTool (tool_name found) (Some args) (ctx_of input)])%list
  end.
Proof.
  intros Q C D Ht F K.
  destruct r as [result|e];
    (apply turn_settles with (w1 := w1); [exact Q | exact C |];
     intros s1 E1; rewrite <- E1 in K;
     exact (dispatch_tool history s1 Q D Ht F K)).
Qed.

(** With no output guard, whatever the schema, the content returned is the
    last content. *)
Lemma finalize_content (text : string) (s s' : St) (res : RunResult) :
  outputGuard cfg = None ->
  finalize' text s = (Ok res, s') ->
  result_content res = text.
Proof.
  intros G. unfold finalize, bind. rewrite G. simpl.
  destruct (expect input) as [schema|].
  - destruct (invoke_ _ _ s) as [[v|e] s1]; [|discriminate]. simpl.
    destruct (emit_ _ _ s1) as [[[]|e] s2]; [|discriminate].
    intros [= <- _]. reflexivity.
  - simpl. destruct (emit_ _ _ s) as [[[]|e] s2]; [|discriminate].
    intros [= <- _]. reflexivity.
Qed.

(** *** Counting calls *)

Lemma prepare_adds (p : Call ToolContext AbortSignal OnDelta -> bool) :
  counted p -> adds_at_most p 0 (prepare_ cfg input).
Proof.
  intros P. unfold prepare.
  apply adds_bind with (k1 := 0) (k2 := 0).
  - destruct (inputGuard cfg); [|apply adds_ret].
    eapply adds_more; [|apply adds_invoke].
    destruct P; subst p; apply le_n.
  - intros guarded. apply adds_bind with (k1 := 0) (k2 := 0).
    + apply adds_emit. destruct P; subst p; reflexivity.
    + intros _. apply adds_ret.
Qed.

Lemma finalize_adds (p : Call ToolContext AbortSignal OnDelta -> bool)
  (last : string) :
  counted p -> adds_at_most p 0 (finalize' last).
Proof.
  intros P. unfold finalize.
  apply adds_bind with (k1 := 0) (k2 := 0).
  - destruct (outputGuard cfg); [|apply adds_ret].
    eapply adds_more; [|apply adds_invoke].
    destruct P; subst p; apply le_n.
  - intros content. apply adds_bind with (k1 := 0) (k2 := 0).
    + destruct (expect input); [|apply adds_ret].
      apply adds_bind with (k1 := 0) (k2 := 0).
      * eapply adds_more; [|apply adds_invoke].
        destruct P; subst p; apply le_n.
      * intros v. apply adds_ret.
    + intros structured. apply adds_bind with (k1 := 0) (k2 := 0).
      * apply adds_emit. destruct P; subst p; reflexivity.
      * intros _. apply adds_ret.
Qed.

Lemma maybeExecuteTool_no_chat (content : string) (ts : option (list Tool))
  (ctx : ToolContext) :
  adds_at_most is_chat 0 (execTool content ts ctx observer).
Proof.
  unfold maybeExecuteTool.
  destruct ts as [[|t ts]|]; try apply adds_ret.
  destruct (parseTool content) as [toolCall|]; [|apply adds_ret].
  destruct (find _ (t :: ts)) as [found|]; [|apply adds_ret].
  apply adds_bind with (k1 := 0) (k2 := 0); [apply adds_emit; reflexivity|].
  intros _. apply adds_bind with (k1 := 0) (k2 := 0); [apply adds_invoke|].
  intros result.
  apply adds_bind with (k1 := 0) (k2 := 0); [apply adds_emit; reflexivity|].
  intros _. apply adds_ret.
Qed.

Lemma turn_one_chat (history : list Message) :
  adds_at_most is_chat 1 (turn' history).
Proof.
  unfold turn.
  apply adds_bind with (k1 := 0) (k2 := 1); [apply adds_emit; reflexivity|].
  intros _. apply adds_bind with (k1 := 1) (k2 := 0); [apply adds_invoke|].
  intros last.
  apply adds_bind with (k1 := 0) (k2 := 0); [apply adds_emit; reflexivity|].
  intros _. unfold dispatch.
  destruct (truthy _ && typeof_object _ && js_in "handoff" _).
  - apply adds_bind with (k1 := 0) (k2 := 0); [apply adds_emit; reflexivity|].
    intros _. destruct (handoff cfg); [|apply adds_ret].
    apply adds_bind with (k1 := 0) (k2 := 0); [apply adds_invoke|].
    intros result.
    apply adds_bind with (k1 := 0) (k2 := 0); [apply adds_emit; reflexivity|].
    intros _. apply adds_ret.
  - apply adds_bind with (k1 := 0) (k2 := 0); [apply maybeExecuteTool_no_chat|].
    intros toolResult. destruct (negb _); apply adds_ret.
Qed.

Lemma loop_chats (n : nat) (history : list Message) (last : string) :
  adds_at_most is_chat n (loop' n history last).
Proof.
  revert history last. induction n as [|n IH]; intros history last; simpl.
  - apply adds_ret.
  - apply adds_bind with (k1 := 1) (k2 := n); [apply turn_one_chat|].
    intros [history' last'|history' last'|result].
    + apply IH.
    + eapply adds_more; [|apply adds_ret]. lia.
    + eapply adds_more; [|apply adds_ret]. lia.
Qed.

Lemma run_chats : adds_at_most is_chat (turn_limit input) run'.
Proof.
  unfold run.
  apply adds_bind with (k1 := 0) (k2 := turn_limit input);
    [apply prepare_adds; left; reflexivity|].
  intros history. unfold run_from.
  eapply adds_more; [|apply adds_bind with (k1 := turn_limit input) (k2 := 0)].
  - lia.
  - apply loop_chats.
  - intros [history' last'|history' last'|result]; simpl;
      try (apply finalize_adds; left; reflexivity).
    apply adds_ret.
Qed.

Lemma count_traced (p : Call ToolContext AbortSignal OnDelta -> bool)
  (event : TraceEvent) :
  counted p -> count p (traced observer event) = 0.
Proof.
  intros [->| ->]; unfold traced; destruct observer; reflexivity.
Qed.

(** *** What the provider is given *)

Lemma count_none (p : Call ToolContext AbortSignal OnDelta -> bool) (cs : Calls) :
  count p cs <= 0 -> Forall (fun c => p c = false) cs.
Proof.
  unfold count. induction cs as [|c cs IH]; simpl; intros H; [constructor|].
  destruct (p c) eqn:E; simpl in H; [lia|]. constructor; [exact E | apply IH, H].
Qed.

Lemma every_intro (P : Call ToolContext AbortSignal OnDelta -> Prop) (A : Type)
  (post : A -> Prop) (m : Run A) :
  adds_at_most is_chat 0 m ->
  (forall c, is_chat c = false -> P c) ->
  (forall s a s', m s = (Ok a, s') -> post a) ->
  every P post m.
Proof.
  intros H N K s. destruct (H s) as [new [E C]]. exists new.
  split; [exact E|]. split.
  - eapply Forall_impl; [exact N | apply count_none, C].
  - intros a F. destruct (m s) as [r s'] eqn:G. simpl in F. subst r.
    exact (K s a s' G).
Qed.

Lemma every_bind (P : Call ToolContext AbortSignal OnDelta -> Prop) (A B : Type)
  (mid : A -> Prop) (post : B -> Prop) (m : Run A) (f : A -> Run B) :
  every P mid m ->
  (forall a, mid a -> every P post (f a)) ->
  every P post (bind m f).
Proof.
  intros Hm Hf s. unfold bind.
  destruct (Hm s) as [new1 [E1 [F1 K1]]].
  destruct (m s) as [[a|e] s1]; simpl in *.
  - destruct (Hf a (K1 a eq_refl) s1) as [new2 [E2 [F2 K2]]].
    exists (new1 ++ new2)%list. rewrite E2, E1, app_assoc.
    split; [reflexivity|]. split; [apply Forall_app; split; assumption | exact K2].
  - exists new1. split; [exact E1|]. split; [exact F1 | discriminate].
Qed.

Lemma every_invoke (P : Call ToolContext AbortSignal OnDelta -> Prop) (A : Type)
  (c : Call ToolContext AbortSignal OnDelta) (f : Callback World Error A) :
  P c -> every P (fun _ => True) (invoke_ c f).
Proof.
  intros H s. exists [c]. unfold invoke. destruct (f (world s)) as [r w]. simpl.
  split; [reflexivity|]. split; [repeat constructor; exact H | trivial].
Qed.

Lemma dispatch_no_chat (history : list Message) (last : string) :
  adds_at_most is_chat 0 (dispatch_ cfg input history last).
Proof.
  unfold dispatch.
  destruct (truthy _ && typeof_object _ && js_in "handoff" _).
  - apply adds_bind with (k1 := 0) (k2 := 0); [apply adds_emit; reflexivity|].
    intros _. destruct (handoff cfg); [|apply adds_ret].
    apply adds_bind with (k1 := 0) (k2 := 0); [apply adds_invoke|].
    intros result.
    apply adds_bind with (k1 := 0) (k2 := 0); [apply adds_emit; reflexivity|].
    intros _. apply adds_ret.
  - apply adds_bind with (k1 := 0) (k2 := 0); [apply maybeExecuteTool_no_chat|].
    intros toolResult. destruct (negb _); apply adds_ret.
Qed.

(** The history only grows. *)
Lemma dispatch_extends (history : list Message) (last : string) (s s' : St)
  (history' : list Message) (last' : string) :
  dispatch_ cfg input history last s = (Ok (Continue history' last'), s') ->
  exists extra, history' = (history ++ extra)%list.
Proof.
  unfold dispatch.
  destruct (truthy _ && typeof_object _ && js_in "handoff" _); unfold bind.
  - destruct (emit_ _ _ s) as [[[]|e] s1]; [|discriminate].
    destruct (handoff cfg) as [handler|]; [|discriminate].
    destruct (invoke_ _ _ s1) as [[result|e] s2]; [|discriminate].
    destruct (emit_ _ _ s2) as [[[]|e] s3]; discriminate.
  - destruct (execTool _ _ _ _ s) as [[toolResult|e] s1]; [|discriminate].
    destruct (negb _); [|discriminate].
    intros H. injection H as <- _ _. eexists. reflexivity.
Qed.

Section Hinted.

Variable pre : list Message.
Variable t : Tool.
Variable ts : list Tool.
Hypothesis some_tools : tools cfg = Some (t :: ts).

Local Abbreviation seeded := (seeded pre (t :: ts)).

Lemma seeded_grows (history extra : list Message) :
  seeded history -> seeded (history ++ extra)%list.
Proof.
  intros [rest E]. exists (rest ++ extra)%list.
  rewrite app_assoc, <- E. reflexivity.
Qed.

Lemma turn_hinted (history : list Message) :
  seeded history ->
  every (begins_with pre)
    (fun t => match t with Continue history' _ => seeded history' | _ => True end)
    (turn' history).
Proof.
  intros I. unfold turn.
  eapply every_bind.
  { apply every_intro with (post := fun _ => True);
      [apply adds_emit; reflexivity | | trivial].
    intros [] E; try exact Logic.I; discriminate. }
  intros _ _. eapply every_bind.
  { apply every_invoke. simpl. rewrite some_tools. exact I. }
  intros last _. eapply every_bind.
  { apply every_intro with (post := fun _ => True);
      [apply adds_emit; reflexivity | | trivial].
    intros [] E; try exact Logic.I; discriminate. }
  intros _ _. apply every_intro.
  - apply dispatch_no_chat.
  - intros [] E; try exact Logic.I; discriminate.
  - intros s [history' last'|history' last'|result] s' H; try exact Logic.I.
    destruct (dispatch_extends _ _ _ H) as [extra ->]. apply seeded_grows, I.
Qed.

Lemma run_from_hinted (n : nat) (history : list Message) (last : string) :
  seeded history ->
  every (begins_with pre) (fun _ => True) (run_from' n history last).
Proof.
  intros I. unfold run_from. eapply every_bind with (mid := fun _ => True).
  - revert history last I. induction n as [|n IH]; intros history last I; simpl.
    + apply every_intro; [apply adds_ret | | trivial].
      intros [] E; try exact Logic.I; discriminate.
    + eapply every_bind; [apply turn_hinted, I|].
      intros [history' last'|history' last'|result] K.
      * apply IH, K.
      * apply every_intro; [apply adds_ret | | trivial].
        intros [] E; try exact Logic.I; discriminate.
      * apply every_intro; [apply adds_ret | | trivial].
        intros [] E; try exact Logic.I; discriminate.
  - intros [history' last'|history' last'|result] _; simpl;
      (apply every_intro;
       [first [apply adds_ret | apply finalize_adds; left; reflexivity] | | trivial]);
      intros [] E; try exact Logic.I; discriminate.
Qed.

End Hinted.

Lemma prepare_history (s s1 : St) (history : list Message) :
  prepare_ cfg input s = (Ok history, s1) ->
  history
  = (match instructions cfg with
     | Some text => if String.eqb text EmptyString then [] else [message system text]
     | None => []
     end ++ guarded_input cfg input (world s))%list.
Proof.
  unfold prepare, guarded_input, bind.
  destruct (inputGuard cfg) as [guard|].
  - unfold invoke. destruct (guard (messages input) (world s)) as [[guarded|e] w];
      [|discriminate].
    simpl. destruct (emit_ _ _ _) as [[[]|e] s2]; [|discriminate].
    intros H. injection H as <- _. reflexivity.
  - simpl. destruct (emit_ _ _ _) as [[[]|e] s2]; [|discriminate].
    intros H. injection H as <- _. reflexivity.
Qed.

(** *** With and without an observer *)


Lemma maybeExecuteTool_alike (content : string) (ts : option (list Tool))
  (ctx : ToolContext) :
  quiet observer ->
  alike (execTool content ts ctx observer) (execTool content ts ctx None).
Proof.
  intros Q. unfold maybeExecuteTool.
  destruct ts as [[|t ts]|]; try apply alike_ret.
  destruct (parseTool content) as [toolCall|]; [|apply alike_ret].
  destruct (find _ (t :: ts)) as [found|]; [|apply alike_ret].
  apply alike_bind; [alike_emits Q|].
  intros _. apply alike_bind; [apply alike_invoke|].
  intros result.
  apply alike_bind; [alike_emits Q|].
  intros _. apply alike_ret.
Qed.

Lemma turn_alike (history : list Message) :
  quiet observer ->
  alike (turn' history) (turn_ client (without_trace cfg) input history).
Proof.
  intros Q. unfold turn. simpl.
  apply alike_bind; [alike_emits Q|].
  intros _. apply alike_bind; [apply alike_invoke|].
  intros last.
  apply alike_bind; [alike_emits Q|].
  intros _. unfold dispatch. simpl.
  destruct (truthy _ && typeof_object _ && js_in "handoff" _).
  - apply alike_bind; [alike_emits Q|].
    intros _. destruct (handoff cfg); [|apply alike_ret].
    apply alike_bind; [apply alike_invoke|].
    intros result.
    apply alike_bind; [alike_emits Q|].
    intros _. apply alike_ret.
  - apply alike_bind; [apply maybeExecuteTool_alike, Q|].
    intros toolResult. destruct (negb _); apply alike_ret.
Qed.

Lemma loop_alike (n : nat) (history : list Message) (last : string) :
  quiet observer ->
  alike (loop' n history last) (loop_ client (without_trace cfg) input n history last).
Proof.
  intros Q. revert history last.
  induction n as [|n IH]; intros history last; simpl.
  - apply alike_ret.
  - apply alike_bind; [apply turn_alike, Q|].
    intros [history' last'|history' last'|result]; [apply IH | |]; apply alike_ret.
Qed.

Lemma finalize_alike (last : string) :
  quiet observer ->
  alike (finalize' last) (finalize_ (without_trace cfg) input last).
Proof.
  intros Q. unfold finalize. simpl.
  apply alike_bind.
  - destruct (outputGuard cfg); [apply alike_invoke | apply alike_ret].
  - intros content. apply alike_bind.
    + destruct (expect input); [|apply alike_ret].
      apply alike_bind; [apply alike_invoke|]. intros v. apply alike_ret.
    + intros structured.
      apply alike_bind; [alike_emits Q|].
      intros _. apply alike_ret.
Qed.

Lemma run_alike :
  quiet observer ->
  alike run' (run_ client (without_trace cfg) input).
Proof.
  intros Q. unfold run. apply alike_bind.
  - unfold prepare. simpl. apply alike_bind.
    + destruct (inputGuard cfg); [apply alike_invoke | apply alike_ret].
    + intros guarded.
      apply alike_bind; [alike_emits Q|].
      intros _. apply alike_ret.
  - intros history. unfold run_from. apply alike_bind; [apply loop_alike, Q|].
    intros [history' last'|history' last'|result]; simpl;
      try (apply finalize_alike, Q).
    apply alike_ret.
Qed.

End Loop.



(** ** What a pass of the loop does with the provider's answer *)

(** C4. With a handoff handler configured, at any pass of the loop a run
    gets to: when the provider's answer parses to an object with the key
    [handoff], the handler is called with the value of that key, the history
    and the context, and what it resolves to is what the run resolves to.
    After the provider's call of that pass the record holds the handler's
    call and the observer's events only: no further provider call, no tool
    (whether or not the object also has [tool] and [args]), no output guard
    and no schema. *)
Theorem handoff_short_circuits (client : Client) (cfg : Config) (input : Input)
  (s0 : St) (n : nat) (history : list Message) (last : string) (s : St)
  (handler : any -> list Message -> ToolContext -> Callback World Error RunResult)
  (text : string) (to : json) (reason : any) (w1 : World)
  (result : RunResult) (w2 : World) :
  reaches_ client cfg input s0 (S n) history last s ->
  quiet (onTrace cfg) ->
  handoff cfg = Some handler ->
  chat client (chat_args cfg input (withToolCallHints history (tools cfg))) (world s)
  = (Ok text, w1) ->
  hands_off JSON_parse text to reason ->
  handler (Some to) history (ctx_of input) w1 = (Ok result, w2) ->
  exists s',
    run_ client cfg input s0 = (Ok result, s') /\
    world s' = w2 /\
    calls s'
    = (calls s
       ++ traced (onTrace cfg)
            (llm_request (run_model cfg) (withToolCallHints history (tools cfg)))
       ++ [CallChat (chat_args cfg input (withToolCallHints history (tools cfg)))]
       ++ traced (onTrace cfg) (llm_response text)
       ++ traced (onTrace cfg) (handoff_event (agent_name cfg) (Some to) reason)
       ++ [CallHandoff (Some to) history (ctx_of input)]
       ++ traced (onTrace cfg) (agent_stop (agent_name cfg)))%list.
Proof.
  intros R Q Hh C D K.
  rewrite (reaches_run R).
  destruct (settles_state (@pass_handoff client cfg input history s text w1 handler to reason
                             result w2 Q C Hh D K))
    as [s' [T [W L]]].
  exists s'. split; [|split; assumption].
  apply run_from_return, T.
Qed.

(** C7. At any pass of the loop a run gets to: when the provider's answer is
    a directive to call a tool of the list and that tool's [execute] throws
    (or rejects) with [e], the run throws [e], the same value: neither the
    dispatcher nor the loop catches it, and the call of the tool is the last
    thing the run does. *)
Theorem tool_error_aborts_run (client : Client) (cfg : Config) (input : Input)
  (s0 : St) (n : nat) (history : list Message) (last : string) (s : St)
  (text : string) (w1 : World) (nm : string) (args : json) (ts : list Tool)
  (found : Tool) (e : Error) (w2 : World) :
  reaches_ client cfg input s0 (S n) history last s ->
  quiet (onTrace cfg) ->
  chat client (chat_args cfg input (withToolCallHints history (tools cfg))) (world s)
  = (Ok text, w1) ->
  calls_tool JSON_parse text nm args ->
  tools cfg = Some ts ->
  find (named nm) ts = Some found ->
  tool_execute found (Some args) (ctx_of input) w1 = (Throw e, w2) ->
  exists s',
    run_ client cfg input s0 = (Throw e, s') /\
    world s' = w2 /\
    calls s'
    = (calls s
       ++ traced (onTrace cfg)
            (llm_request (run_model cfg) (withToolCallHints history (tools cfg)))
       ++ [CallChat (chat_args cfg input (withToolCallHints history (tools cfg)))]
       ++ traced (onTrace cfg) (llm_response text)
       ++ traced (onTrace cfg) (tool_start (tool_name found) (Some args))
       ++ [CallTool (tool_name found) (Some args) (ctx_of input)])%list.
Proof.
  intros R Q C D Ht F K.
  rewrite (reaches_run R).
  destruct (settles_state (@pass_tool client cfg input history s text w1 nm args ts found
                             (Throw e) w2 Q C D Ht F K))
    as [s' [T [W L]]].
  exists s'. split; [|split; assumption].
  apply run_from_throw, T.
Qed.



(** C2 (amended). For an agent with instructions (not the empty string) and
    a tool list that is not empty, every call of the provider made during a
    run is given the tool hint first, the instructions second, then the
    guarded input and what the loop appended since. *)
Theorem hint_precedes_instructions (client : Client) (cfg : Config)
  (input : Input) (text : string) (t : Tool) (ts : list Tool) (s : St) :
  instructions cfg = Some text ->
  text <> EmptyString ->
  tools cfg = Some (t :: ts) ->
  exists new,
    calls (snd (run_ client cfg input s)) = (calls s ++ new)%list /\
    forall args, In (CallChat args) new ->
      exists appended,
        chat_messages args
        = (tool_hint (t :: ts) :: message system text
             :: guarded_input cfg input (world s) ++ appended)%list.
Proof.
  intros Hi Ne Ht.
  destruct (@prepare_adds cfg input is_chat (or_introl eq_refl) s) as [new0 [E0 C0]].
  apply count_none in C0.
  unfold run, bind. destruct (prepare_ cfg input s) as [[history|e] s1] eqn:P;
    simpl in E0.
  - apply prepare_history in P. rewrite Hi in P.
    apply String.eqb_neq in Ne. rewrite Ne in P. simpl in P.
    destruct (@run_from_hinted client cfg input
                (tool_hint (t :: ts) :: message system text
                   :: guarded_input cfg input (world s))
                t ts Ht (turn_limit input) history EmptyString) with (s := s1)
      as [new1 [E1 [F1 _]]].
    { exists []. rewrite P, app_nil_r. reflexivity. }
    exists (new0 ++ new1)%list. rewrite E1, E0, app_assoc.
    split; [reflexivity|].
    intros args Hin. apply in_app_or in Hin. destruct Hin as [Hin|Hin].
    + rewrite Forall_forall in C0. specialize (C0 _ Hin). discriminate.
    + rewrite Forall_forall in F1. destruct (F1 _ Hin) as [rest R].
      exists rest. exact R.
  - exists new0. split; [exact E0|].
    intros args Hin. rewrite Forall_forall in C0. specialize (C0 _ Hin). discriminate.
Qed.


(** ** Where a run ends *)

Section Ends.

Variable client : Client.
Variable cfg : Config.
Variable input : Input.

Local Abbreviation leaves_loop_ :=
  (@leaves_loop World Obs Error ToolContext AbortSignal OnDelta empty_context
     JSON_parse JSON_stringify client cfg input).

Lemma leaves_loop_run (s0 : St) (text : string) (s : St) :
  leaves_loop_ s0 text s ->
  run_ client cfg input s0 = finalize_ cfg input text s.
Proof.
  intros [seed [s1 [history [P L]]]].
  unfold run, bind. rewrite P. unfold run_from, bind. rewrite L. reflexivity.
Qed.

Lemma settles_run (s0 : St) (text : string) (s : St) (r : Outcome Error RunResult)
  (w : World) (new : Calls) :
  leaves_loop_ s0 text s ->
  settles (finalize_ cfg input text) s r w new ->
  exists s', run_ client cfg input s0 = (r, s') /\ world s' = w /\
             calls s' = (calls s ++ new)%list.
Proof.
  intros L H. rewrite (leaves_loop_run L). exact (settles_state H).
Qed.

End Ends.

(** When the input guard throws, the run throws the same value and has done
    nothing else: no event was shown to the observer, not [agent:start]
    either, and the provider was not called. *)
Theorem input_guard_error_aborts_run (client : Client) (cfg : Config)
  (input : Input) (s : St)
  (guard : list Message -> Callback World Error (list Message))
  (e : Error) (w : World) :
  inputGuard cfg = Some guard ->
  guard (messages input) (world s) = (Throw e, w) ->
  run_ client cfg input s
  = (Throw e,
     {| world := w; obs := obs s;
        calls := (calls s ++ [CallInputGuard (messages input)])%list |}).
Proof.
  intros G H. unfold run, prepare, bind, invoke. rewrite G, H. reflexivity.
Qed.

(** At any pass of the loop a run gets to: when the provider's [chat] throws
    (or rejects) with [e], the run throws [e]; the call of the provider is the
    last thing it does: no [llm:response], no output guard, no schema, no
    [agent:stop]. *)
Theorem provider_error_aborts_run (client : Client) (cfg : Config) (input : Input)
  (s0 : St) (n : nat) (history : list Message) (last : string) (s : St)
  (e : Error) (w1 : World) :
  reaches_ client cfg input s0 (S n) history last s ->
  quiet (onTrace cfg) ->
  chat client (chat_args cfg input (withToolCallHints history (tools cfg))) (world s)
  = (Throw e, w1) ->
  exists s',
    run_ client cfg input s0 = (Throw e, s') /\
    world s' = w1 /\
    calls s'
    = (calls s
       ++ traced (onTrace cfg)
            (llm_request (run_model cfg) (withToolCallHints history (tools cfg)))
       ++ [CallChat (chat_args cfg input (withToolCallHints history (tools cfg)))])%list.
Proof.
  intros R Q C. rewrite (reaches_run R).
  assert (T : settles (turn_ client cfg input history) s (Throw e) w1
                (traced (onTrace cfg)
                   (llm_request (run_model cfg) (withToolCallHints history (tools cfg)))
                 ++ [CallChat (chat_args cfg input
                                 (withToolCallHints history (tools cfg)))])%list).
  { unfold turn. eapply settles_bind; [apply settles_emit, Q|]. intros s1 E1.
    apply settles_throw. apply settles_invoke. rewrite E1. exact C. }
  destruct (settles_state T) as [s' [E [W L]]].
  exists s'. split; [|split; assumption].
  apply run_from_throw, E.
Qed.

(** After the loop, with an output guard and a schema: the guard is given
    the last answer of the provider; the schema is given what
    [tryParseObject] makes of the guard's text, not of the provider's; then
    [agent:stop] is emitted and the run resolves to the guard's text and the
    schema's value. When the guard throws the schema is not asked, and when
    either throws the run throws the same value and emits no [agent:stop]. *)
Theorem output_guard_feeds_schema (client : Client) (cfg : Config) (input : Input)
  (s0 : St) (text : string) (s : St)
  (guard : string -> Callback World Error string)
  (schema : StructuredSchema World Error) :
  leaves_loop empty_context JSON_parse JSON_stringify client cfg input s0 text s ->
  quiet (onTrace cfg) ->
  outputGuard cfg = Some guard ->
  expect input = Some schema ->
  match guard text (world s) with
  | (Throw e, w2) =>
      exists s',
        run_ client cfg input s0 = (Throw e, s') /\
        world s' = w2 /\
        calls s' = (calls s ++ [CallOutputGuard text])%list
  | (Ok out, w2) =>
      match parse schema (tryParse out) w2 with
      | (Ok v, w3) =>
          exists s',
            run_ client cfg input s0
            = (Ok {| result_content := out; result_structured := Some v |}, s') /\
            world s' = w3 /\
            calls s'
            = (calls s ++ [CallOutputGuard text] ++ [CallParse (tryParse out)]
               ++ traced (onTrace cfg) (agent_stop (agent_name cfg)))%list
      | (Throw e, w3) =>
          exists s',
            run_ client cfg input s0 = (Throw e, s') /\
            world s' = w3 /\
            calls s'
            = (calls s ++ [CallOutputGuard text] ++ [CallParse (tryParse out)])%list
      end
  end.
Proof.
  intros L Q G X.
  destruct (guard text (world s)) as [[out|e] w2] eqn:Eg.
  - destruct (parse schema (tryParse out) w2) as [[v|e] w3] eqn:Ep.
    + apply (settles_run L). unfold finalize. rewrite G, X.
      eapply settles_bind; [apply settles_invoke; exact Eg|]. intros s1 E1.
      eapply settles_bind with (a := Some v) (w := w3).
      { eapply settles_as; [apply app_nil_r|].
        eapply settles_bind; [apply settles_invoke; rewrite E1; exact Ep|].
        intros s2 E2. rewrite <- E2. apply settles_ret. }
      intros s2 E2.
      eapply settles_as; [apply app_nil_r|].
      eapply settles_bind; [apply settles_emit, Q|].
      intros s3 E3. rewrite <- E2, <- E3. apply settles_ret.
    + apply (settles_run L). unfold finalize. rewrite G, X.
      eapply settles_bind; [apply settles_invoke; exact Eg|]. intros s1 E1.
      apply settles_throw. apply settles_throw.
      apply settles_invoke. rewrite E1. exact Ep.
  - apply (settles_run L). unfold finalize. rewrite G.
    apply settles_throw. apply settles_invoke. exact Eg.
Qed.

(** With no handoff handler, at any pass of the loop a run gets to: when the
    provider's answer parses to an object with the key [handoff], the
    [handoff] event is emitted and the loop is left at once: no tool is run,
    whether or not the object also has [tool] and [args], the provider is not
    called again, and the run goes on with what follows the loop on the text of
    the directive, which is the content it returns when there is no output
    guard. *)
Theorem handoff_without_handler_ends_loop (client : Client) (cfg : Config)
  (input : Input) (s0 : St) (n : nat) (history : list Message) (last : string)
  (s : St) (text : string) (to : json) (reason : any) (w1 : World) :
  reaches_ client cfg input s0 (S n) history last s ->
  quiet (onTrace cfg) ->
  handoff cfg = None ->
  chat client (chat_args cfg input (withToolCallHints history (tools cfg))) (world s)
  = (Ok text, w1) ->
  hands_off JSON_parse text to reason ->
  exists s',
    turn_ client cfg input history s = (Ok (Break history text), s') /\
    world s' = w1 /\
    calls s'
    = (calls s
       ++ traced (onTrace cfg)
            (llm_request (run_model cfg) (withToolCallHints history (tools cfg)))
       ++ [CallChat (chat_args cfg input (withToolCallHints history (tools cfg)))]
       ++ traced (onTrace cfg) (llm_response text)
       ++ traced (onTrace cfg) (handoff_event (agent_name cfg) (Some to) reason))%list /\
    run_ client cfg input s0 = finalize_ cfg input text s' /\
    (outputGuard cfg = None ->
     forall res s'', run_ client cfg input s0 = (Ok res, s'') ->
                     result_content res = text).
Proof.
  intros R Q Hh C [members [P [K Rs]]].
  assert (T : settles (turn_ client cfg input history) s (Ok (Break history text)) w1
                (traced (onTrace cfg)
                   (llm_request (run_model cfg) (withToolCallHints history (tools cfg)))
                 ++ [CallChat (chat_args cfg input
                                 (withToolCallHints history (tools cfg)))]
                 ++ traced (onTrace cfg) (llm_response text)
                 ++ traced (onTrace cfg)
                      (handoff_event (agent_name cfg) (Some to) reason))%list).
  { apply turn_settles with (w1 := w1); [exact Q | exact C |].
    intros s1 E1. unfold dispatch. rewrite P.
    replace (truthy (Some (JObj members)) && typeof_object (Some (JObj members))
             && js_in "handoff" (Some (JObj members))) with true
      by (simpl; rewrite K; reflexivity).
    rewrite Hh. simpl js_get. rewrite K, Rs.
    eapply settles_as; [apply app_nil_r|].
    eapply settles_bind; [apply settles_emit, Q|].
    intros s2 E2. rewrite <- E1, <- E2. apply settles_ret. }
  destruct (settles_state T) as [s' [E [W L]]].
  exists s'. split; [exact E|]. split; [exact W|]. split; [exact L|].
  rewrite (reaches_run R).
  rewrite (@run_from_break client cfg input n history last s s' history text E).
  split; [reflexivity|].
  intros G res s'' F. exact (@finalize_content cfg input text s' s'' res G F).
Qed.

(** On the last pass the loop allows, a directive to call a tool of the list
    still runs the tool, but what the tool returns is shown to nobody: the
    provider is not called again and the run goes on with what follows the
    loop on the text of the directive. *)
Theorem last_pass_drops_tool_result (client : Client) (cfg : Config) (input : Input)
  (s0 : St) (history : list Message) (last : string) (s : St)
  (text : string) (w1 : World) (nm : string) (args : json) (ts : list Tool)
  (found : Tool) (result : json) (w2 : World) :
  reaches_ client cfg input s0 1 history last s ->
  quiet (onTrace cfg) ->
  chat client (chat_args cfg input (withToolCallHints history (tools cfg))) (world s)
  = (Ok text, w1) ->
  calls_tool JSON_parse text nm args ->
  tools cfg = Some ts ->
  find (named nm) ts = Some found ->
  tool_execute found (Some args) (ctx_of input) w1 = (Ok result, w2) ->
  exists s',
    world s' = w2 /\
    calls s'
    = (calls s
       ++ traced (onTrace cfg)
            (llm_request (run_model cfg) (withToolCallHints history (tools cfg)))
       ++ [CallChat (chat_args cfg input (withToolCallHints history (tools cfg)))]
       ++ traced (onTrace cfg) (llm_response text)
       ++ traced (onTrace cfg) (tool_start (tool_name found) (Some args))
       ++ [CallTool (tool_name found) (Some args) (ctx_of input)]
       ++ traced (onTrace cfg) (tool_stop (tool_name found) result))%list /\
    run_ client cfg input s0 = finalize_ cfg input text s' /\
    (exists new,
       calls (snd (run_ client cfg input s0)) = (calls s' ++ new)%list /\
       count is_chat new = 0 /\ count is_tool new = 0) /\
    (outputGuard cfg = None ->
     forall res s'', run_ client cfg input s0 = (Ok res, s'') ->
                     result_content res = text).
Proof.
  intros R Q C D Ht F K.
  rewrite (reaches_run R).
  pose proof (@pass_tool client cfg input history s text w1 nm args ts found
                (Ok result) w2 Q C D Ht F K) as T.
  destruct (settles_state T) as [s' [E [W L]]].
  assert (G : run_from_ client cfg input 1 history last s
              = finalize_ cfg input text s').
  { destruct (negb (String.eqb (tool_text JSON_stringify result) text)).
    - exact (@run_from_last client cfg input history last s s' _ _ E).
    - exact (@run_from_break client cfg input 0 history last s s' _ _ E). }
  exists s'. split; [exact W|]. split; [exact L|]. rewrite G.
  split; [reflexivity|]. split.
  - destruct (@finalize_adds cfg input is_chat text (or_introl eq_refl) s')
      as [new1 [E1 C1]].
    destruct (@finalize_adds cfg input is_tool text (or_intror eq_refl) s')
      as [new1' [E1' T1]].
    assert (new1' = new1) by (apply (app_inv_head (calls s')); congruence).
    subst new1'.
    exists new1. split; [exact E1|]. lia.
  - intros Go res s'' H. exact (@finalize_content cfg input text s' s'' res Go H).
Qed.

(** ** The history, pass after pass *)

Lemma dispatch_exchange (cfg : Config) (input : Input) (history : list Message)
  (last : string) (s s' : St) (history' : list Message) (last' : string) :
  dispatch_ cfg input history last s = (Ok (Continue history' last'), s') ->
  last' = last /\
  exists toolText,
    history' = (history ++ exchange (last, toolText))%list /\ last <> toolText.
Proof.
  unfold dispatch.
  destruct (truthy _ && typeof_object _ && js_in "handoff" _); unfold bind.
  - destruct (emit_ _ _ s) as [[[]|e] s1]; [|discriminate].
    destruct (handoff cfg) as [handler|]; [|discriminate].
    destruct (invoke_ _ _ s1) as [[result|e] s2]; [|discriminate].
    destruct (emit_ _ _ s2) as [[[]|e] s3]; discriminate.
  - destruct (execTool _ _ _ _ s) as [[toolResult|e] s1]; [|discriminate].
    destruct (negb (String.eqb toolResult last)) eqn:N; [|discriminate].
    intros H. injection H as <- <- _. split; [reflexivity|].
    exists toolResult. split; [reflexivity|].
    apply negb_true_iff, String.eqb_neq in N. congruence.
Qed.

Lemma turn_exchange (client : Client) (cfg : Config) (input : Input)
  (history : list Message) (s s' : St) (history' : list Message) (last' : string) :
  turn_ client cfg input history s = (Ok (Continue history' last'), s') ->
  exists toolText,
    history' = (history ++ exchange (last', toolText))%list /\ last' <> toolText.
Proof.
  unfold turn, bind.
  destruct (emit_ _ _ s) as [[[]|e] s1]; [|discriminate].
  destruct (invoke_ _ _ s1) as [[text|e] s2]; [|discriminate].
  destruct (emit_ _ _ s2) as [[[]|e] s3]; [|discriminate].
  intros H. apply dispatch_exchange in H. destruct H as [-> H]. exact H.
Qed.


(** ** [agent:stop] *)

Section Stops.

Variable client : Client.
Variable cfg : Config.
Variable input : Input.

Local Abbreviation observer := (onTrace cfg).
Local Abbreviation stop := (agent_stop (agent_name cfg)).

Local Abbreviation stops_last :=
  (@stops_last World Obs Error ToolContext AbortSignal OnDelta observer
     (agent_name cfg)).

Lemma stops_bind (A B : Type) (final : B -> bool) (m : Run A) (f : A -> Run B) :
  adds_at_most is_stop 0 m ->
  (forall a, stops_last final (f a)) ->
  stops_last final (bind m f).
Proof.
  intros Hm Hf s. unfold bind.
  destruct (Hm s) as [new1 [E1 C1]].
  destruct (m s) as [[a|e] s1]; simpl in E1.
  - destruct (Hf a s1) as [new2 [E2 K]].
    exists (new1 ++ new2)%list. rewrite E2, E1, app_assoc.
    split; [reflexivity|].
    destruct (fst (f a s1)) as [b|e].
    + destruct (final b).
      * destruct K as [before [-> K]]. exists (new1 ++ before)%list.
        rewrite app_assoc, count_app. split; [reflexivity | lia].
      * rewrite count_app. lia.
    + rewrite count_app. lia.
  - exists new1. simpl. split; [exact E1 | lia].
Qed.

Lemma stops_none (A : Type) (final : A -> bool) (m : Run A) :
  adds_at_most is_stop 0 m ->
  (forall s a, fst (m s) = Ok a -> final a = false) ->
  stops_last final m.
Proof.
  intros Hm Hf s. destruct (Hm s) as [new [E C]]. exists new.
  split; [exact E|].
  destruct (fst (m s)) as [a|e] eqn:F; [|lia].
  rewrite (Hf s a F). lia.
Qed.

Lemma stops_emit (A : Type) (final : A -> bool) (a : A) :
  quiet observer ->
  final a = true ->
  stops_last final (bind (emit_ observer stop) (fun _ => ret_ a)).
Proof.
  intros Q F s. destruct (settles_emit stop s Q) as [o E].
  exists (traced observer stop). unfold bind. rewrite E. simpl.
  split; [reflexivity|]. rewrite F. exists []. split; reflexivity.
Qed.

Lemma stops_then (A B : Type) (final : A -> bool) (final' : B -> bool)
  (m : Run A) (f : A -> Run B) :
  stops_last final m ->
  (forall a, final a = true -> exists b, f a = ret_ b /\ final' b = true) ->
  (forall a, final a = false -> stops_last final' (f a)) ->
  stops_last final' (bind m f).
Proof.
  intros Hm Hy Hn s. unfold bind.
  destruct (Hm s) as [new1 [E1 K1]].
  destruct (m s) as [[a|e] s1]; simpl in E1, K1.
  - destruct (final a) eqn:F.
    + destruct (Hy a F) as [b [-> F']]. exists new1. simpl.
      split; [exact E1|]. rewrite F'. exact K1.
    + destruct (Hn a F s1) as [new2 [E2 K2]].
      exists (new1 ++ new2)%list. rewrite E2, E1, app_assoc.
      split; [reflexivity|].
      destruct (fst (f a s1)) as [b|e].
      * destruct (final' b).
        -- destruct K2 as [before [-> K2]]. exists (new1 ++ before)%list.
           rewrite app_assoc, count_app. split; [reflexivity | lia].
        -- rewrite count_app. lia.
      * rewrite count_app. lia.
  - exists new1. simpl. split; [exact E1 | exact K1].
Qed.

Lemma maybeExecuteTool_no_stop (content : string) (ts : option (list Tool))
  (ctx : ToolContext) :
  adds_at_most is_stop 0 (execTool content ts ctx observer).
Proof.
  unfold maybeExecuteTool.
  destruct ts as [[|t ts]|]; try apply adds_ret.
  destruct (parseTool content) as [toolCall|]; [|apply adds_ret].
  destruct (find _ (t :: ts)) as [found|]; [|apply adds_ret].
  apply adds_bind with (k1 := 0) (k2 := 0); [apply adds_emit; reflexivity|].
  intros _. apply adds_bind with (k1 := 0) (k2 := 0); [apply adds_invoke|].
  intros result.
  apply adds_bind with (k1 := 0) (k2 := 0); [apply adds_emit; reflexivity|].
  intros _. apply adds_ret.
Qed.

Lemma dispatch_stops (history : list Message) (last : string) :
  quiet observer ->
  stops_last returned (dispatch_ cfg input history last).
Proof.
  intros Q. unfold dispatch.
  destruct (truthy _ && typeof_object _ && js_in "handoff" _).
  - apply stops_bind; [apply adds_emit; reflexivity|].
    intros _. destruct (handoff cfg) as [handler|].
    + apply stops_bind; [apply adds_invoke|].
      intros result. apply stops_emit; [exact Q | reflexivity].
    + apply stops_none; [apply adds_ret|].
      intros s a H. injection H as <-. reflexivity.
  - apply stops_none.
    + apply adds_bind with (k1 := 0) (k2 := 0); [apply maybeExecuteTool_no_stop|].
      intros toolResult. destruct (negb _); apply adds_ret.
    + intros s a. unfold bind.
      destruct (execTool _ _ _ _ s) as [[toolResult|e] s1]; [|discriminate].
      destruct (negb _); intros H; injection H as <-; reflexivity.
Qed.

Lemma turn_stops (history : list Message) :
  quiet observer ->
  stops_last returned (turn_ client cfg input history).
Proof.
  intros Q. unfold turn.
  apply stops_bind; [apply adds_emit; reflexivity|].
  intros _. apply stops_bind; [apply adds_invoke|].
  intros text. apply stops_bind; [apply adds_emit; reflexivity|].
  intros _. apply dispatch_stops, Q.
Qed.

Lemma loop_stops (n : nat) (history : list Message) (last : string) :
  quiet observer ->
  stops_last returned (loop_ client cfg input n history last).
Proof.
  intros Q. revert history last. induction n as [|n IH]; intros history last; simpl.
  - apply stops_none; [apply adds_ret|].
    intros s a H. injection H as <-. reflexivity.
  - apply stops_then with (final := returned); [apply turn_stops, Q | |].
    + intros [h l|h l|result] F; try discriminate. eexists. split; reflexivity.
    + intros [h l|h l|result] F; try discriminate.
      * apply IH.
      * apply stops_none; [apply adds_ret|].
        intros s a H. injection H as <-. reflexivity.
Qed.

Lemma finalize_stops (last : string) :
  quiet observer ->
  stops_last (fun _ => true) (finalize_ cfg input last).
Proof.
  intros Q. unfold finalize.
  apply stops_bind.
  { destruct (outputGuard cfg); [apply adds_invoke | apply adds_ret]. }
  intros content. apply stops_bind.
  { destruct (expect input); [|apply adds_ret].
    apply adds_bind with (k1 := 0) (k2 := 0); [apply adds_invoke|].
    intros v. apply adds_ret. }
  intros structured. apply stops_emit; [exact Q | reflexivity].
Qed.

Lemma run_stops :
  quiet observer ->
  stops_last (fun _ => true) (run_ client cfg input).
Proof.
  intros Q. unfold run. apply stops_bind.
  { unfold prepare. apply adds_bind with (k1 := 0) (k2 := 0).
    - destruct (inputGuard cfg); [apply adds_invoke | apply adds_ret].
    - intros guarded. apply adds_bind with (k1 := 0) (k2 := 0);
        [apply adds_emit; reflexivity|].
      intros _. apply adds_ret. }
  intros history. unfold run_from.
  apply stops_then with (final := returned); [apply loop_stops, Q | |].
  - intros [h l|h l|result] F; try discriminate. eexists. split; reflexivity.
  - intros [h l|h l|result] F; try discriminate; apply finalize_stops, Q.
Qed.

End Stops.

(** With an observer that returns normally, a run that resolves has emitted
    [agent:stop] once, as the last thing it did (after the handoff handler,
    or after the output guard and the schema); a run that throws, wherever
    the error comes from, has emitted none. *)
Theorem agent_stop_iff_resolved (client : Client) (cfg : Config) (input : Input)
  (s : St) :
  quiet (onTrace cfg) ->
  exists new,
    calls (snd (run_ client cfg input s)) = (calls s ++ new)%list /\
    match fst (run_ client cfg input s) with
    | Ok _ =>
        exists before,
          new = (before ++ traced (onTrace cfg) (agent_stop (agent_name cfg)))%list /\
          count is_stop before = 0
    | Throw _ => count is_stop new = 0
    end.
Proof.
  intros Q. destruct (@run_stops client cfg input Q s) as [new [E K]].
  exists new. split; [exact E|].
  destruct (fst (run_ client cfg input s)); exact K.
Qed.

(** ** Counting the calls of the provider and of the tools *)

Section Counting.

Variable client : Client.
Variable cfg : Config.
Variable input : Input.

Local Abbreviation observer := (onTrace cfg).

Lemma count_one (p : Call ToolContext AbortSignal OnDelta -> bool)
  (c : Call ToolContext AbortSignal OnDelta) :
  count p [c] = if p c then 1 else 0.
Proof. unfold count. simpl. destruct (p c); reflexivity. Qed.

Lemma maybeExecuteTool_one_tool (content : string) (ts : option (list Tool))
  (ctx : ToolContext) :
  adds_at_most is_tool 1 (execTool content ts ctx observer).
Proof.
  unfold maybeExecuteTool.
  destruct ts as [[|t ts]|]; try (eapply adds_more; [|apply adds_ret]; lia).
  destruct (parseTool content) as [toolCall|];
    [|eapply adds_more; [|apply adds_ret]; lia].
  destruct (find _ (t :: ts)) as [found|];
    [|eapply adds_more; [|apply adds_ret]; lia].
  apply adds_bind with (k1 := 0) (k2 := 1); [apply adds_emit; reflexivity|].
  intros _. apply adds_bind with (k1 := 1) (k2 := 0); [apply adds_invoke|].
  intros result.
  apply adds_bind with (k1 := 0) (k2 := 0); [apply adds_emit; reflexivity|].
  intros _. apply adds_ret.
Qed.

Lemma dispatch_one_tool (history : list Message) (last : string) :
  adds_at_most is_tool 1 (dispatch_ cfg input history last).
Proof.
  unfold dispatch.
  destruct (truthy _ && typeof_object _ && js_in "handoff" _).
  - apply adds_bind with (k1 := 0) (k2 := 1); [apply adds_emit; reflexivity|].
    intros _. destruct (handoff cfg); [|eapply adds_more; [|apply adds_ret]; lia].
    apply adds_bind with (k1 := 0) (k2 := 1); [apply adds_invoke|].
    intros result.
    apply adds_bind with (k1 := 0) (k2 := 1); [apply adds_emit; reflexivity|].
    intros _. eapply adds_more; [|apply adds_ret]. lia.
  - apply adds_bind with (k1 := 1) (k2 := 0); [apply maybeExecuteTool_one_tool|].
    intros toolResult. destruct (negb _); apply adds_ret.
Qed.

(** What one pass adds to the record: first the events and the call of the
    provider, then, when the provider answered, what the rest of the pass
    adds. *)
Lemma turn_record (history : list Message) (s : St) :
  exists new,
    calls (snd (turn_ client cfg input history s)) = (calls s ++ new)%list /\
    count is_tool new <= count is_chat new /\
    (quiet observer -> 1 <= count is_chat new).
Proof.
  pose (rest := fun text : string =>
                  bind_ (emit_ observer (llm_response text))
                    (fun _ => dispatch_ cfg input history text)).
  assert (R : forall text, adds_at_most is_tool 1 (rest text)).
  { intros text. apply adds_bind with (k1 := 0) (k2 := 1);
      [apply adds_emit; reflexivity|].
    intros _. apply dispatch_one_tool. }
  change (turn_ client cfg input history s)
    with (bind_ (emit_ observer
                   (llm_request (run_model cfg) (withToolCallHints history (tools cfg))))
            (fun _ =>
               bind_ (invoke_ (CallChat (chat_args cfg input
                                           (withToolCallHints history (tools cfg))))
                        (chat client (chat_args cfg input
                                        (withToolCallHints history (tools cfg)))))
                 rest) s).
  unfold bind at 1.
  destruct (@adds_emit is_tool observer
              (llm_request (run_model cfg) (withToolCallHints history (tools cfg)))
              eq_refl s) as [new1 [E1 C1]].
  destruct (emit_ observer _ s) as [[[]|e] s1] eqn:Em; simpl in E1.
  - unfold bind at 1. unfold invoke.
    destruct (chat client _ (world s1)) as [[text|e] w].
    + destruct (R text {| world := w; obs := obs s1;
                          calls := (calls s1
                                    ++ [CallChat (chat_args cfg input
                                                    (withToolCallHints history
                                                       (tools cfg)))])%list |})
        as [new3 [E3 C3]].
      simpl in E3. eexists. rewrite E3, E1, <- !app_assoc. split; [reflexivity|].
      rewrite !count_app, !count_one. simpl. split; [lia|]. intros _. lia.
    + eexists. simpl. rewrite E1, <- app_assoc. split; [reflexivity|].
      rewrite !count_app, !count_one. simpl. split; [lia|]. intros _. lia.
  - exists new1. split; [exact E1|]. split; [lia|].
    intros Q. destruct (settles_emit
                          (llm_request (run_model cfg)
                             (withToolCallHints history (tools cfg))) s Q) as [o F].
    rewrite F in Em. discriminate.
Qed.

Lemma loop_record (n : nat) (history : list Message) (last : string) (s : St) :
  exists new,
    calls (snd (loop_ client cfg input n history last s)) = (calls s ++ new)%list /\
    count is_tool new <= count is_chat new /\
    (quiet observer -> 1 <= n -> 1 <= count is_chat new).
Proof.
  revert history last s. induction n as [|n IH]; intros history last s; simpl.
  - exists []. rewrite app_nil_r. split; [reflexivity|]. split; [apply le_n|].
    intros _ H. inversion H.
  - unfold bind. destruct (turn_record history s) as [new1 [E1 [B1 L1]]].
    destruct (turn_ client cfg input history s) as [[t|e] s1]; simpl in E1.
    + destruct t as [history' last'|history' last'|result].
      * destruct (IH history' last' s1) as [new2 [E2 [B2 _]]].
        exists (new1 ++ new2)%list. rewrite E2, E1, app_assoc.
        split; [reflexivity|]. rewrite !count_app. split; [lia|].
        intros Q _. specialize (L1 Q). lia.
      * exists new1. split; [exact E1|]. split; [exact B1|]. intros Q _. exact (L1 Q).
      * exists new1. split; [exact E1|]. split; [exact B1|]. intros Q _. exact (L1 Q).
    + exists new1. split; [exact E1|]. split; [exact B1|]. intros Q _. exact (L1 Q).
Qed.

Lemma turn_limit_positive : 1 <= turn_limit input.
Proof. unfold turn_limit. lia. Qed.

End Counting.



(** ** What the calls of a run are given *)

Section Constants.

Variable client : Client.
Variable cfg : Config.
Variable input : Input.

Local Abbreviation observer := (onTrace cfg).
Local Abbreviation constant := (run_constants empty_context cfg input).
Local Abbreviation always m := (every constant (fun _ => True) m).

Lemma every_ret (P : Call ToolContext AbortSignal OnDelta -> Prop) (A : Type) (a : A) :
  every P (fun _ => True) (ret_ a).
Proof.
  intros s. exists []. simpl. rewrite app_nil_r.
  split; [reflexivity|]. split; [constructor | trivial].
Qed.

Lemma every_emit (P : Call ToolContext AbortSignal OnDelta -> Prop)
  (event : TraceEvent) :
  P (CallTrace event) -> every P (fun _ => True) (emit_ observer event).
Proof.
  intros H. destruct observer as [f|]; simpl; [|apply every_ret].
  intros s. exists [CallTrace event].
  destruct (f event (world s) (obs s)) as [r o]. simpl.
  split; [reflexivity|]. split; [repeat constructor; exact H | trivial].
Qed.

Lemma every_then (P : Call ToolContext AbortSignal OnDelta -> Prop) (A B : Type)
  (m : Run A) (f : A -> Run B) :
  every P (fun _ => True) m ->
  (forall a, every P (fun _ => True) (f a)) ->
  every P (fun _ => True) (bind m f).
Proof.
  intros Hm Hf. apply every_bind with (mid := fun _ => True); [exact Hm|].
  intros a _. apply Hf.
Qed.

Lemma maybeExecuteTool_constants (content : string) :
  always (execTool content (tools cfg) (ctx_of input) observer).
Proof.
  unfold maybeExecuteTool.
  destruct (tools cfg) as [[|t ts]|]; try apply every_ret.
  destruct (parseTool content) as [toolCall|]; [|apply every_ret].
  destruct (find _ (t :: ts)) as [found|]; [|apply every_ret].
  apply every_then; [apply every_emit; exact Logic.I|].
  intros _. apply every_then; [apply every_invoke; reflexivity|].
  intros result. apply every_then; [apply every_emit; exact Logic.I|].
  intros _. apply every_ret.
Qed.

Lemma turn_constants (history : list Message) :
  always (turn_ client cfg input history).
Proof.
  unfold turn.
  apply every_then; [apply every_emit; exact Logic.I|].
  intros _. apply every_then.
  { apply every_invoke. repeat split. }
  intros text. apply every_then; [apply every_emit; exact Logic.I|].
  intros _. unfold dispatch.
  destruct (truthy _ && typeof_object _ && js_in "handoff" _).
  - apply every_then; [apply every_emit; exact Logic.I|].
    intros _. destruct (handoff cfg) as [handler|]; [|apply every_ret].
    apply every_then; [apply every_invoke; reflexivity|].
    intros result. apply every_then; [apply every_emit; exact Logic.I|].
    intros _. apply every_ret.
  - apply every_then; [apply maybeExecuteTool_constants|].
    intros toolResult. destruct (negb _); apply every_ret.
Qed.

Lemma run_always : always (run_ client cfg input).
Proof.
  unfold run. apply every_then.
  { unfold prepare. apply every_then.
    - destruct (inputGuard cfg); [apply every_invoke; exact Logic.I | apply every_ret].
    - intros guarded. apply every_then; [apply every_emit; exact Logic.I|].
      intros _. apply every_ret. }
  intros history. unfold run_from. apply every_then.
  { generalize EmptyString. generalize (turn_limit input). intros n.
    revert history. induction n as [|n IH]; intros history last; simpl.
    - apply every_ret.
    - apply every_then; [apply turn_constants|].
      intros [h l|h l|result]; [apply IH | |]; apply every_ret. }
  assert (F : forall last, always (finalize_ cfg input last)).
  { intros last. unfold finalize. apply every_then.
    - destruct (outputGuard cfg); [apply every_invoke; exact Logic.I | apply every_ret].
    - intros content. apply every_then.
      + destruct (expect input); [|apply every_ret].
        apply every_then; [apply every_invoke; exact Logic.I|].
        intros v. apply every_ret.
      + intros structured. apply every_then; [apply every_emit; exact Logic.I|].
        intros _. apply every_ret. }
  intros [h l|h l|result]; simpl; [apply F | apply F | apply every_ret].
Qed.

(** Without tools a pass never goes on to another. *)
Lemma turn_without_tools (history : list Message) (s : St) :
  tools cfg = None \/ tools cfg = Some [] ->
  (forall h l s', turn_ client cfg input history s <> (Ok (Continue h l), s')) /\
  exists new,
    calls (snd (turn_ client cfg input history s)) = (calls s ++ new)%list /\
    count is_tool new <= 0 /\ count is_chat new <= 1.
Proof.
  intros N. split.
  - intros h l s'. unfold turn, bind.
    destruct (emit_ _ _ s) as [[[]|e] s1]; [|discriminate].
    destruct (invoke_ _ _ s1) as [[text|e] s2]; [|discriminate].
    destruct (emit_ _ _ s2) as [[[]|e] s3]; [|discriminate].
    unfold dispatch.
    destruct (truthy _ && typeof_object _ && js_in "handoff" _); unfold bind.
    + destruct (emit_ _ _ s3) as [[[]|e] s4]; [|discriminate].
      destruct (handoff cfg) as [handler|]; [|discriminate].
      destruct (invoke_ _ _ s4) as [[result|e] s5]; [|discriminate].
      destruct (emit_ _ _ s5) as [[[]|e] s6]; discriminate.
    + replace (execTool text (tools cfg) (ctx_of input) observer s3)
        with (@Ok Error string text, s3)
        by (destruct N as [-> | ->]; reflexivity).
      rewrite String.eqb_refl. discriminate.
  - destruct (turn_one_chat client cfg input history s) as [new [E C]].
    exists new. split; [exact E|]. split; [|exact C].
    assert (T : adds_at_most is_tool 0 (turn_ client cfg input history)).
    { unfold turn.
      apply adds_bind with (k1 := 0) (k2 := 0); [apply adds_emit; reflexivity|].
      intros _. apply adds_bind with (k1 := 0) (k2 := 0); [apply adds_invoke|].
      intros text.
      apply adds_bind with (k1 := 0) (k2 := 0); [apply adds_emit; reflexivity|].
      intros _. unfold dispatch.
      destruct (truthy _ && typeof_object _ && js_in "handoff" _).
      - apply adds_bind with (k1 := 0) (k2 := 0); [apply adds_emit; reflexivity|].
        intros _. destruct (handoff cfg); [|apply adds_ret].
        apply adds_bind with (k1 := 0) (k2 := 0); [apply adds_invoke|].
        intros result.
        apply adds_bind with (k1 := 0) (k2 := 0); [apply adds_emit; reflexivity|].
        intros _. apply adds_ret.
      - apply adds_bind with (k1 := 0) (k2 := 0).
        + destruct N as [-> | ->]; apply adds_ret.
        + intros toolResult. destruct (negb _); apply adds_ret. }
    destruct (T s) as [new' [E' C']].
    assert (new' = new) by (apply (app_inv_head (calls s)); congruence).
    subst new'. exact C'.
Qed.

End Constants.

(** Every call a run makes of the provider is given the model and the
    temperature of the configuration, ['gpt-4o-mini'] and [0.2] when it names
    none, and the caller's [signal] and [onDelta]; every tool and the handoff
    handler are given the caller's [context], [{}] when there is none. These
    do not change from one pass to the next. *)
Theorem run_gives_constants (client : Client) (cfg : Config) (input : Input)
  (s : St) :
  exists new,
    calls (snd (run_ client cfg input s)) = (calls s ++ new)%list /\
    Forall (run_constants empty_context cfg input) new.
Proof.
  destruct (run_always client cfg input s) as [new [E [F _]]].
  exists new. split; assumption.
Qed.

(** An agent with no tools, or with an empty list of them, calls the provider
    once at most and runs nothing, whatever the provider answers (a directive
    to call a tool included) and whatever [maxToolPasses] is. *)
Theorem run_without_tools_is_single_pass (client : Client) (cfg : Config)
  (input : Input) (s : St) :
  tools cfg = None \/ tools cfg = Some [] ->
  exists new,
    calls (snd (run_ client cfg input s)) = (calls s ++ new)%list /\
    count is_chat new <= 1 /\ count is_tool new = 0.
Proof.
  intros N. unfold run, run_from, bind.
  destruct (@prepare_adds cfg input is_chat (or_introl eq_refl) s) as [new0 [E0 C0]].
  destruct (@prepare_adds cfg input is_tool (or_intror eq_refl) s) as [new0' [E0' T0]].
  assert (new0' = new0) by (apply (app_inv_head (calls s)); congruence). subst new0'.
  destruct (prepare_ cfg input s) as [[history|e] s1]; simpl in E0.
  - assert (L : forall n last,
               exists new1,
                 calls (snd (loop_ client cfg input n history last s1))
                 = (calls s1 ++ new1)%list /\
                 count is_tool new1 <= 0 /\ count is_chat new1 <= 1).
    { intros [|n] last; simpl.
      - exists []. rewrite app_nil_r. split; [reflexivity|]. split; apply Nat.le_0_l.
      - unfold bind.
        destruct (@turn_without_tools client cfg input history s1 N) as [K [new1 [E1 C1]]].
        destruct (turn_ client cfg input history s1) as [[[h l|h l|result]|e] s2];
          try (exists new1; split; [exact E1 | exact C1]).
        exfalso. exact (K h l s2 eq_refl). }
    destruct (L (turn_limit input) EmptyString) as [new1 [E1 [T1 C1]]].
    destruct (loop_ client cfg input (turn_limit input) history EmptyString s1)
      as [[t|e] s2]; simpl in E1.
    + assert (F : exists new2,
                 calls (snd (finish JSON_parse cfg input t s2)) = (calls s2 ++ new2)%list /\
                 count is_chat new2 <= 0 /\ count is_tool new2 <= 0).
      { destruct t as [h l|h l|result]; simpl.
        - destruct (@finalize_adds cfg input is_chat l (or_introl eq_refl) s2)
            as [new2 [E2 C2]].
          destruct (@finalize_adds cfg input is_tool l (or_intror eq_refl) s2)
            as [new2' [E2' T2]].
          assert (new2' = new2) by (apply (app_inv_head (calls s2)); congruence).
          subst new2'. exists new2. repeat split; assumption.
        - destruct (@finalize_adds cfg input is_chat l (or_introl eq_refl) s2)
            as [new2 [E2 C2]].
          destruct (@finalize_adds cfg input is_tool l (or_intror eq_refl) s2)
            as [new2' [E2' T2]].
          assert (new2' = new2) by (apply (app_inv_head (calls s2)); congruence).
          subst new2'. exists new2. repeat split; assumption.
        - exists []. rewrite app_nil_r. repeat split; apply Nat.le_0_l. }
      destruct F as [new2 [E2 [C2 T2]]].
      eexists. rewrite E2, E1, E0, <- !app_assoc. split; [reflexivity|].
      rewrite !count_app. lia.
    + eexists. simpl. rewrite E1, E0, <- app_assoc. split; [reflexivity|].
      rewrite !count_app. lia.
  - exists new0. simpl. split; [exact E0|]. lia.
Qed.

(** ** Detecting and running a tool *)

(** [parseToolCall] answers with the parsed value exactly when
    [tryParseObject] finds an object that has both the keys [tool] and [args],
    whatever their values ([null] included); an array, a string, a number,
    [null], or an object that lacks one of the two keys is no tool call. *)
Theorem parseToolCall_wants_tool_and_args (content : string) (toolCall : any) :
  parseTool content = Some toolCall <->
  exists members name args,
    tryParse content = Some (JObj members) /\
    toolCall = Some (JObj members) /\
    lookup_member "tool" members = Some name /\
    lookup_member "args" members = Some args.
Proof.
  unfold parseToolCall. split.
  - destruct (tryParse content) as [[| | | | |members]|]; simpl;
      rewrite ?andb_false_r; try discriminate.
    destruct (lookup_member "tool" members) as [name|] eqn:T; [|discriminate].
    destruct (lookup_member "args" members) as [args|] eqn:A; [|discriminate].
    intros H. injection H as <-. exists members, name, args. repeat split; assumption.
  - intros [members [name [args [-> [-> [T A]]]]]]. simpl. rewrite T, A. reflexivity.
Qed.

(** When the content is a tool call whose [tool] is the name of a tool of
    the list, [maybeExecuteTool] takes the first tool of that name, emits
    [tool:start], calls its [execute] with [args] and the context, emits
    [tool:stop] with the result and resolves to the result when it is a
    string, to [JSON.stringify] of it otherwise. When [execute] throws,
    [maybeExecuteTool] throws the same value and emits no [tool:stop]. *)
Theorem maybeExecuteTool_runs_first_match (content : string)
  (members : list (string * json)) (nm : string) (args : json)
  (earlier : list Tool) (found : Tool) (later : list Tool) (ctx : ToolContext)
  (observer : option (Observer World Obs Error)) (s : St) :
  quiet observer ->
  tryParse content = Some (JObj members) ->
  lookup_member "tool" members = Some (JStr nm) ->
  lookup_member "args" members = Some args ->
  Forall (fun t => tool_name t <> nm) earlier ->
  tool_name found = nm ->
  match tool_execute found (Some args) ctx (world s) with
  | (Ok result, w) =>
      settles (execTool content (Some (earlier ++ found :: later)%list) ctx observer) s
        (Ok (match result with JStr text => text | _ => JSON_stringify result end)) w
        (traced observer (tool_start nm (Some args))
         ++ [CallTool nm (Some args) ctx]
         ++ traced observer (tool_stop nm result))%list
  | (Throw e, w) =>
      settles (execTool content (Some (earlier ++ found :: later)%list) ctx observer) s
        (Throw e) w
        (traced observer (tool_start nm (Some args)) ++ [CallTool nm (Some args) ctx])%list
  end.
Proof.
  intros Q P T A N F.
  assert (G : find (fun t => strict_eq_string (tool_name t) (Some (JStr nm)))
                (earlier ++ found :: later)%list = Some found).
  { rewrite find_append, find_nothing.
    - simpl. rewrite F, String.eqb_refl. reflexivity.
    - intros x Hx. rewrite Forall_forall in N. simpl.
      apply String.eqb_neq, N, Hx. }
  unfold maybeExecuteTool.
  destruct (earlier ++ found :: later)%list as [|t ts] eqn:L;
    [destruct earlier; discriminate|].
  unfold parseToolCall. rewrite P.
  replace (truthy (Some (JObj members)) && typeof_object (Some (JObj members))
           && js_in "tool" (Some (JObj members))
           && js_in "args" (Some (JObj members))) with true
    by (simpl; rewrite T, A; reflexivity).
  simpl js_get. rewrite T, A, G, F.
  destruct (tool_execute found (Some args) ctx (world s)) as [[result|e] w] eqn:C.
  - eapply settles_bind; [apply settles_emit, Q|]. intros s1 E1.
    eapply settles_bind; [apply settles_invoke; rewrite E1; exact C|]. intros s2 E2.
    eapply settles_as; [|eapply settles_bind; [apply settles_emit, Q|]].
    + apply app_nil_r.
    + intros s3 E3. rewrite <- E2, <- E3. apply settles_ret.
  - eapply settles_bind; [apply settles_emit, Q|]. intros s1 E1.
    apply settles_throw. apply settles_invoke. rewrite E1. exact C.
Qed.


(** A tool given to [agent.with] replaces the base agent's tool of the same
    name where the loop looks tools up: in a pass of the loop of the extended
    agent, a directive for that name runs the extension's tool (the last one
    of that name in the extension), not the base agent's. *)
Theorem with_overrides_tool_by_name (client : Client) (cfg : Config)
  (extension : PartialAgentConfig World Obs Error ToolContext) (input : Input)
  (history : list Message) (s : St)
  (text : string) (w1 : World) (nm : string) (args : json) (b : list Tool)
  (found : Tool) (result : json) (w2 : World) :
  ext_tools extension = Some (Some b) ->
  find (named nm) (rev b) = Some found ->
  quiet (onTrace (agent_with cfg extension)) ->
  chat client
    (chat_args (agent_with cfg extension) input
       (withToolCallHints history (tools (agent_with cfg extension)))) (world s)
  = (Ok text, w1) ->
  calls_tool JSON_parse text nm args ->
  tool_execute found (Some args) (ctx_of input) w1 = (Ok result, w2) ->
  exists merged s',
    tools (agent_with cfg extension) = Some merged /\
    find (named nm) merged = Some found /\
    turn_ client (agent_with cfg extension) input history s
    = (Ok (if negb (String.eqb (tool_text JSON_stringify result) text)
           then Continue (history ++ exchange (text, tool_text JSON_stringify result))%list
                  text
           else Break history text), s') /\
    world s' = w2 /\
    calls s'
    = (calls s
       ++ traced (onTrace (agent_with cfg extension))
            (llm_request (run_model (agent_with cfg extension))
               (withToolCallHints history (tools (agent_with cfg extension))))
       ++ [CallChat (chat_args (agent_with cfg extension) input
                       (withToolCallHints history (tools (agent_with cfg extension))))]
       ++ traced (onTrace (agent_with cfg extension)) (llm_response text)
       ++ traced (onTrace (agent_with cfg extension))
            (tool_start (tool_name found) (Some args))
       ++ [CallTool (tool_name found) (Some args) (ctx_of input)]
       ++ traced (onTrace (agent_with cfg extension))
            (tool_stop (tool_name found) result))%list.
Proof.
  intros X F Q C D K.
  assert (M : exists merged,
             tools (agent_with cfg extension) = Some merged /\
             find (named nm) merged = Some found).
  { unfold agent_with. simpl. rewrite X. simpl.
    destruct (mergeTools (tools cfg) (Some b)) as [merged|] eqn:E.
    - exists merged. split; [reflexivity|].
      rewrite (mergeTools_find _ _ nm E). simpl or_empty. rewrite F. reflexivity.
    - destruct (tools cfg); discriminate. }
  destruct M as [merged [M G]].
  pose proof (@pass_tool client (agent_with cfg extension) input history s text w1
                nm args merged found (Ok result) w2 Q C D M G K) as P.
  destruct (settles_state P) as [s' [T [W L]]].
  exists merged, s'. split; [exact M|]. split; [exact G|].
  split; [exact T|]. split; [exact W | exact L].
Qed.

(** ** The first call of the provider *)

(** What a computation begins its part of the record with, it still begins
    with when more is done after it. *)
Lemma begins_bind (A B : Type) (m : Run A) (f : A -> Run B) (k : nat) (s : St)
  (prefix : Calls) :
  (exists more, calls (snd (m s)) = (calls s ++ prefix ++ more)%list) ->
  (forall a, adds_at_most is_chat k (f a)) ->
  exists more, calls (snd (bind m f s)) = (calls s ++ prefix ++ more)%list.
Proof.
  intros [more E] H. unfold bind.
  destruct (m s) as [[a|e] s1]; simpl in E.
  - destruct (H a s1) as [new [F _]]. exists (more ++ new)%list.
    rewrite F, E, <- !app_assoc. reflexivity.
  - exists more. exact E.
Qed.

Lemma turn_begins (client : Client) (cfg : Config) (input : Input)
  (history : list Message) (s : St) :
  quiet (onTrace cfg) ->
  exists more,
    calls (snd (turn_ client cfg input history s))
    = (calls s
       ++ (traced (onTrace cfg)
             (llm_request (run_model cfg) (withToolCallHints history (tools cfg)))
           ++ [CallChat (chat_args cfg input (withToolCallHints history (tools cfg)))])
       ++ more)%list.
Proof.
  intros Q. unfold turn. unfold bind at 1.
  destruct (settles_emit
              (llm_request (run_model cfg) (withToolCallHints history (tools cfg))) s Q)
    as [o E].
  rewrite E.
  match goal with
  | |- context [bind ?m ?f ?st] =>
      destruct (@begins_bind _ _ m f 0 st
                  [CallChat (chat_args cfg input (withToolCallHints history (tools cfg)))])
        as [more F]
  end.
  - exists []. unfold invoke. destruct (chat client _ _) as [r w]. reflexivity.
  - intros text. apply adds_bind with (k1 := 0) (k2 := 0);
      [apply adds_emit; reflexivity|].
    intros _. apply dispatch_no_chat.
  - exists more. rewrite F. simpl. rewrite <- !app_assoc. reflexivity.
Qed.

(** What a run adds to the record from its first call of the provider on. *)
Lemma run_from_first_call (client : Client) (cfg : Config) (input : Input)
  (n : nat) (history : list Message) (last : string) (s : St) :
  quiet (onTrace cfg) ->
  exists rest,
    calls (snd (run_from_ client cfg input (S n) history last s))
    = (calls s
       ++ traced (onTrace cfg)
            (llm_request (run_model cfg) (withToolCallHints history (tools cfg)))
       ++ CallChat (chat_args cfg input (withToolCallHints history (tools cfg)))
       :: rest)%list.
Proof.
  intros Q. unfold run_from. simpl loop.
  destruct (@begins_bind _ _
              (bind_ (turn_ client cfg input history)
                 (fun t => match t with
                           | Continue history' lastContent' =>
                               loop_ client cfg input n history' lastContent'
                           | Break history' lastContent' =>
                               ret_ (Break history' lastContent')
                           | Return result => ret_ (Return result)
                           end))
              (finish JSON_parse cfg input) 0 s
              (traced (onTrace cfg)
                 (llm_request (run_model cfg) (withToolCallHints history (tools cfg)))
               ++ [CallChat (chat_args cfg input
                               (withToolCallHints history (tools cfg)))])%list)
    as [rest E].
  - apply begins_bind with (k := n); [apply turn_begins, Q|].
    intros [h l|h l|result].
    + apply loop_chats.
    + eapply adds_more; [|apply adds_ret]. lia.
    + eapply adds_more; [|apply adds_ret]. lia.
  - intros [h l|h l|result]; simpl;
      try (apply finalize_adds; left; reflexivity).
    apply adds_ret.
  - exists rest. rewrite <- !app_assoc in E. exact E.
Qed.


(** When the observer throws on [agent:start], the run throws the same value
    before the provider is called: an error of [onTrace] is not caught. *)
Theorem observer_error_aborts_run (client : Client) (cfg : Config) (input : Input)
  (s : St) (observer : Observer World Obs Error) (e : Error) (o : Obs) :
  inputGuard cfg = None ->
  onTrace cfg = Some observer ->
  observer (agent_start (agent_name cfg)) (world s) (obs s) = (Throw e, o) ->
  run_ client cfg input s
  = (Throw e,
     {| world := world s; obs := o;
        calls := (calls s ++ [CallTrace (agent_start (agent_name cfg))])%list |}).
Proof.
  intros G T H. unfold run, prepare, bind. rewrite G, T. simpl.
  rewrite H. reflexivity.
Qed.

(** ** The guards, the handler and the schema *)

Section Once.

Variable client : Client.
Variable cfg : Config.
Variable input : Input.

(** A kind of call that is made once at most: the handoff handler and, of
    the output guard and the schema, one. *)
Variable p : Call ToolContext AbortSignal OnDelta -> bool.
Hypothesis not_trace : forall event, p (CallTrace event) = false.
Hypothesis not_chat : forall args, p (CallChat args) = false.
Hypothesis not_tool : forall nm args ctx, p (CallTool nm args ctx) = false.
Hypothesis not_input : forall msgs, p (CallInputGuard msgs) = false.
Hypothesis one_of_two :
  (forall text, p (CallOutputGuard text) = false) \/
  (forall v, p (CallParse v) = false).

Local Abbreviation observer := (onTrace cfg).
Local Abbreviation once := (@ends_once World Obs Error ToolContext AbortSignal OnDelta p).

Lemma adds_one (A : Type) (c : Call ToolContext AbortSignal OnDelta)
  (f : Callback World Error A) :
  adds_at_most p 1 (invoke_ c f).
Proof.
  eapply adds_more; [|apply adds_invoke]. destruct (p c); lia.
Qed.

Lemma adds_none (A : Type) (c : Call ToolContext AbortSignal OnDelta)
  (f : Callback World Error A) :
  p c = false -> adds_at_most p 0 (invoke_ c f).
Proof.
  intros H. eapply adds_more; [|apply adds_invoke]. rewrite H. lia.
Qed.

Lemma once_bind (A B : Type) (final : B -> bool) (m : Run A) (f : A -> Run B) :
  adds_at_most p 0 m ->
  (forall a, once final (f a)) ->
  once final (bind m f).
Proof.
  intros Hm Hf s. unfold bind.
  destruct (Hm s) as [new1 [E1 C1]].
  destruct (m s) as [[a|e] s1]; simpl in E1.
  - destruct (Hf a s1) as [new2 [E2 K]].
    exists (new1 ++ new2)%list. rewrite E2, E1, app_assoc.
    split; [reflexivity|]. rewrite count_app.
    destruct (fst (f a s1)) as [b|e]; [destruct (final b)|]; lia.
  - exists new1. simpl. split; [exact E1 | lia].
Qed.

Lemma once_none (A : Type) (final : A -> bool) (m : Run A) :
  adds_at_most p 0 m -> once final m.
Proof.
  intros Hm s. destruct (Hm s) as [new [E C]]. exists new.
  split; [exact E|].
  destruct (fst (m s)) as [a|e]; [destruct (final a)|]; lia.
Qed.

Lemma once_final (A : Type) (final : A -> bool) (m : Run A) :
  adds_at_most p 1 m ->
  (forall s a, fst (m s) = Ok a -> final a = true) ->
  once final m.
Proof.
  intros Hm Hf s. destruct (Hm s) as [new [E C]]. exists new.
  split; [exact E|].
  destruct (fst (m s)) as [a|e] eqn:F; [|exact C].
  rewrite (Hf s a F). exact C.
Qed.

Lemma once_then (A B : Type) (final : A -> bool)
  (m : Run A) (f : A -> Run B) :
  once final m ->
  (forall a, final a = true -> exists b, f a = ret_ b) ->
  (forall a, final a = false -> adds_at_most p 1 (f a)) ->
  once (fun _ => true) (bind m f).
Proof.
  intros Hm Hy Hn s. unfold bind.
  destruct (Hm s) as [new1 [E1 K1]].
  destruct (m s) as [[a|e] s1]; simpl in E1, K1.
  - destruct (final a) eqn:F.
    + destruct (Hy a F) as [b ->]. exists new1. simpl. split; assumption.
    + destruct (Hn a F s1) as [new2 [E2 K2]].
      exists (new1 ++ new2)%list. rewrite E2, E1, app_assoc.
      split; [reflexivity|]. rewrite count_app.
      destruct (fst (f a s1)); lia.
  - exists new1. simpl. split; assumption.
Qed.

Lemma maybeExecuteTool_none (content : string) (ts : option (list Tool))
  (ctx : ToolContext) :
  adds_at_most p 0 (execTool content ts ctx observer).
Proof.
  unfold maybeExecuteTool.
  destruct ts as [[|t ts]|]; try apply adds_ret.
  destruct (parseTool content) as [toolCall|]; [|apply adds_ret].
  destruct (find _ (t :: ts)) as [found|]; [|apply adds_ret].
  apply adds_bind with (k1 := 0) (k2 := 0); [apply adds_emit, not_trace|].
  intros _. apply adds_bind with (k1 := 0) (k2 := 0);
    [apply adds_none, not_tool|].
  intros result.
  apply adds_bind with (k1 := 0) (k2 := 0); [apply adds_emit, not_trace|].
  intros _. apply adds_ret.
Qed.

Lemma turn_once (history : list Message) :
  once returned (turn_ client cfg input history).
Proof.
  unfold turn.
  apply once_bind; [apply adds_emit, not_trace|].
  intros _. apply once_bind; [apply adds_none, not_chat|].
  intros text. apply once_bind; [apply adds_emit, not_trace|].
  intros _. unfold dispatch.
  destruct (truthy _ && typeof_object _ && js_in "handoff" _).
  - apply once_bind; [apply adds_emit, not_trace|].
    intros _. destruct (handoff cfg) as [handler|].
    + apply once_final.
      * apply adds_bind with (k1 := 1) (k2 := 0); [apply adds_one|].
        intros result.
        apply adds_bind with (k1 := 0) (k2 := 0); [apply adds_emit, not_trace|].
        intros _. apply adds_ret.
      * intros s a. unfold bind.
        destruct (invoke_ _ _ s) as [[result|e] s1]; [|discriminate].
        destruct (emit_ _ _ s1) as [[[]|e] s2]; [|discriminate].
        intros H. injection H as <-. reflexivity.
    + apply once_none, adds_ret.
  - apply once_none.
    apply adds_bind with (k1 := 0) (k2 := 0); [apply maybeExecuteTool_none|].
    intros toolResult. destruct (negb _); apply adds_ret.
Qed.

Lemma loop_once (n : nat) (history : list Message) (last : string) :
  once returned (loop_ client cfg input n history last).
Proof.
  revert history last. induction n as [|n IH]; intros history last; simpl.
  - apply once_none, adds_ret.
  - intros s. unfold bind.
    destruct (turn_once history s) as [new1 [E1 K1]].
    destruct (turn_ client cfg input history s) as [[t|e] s1]; simpl in E1, K1.
    + destruct t as [h l|h l|result]; simpl in K1.
      * destruct (IH h l s1) as [new2 [E2 K2]].
        exists (new1 ++ new2)%list. rewrite E2, E1, app_assoc.
        split; [reflexivity|]. rewrite count_app, K1. exact K2.
      * exists new1. simpl. split; [exact E1 | exact K1].
      * exists new1. simpl. split; [exact E1 | exact K1].
    + exists new1. simpl. split; [exact E1 | exact K1].
Qed.

Lemma finalize_once (last : string) :
  adds_at_most p 1 (finalize_ cfg input last).
Proof.
  unfold finalize. destruct one_of_two as [G|X].
  - apply adds_bind with (k1 := 0) (k2 := 1).
    { destruct (outputGuard cfg); [apply adds_none, G | apply adds_ret]. }
    intros content. apply adds_bind with (k1 := 1) (k2 := 0).
    { destruct (expect input); [|eapply adds_more; [|apply adds_ret]; lia].
      apply adds_bind with (k1 := 1) (k2 := 0); [apply adds_one|].
      intros v. apply adds_ret. }
    intros structured.
    apply adds_bind with (k1 := 0) (k2 := 0); [apply adds_emit, not_trace|].
    intros _. apply adds_ret.
  - apply adds_bind with (k1 := 1) (k2 := 0).
    { destruct (outputGuard cfg); [apply adds_one|].
      eapply adds_more; [|apply adds_ret]. lia. }
    intros content. apply adds_bind with (k1 := 0) (k2 := 0).
    { destruct (expect input); [|apply adds_ret].
      apply adds_bind with (k1 := 0) (k2 := 0); [apply adds_none, X|].
      intros v. apply adds_ret. }
    intros structured.
    apply adds_bind with (k1 := 0) (k2 := 0); [apply adds_emit, not_trace|].
    intros _. apply adds_ret.
Qed.

Lemma prepare_none :
  adds_at_most p 0 (prepare_ cfg input).
Proof.
  unfold prepare. apply adds_bind with (k1 := 0) (k2 := 0).
  - destruct (inputGuard cfg); [apply adds_none, not_input | apply adds_ret].
  - intros guarded. apply adds_bind with (k1 := 0) (k2 := 0);
      [apply adds_emit, not_trace|].
    intros _. apply adds_ret.
Qed.

Lemma run_once (s : St) :
  exists new,
    calls (snd (run_ client cfg input s)) = (calls s ++ new)%list /\
    count p new <= 1.
Proof.
  assert (H : once (fun _ => true) (run_ client cfg input)).
  { unfold run. apply once_bind; [apply prepare_none|].
    intros history. unfold run_from.
    apply once_then with (final := returned); [apply loop_once | |].
    - intros [h l|h l|result] F; try discriminate. eexists. reflexivity.
    - intros [h l|h l|result] F; try discriminate; apply finalize_once. }
  destruct (H s) as [new [E K]]. exists new. split; [exact E|].
  destruct (fst (run_ client cfg input s)); exact K.
Qed.

End Once.

Lemma count_either (p q : Call ToolContext AbortSignal OnDelta -> bool) (l : Calls) :
  (forall c, p c = true -> q c = false) ->
  count (fun c => p c || q c) l = count p l + count q l.
Proof.
  intros D. unfold count. induction l as [|c l IH]; [reflexivity|]. simpl.
  destruct (p c) eqn:P; simpl.
  - rewrite (D c P). simpl. rewrite IH. reflexivity.
  - destruct (q c); simpl; rewrite IH; lia.
Qed.

(** A run ends one way only.  Whatever the provider answers and whatever
    the callbacks do, one run of an agent calls its handoff handler once at
    most, its output guard once at most and the schema of its caller once at
    most, and a run that called the handoff handler calls neither the output
    guard nor the schema: the handler's result is returned as it is
    (src/agents/index.ts, lines 105-109 and 130-139). *)
Theorem run_ends_one_way (client : Client) (cfg : Config) (input : Input) (s : St) :
  exists new,
    calls (snd (run_ client cfg input s)) = (calls s ++ new)%list /\
    count is_handoff new + count is_output_guard new <= 1 /\
    count is_handoff new + count is_parse new <= 1.
Proof.
  destruct (@run_once client cfg input (fun c => is_handoff c || is_output_guard c))
    with (s := s) as [new [E K]]; try (intros; reflexivity).
  { right. intros v. reflexivity. }
  destruct (@run_once client cfg input (fun c => is_handoff c || is_parse c))
    with (s := s) as [new' [E' K']]; try (intros; reflexivity).
  { left. intros text. reflexivity. }
  rewrite E in E'. apply app_inv_head in E'. subst new'.
  exists new. split; [exact E|].
  rewrite count_either in K by (intros [] H; try discriminate; reflexivity).
  rewrite count_either in K' by (intros [] H; try discriminate; reflexivity).
  split; assumption.
Qed.

End Properties.

(** * The router of the handoffs example *)

Section Routing.

Variables World Obs Error ToolContext AbortSignal OnDelta : Type.
Variable empty_context : ToolContext.
Variable JSON_parse : string -> parsed.
Variable JSON_stringify : json -> string.
Variable client : OpenAIClient World Error AbortSignal OnDelta.

Local Abbreviation router_ :=
  (@handoffs_router World Obs Error ToolContext AbortSignal OnDelta empty_context
     JSON_parse JSON_stringify client).
Local Abbreviation target_ := (@target World Error ToolContext).
Local Abbreviation only_ := (@only_messages World Error ToolContext AbortSignal OnDelta).
Local Abbreviation run_router :=
  (@run World Obs Error ToolContext AbortSignal OnDelta empty_context JSON_parse
     JSON_stringify client).
Local Abbreviation run_target :=
  (@run World unit Error ToolContext AbortSignal OnDelta empty_context JSON_parse
     JSON_stringify client).
Local Abbreviation fresh w :=
  (@Build_State World unit ToolContext AbortSignal OnDelta w tt []).

Lemma target_instructed (to : any) :
  exists own,
    own <> EmptyString /\
    target_ to = instructed World Error ToolContext unit
                   (if strict_eq_string "SpanishAgent" to
                    then "SpanishAgent" else "EnglishAgent") own.
Proof.
  unfold target. destruct (strict_eq_string "SpanishAgent" to); eexists;
    (split; [|reflexivity]); discriminate.
Qed.

(** When the model answers the router with a handoff directive, the run of
    the router is the run of the agent it hands off to: the Spanish agent
    when the directive names ['SpanishAgent'], the English agent for any other
    value. That agent is run on the router's whole history, so after its own
    instructions its provider is given the router's instructions, then the
    user's messages; what it resolves to or throws is what the router's run
    resolves to or throws. *)
Theorem router_hands_its_history_on (msgs : list Message)
  (s0 : State World Obs ToolContext AbortSignal OnDelta) (text : string)
  (to : json) (reason : any) (w1 : World) :
  chat client
    (chat_args router_ (only_ msgs) (message system router_instructions :: msgs))
    (world s0)
  = (Ok text, w1) ->
  hands_off JSON_parse text to reason ->
  fst (run_router router_ (only_ msgs) s0)
  = fst (run_target (target_ (Some to))
           (only_ (message system router_instructions :: msgs)) (fresh w1)) /\
  world (snd (run_router router_ (only_ msgs) s0))
  = world (snd (run_target (target_ (Some to))
                  (only_ (message system router_instructions :: msgs)) (fresh w1))) /\
  (exists own rest,
     instructions (target_ (Some to)) = Some own /\
     calls (snd (run_target (target_ (Some to))
                   (only_ (message system router_instructions :: msgs)) (fresh w1)))
     = CallChat (chat_args (target_ (Some to))
                   (only_ (message system router_instructions :: msgs))
                   (message system own :: message system router_instructions :: msgs))
       :: rest) /\
  (to = JStr "SpanishAgent" -> target_ (Some to) = spanishAgent World Error ToolContext) /\
  (to <> JStr "SpanishAgent" -> target_ (Some to) = englishAgent World Error ToolContext).
Proof.
  intros C D.
  assert (R : run_router router_ (only_ msgs) s0
              = run_from empty_context JSON_parse JSON_stringify client router_
                  (only_ msgs) 4 (message system router_instructions :: msgs)
                  EmptyString s0).
  { reflexivity. }
  assert (Q : quiet (onTrace router_)) by (intros f H; discriminate).
  split; [|split; [|split; [|split]]].
  - rewrite R.
    destruct (run_target (target_ (Some to))
                (only_ (message system router_instructions :: msgs)) (fresh w1))
      as [[result|e] s2] eqn:N.
    + destruct (settles_state
                  (@pass_handoff World Obs Error ToolContext AbortSignal OnDelta
                     empty_context JSON_parse JSON_stringify client router_
                     (only_ msgs) (message system router_instructions :: msgs) s0
                     text w1 _ to reason result (world s2) Q C eq_refl D
                     ltac:(unfold awaited; rewrite N; reflexivity)))
        as [s' [T _]].
      rewrite (@run_from_return World Obs Error ToolContext AbortSignal OnDelta
                 empty_context JSON_parse JSON_stringify client router_ (only_ msgs)
                 3 _ EmptyString s0 s' result T).
      reflexivity.
    + assert (T : settles (turn empty_context JSON_parse JSON_stringify client router_
                             (only_ msgs) (message system router_instructions :: msgs))
                    s0 (Throw e) (world s2)
                    (traced (onTrace router_)
                       (llm_request (run_model router_)
                          (withToolCallHints
                             (message system router_instructions :: msgs)
                             (tools router_)))
                     ++ [CallChat (chat_args router_ (only_ msgs)
                                     (withToolCallHints
                                        (message system router_instructions :: msgs)
                                        (tools router_)))]
                     ++ traced (onTrace router_) (llm_response text)
                     ++ (traced (onTrace router_)
                           (handoff_event (agent_name router_) (Some to) reason)
                         ++ [CallHandoff (Some to)
                               (message system router_instructions :: msgs)
                               (run_context empty_context (only_ msgs))]))%list).
      { apply turn_settles with (w1 := w1); [exact Q | exact C |].
        intros s1 E1.
        apply (@dispatch_handoff World Obs Error ToolContext AbortSignal OnDelta
                 empty_context JSON_parse JSON_stringify router_ (only_ msgs)
                 (message system router_instructions :: msgs) text s1 _ to reason
                 (Throw e) (world s2) Q eq_refl D).
        rewrite E1. unfold awaited. rewrite N. reflexivity. }
      destruct (settles_state T) as [s' [T' _]].
      rewrite (@run_from_throw World Obs Error ToolContext AbortSignal OnDelta
                 empty_context JSON_parse JSON_stringify client router_ (only_ msgs)
                 3 _ EmptyString s0 s' e T').
      reflexivity.
  - rewrite R.
    destruct (run_target (target_ (Some to))
                (only_ (message system router_instructions :: msgs)) (fresh w1))
      as [[result|e] s2] eqn:N.
    + destruct (settles_state
                  (@pass_handoff World Obs Error ToolContext AbortSignal OnDelta
                     empty_context JSON_parse JSON_stringify client router_
                     (only_ msgs) (message system router_instructions :: msgs) s0
                     text w1 _ to reason result (world s2) Q C eq_refl D
                     ltac:(unfold awaited; rewrite N; reflexivity)))
        as [s' [T [W _]]].
      rewrite (@run_from_return World Obs Error ToolContext AbortSignal OnDelta
                 empty_context JSON_parse JSON_stringify client router_ (only_ msgs)
                 3 _ EmptyString s0 s' result T).
      exact W.
    + assert (T : exists s', turn empty_context JSON_parse JSON_stringify client router_
                               (only_ msgs) (message system router_instructions :: msgs)
                               s0 = (Throw e, s') /\ world s' = world s2).
      { assert (T : settles (turn empty_context JSON_parse JSON_stringify client router_
                               (only_ msgs)
                               (message system router_instructions :: msgs))
                      s0 (Throw e) (world s2)
                      (traced (onTrace router_)
                         (llm_request (run_model router_)
                            (withToolCallHints
                               (message system router_instructions :: msgs)
                               (tools router_)))
                       ++ [CallChat (chat_args router_ (only_ msgs)
                                       (withToolCallHints
                                          (message system router_instructions :: msgs)
                                          (tools router_)))]
                       ++ traced (onTrace router_) (llm_response text)
                       ++ (traced (onTrace router_)
                             (handoff_event (agent_name router_) (Some to) reason)
                           ++ [CallHandoff (Some to)
                                 (message system router_instructions :: msgs)
                                 (run_context empty_context (only_ msgs))]))%list).
        { apply turn_settles with (w1 := w1); [exact Q | exact C |].
          intros s1 E1.
          apply (@dispatch_handoff World Obs Error ToolContext AbortSignal OnDelta
                   empty_context JSON_parse JSON_stringify router_ (only_ msgs)
                   (message system router_instructions :: msgs) text s1 _ to reason
                   (Throw e) (world s2) Q eq_refl D).
          rewrite E1. unfold awaited. rewrite N. reflexivity. }
        destruct (settles_state T) as [s' [T' [W _]]]. exists s'. split; assumption. }
      destruct T as [s' [T' W]].
      rewrite (@run_from_throw World Obs Error ToolContext AbortSignal OnDelta
                 empty_context JSON_parse JSON_stringify client router_ (only_ msgs)
                 3 _ EmptyString s0 s' e T').
      exact W.
  - destruct (target_instructed (Some to)) as [own [Ne E]].
    exists own. rewrite E.
    assert (Q' : quiet (onTrace (instructed World Error ToolContext unit
                                   (if strict_eq_string "SpanishAgent" (Some to)
                                    then "SpanishAgent" else "EnglishAgent") own)))
      by (intros f H; discriminate).
    destruct (@run_from_first_call World unit Error ToolContext AbortSignal OnDelta
                empty_context JSON_parse JSON_stringify client
                (instructed World Error ToolContext unit
                   (if strict_eq_string "SpanishAgent" (Some to)
                    then "SpanishAgent" else "EnglishAgent") own)
                (only_ (message system router_instructions :: msgs)) 3
                (message system own :: message system router_instructions :: msgs)
                EmptyString (fresh w1) Q')
      as [rest F].
    exists rest. split; [reflexivity|].
    apply String.eqb_neq in Ne.
    unfold run, bind, prepare. simpl. rewrite Ne. exact F.
  - intros ->. reflexivity.
  - intros N. unfold target.
    destruct (strict_eq_string "SpanishAgent" (Some to)) eqn:E; [|reflexivity].
    apply strict_eq_string_spec in E. injection E as ->. contradiction N; reflexivity.
Qed.

End Routing.

(** * The agent of the guardrails example *)

Section Guarding.

Variables World Error ToolContext AbortSignal OnDelta : Type.
Variable empty_context : ToolContext.
Variable JSON_parse : string -> parsed.
Variable JSON_stringify : json -> string.
Variable trim : string -> string.
Variable client : OpenAIClient World Error AbortSignal OnDelta.

Local Abbreviation guarded_ := (@guardedAgent World Error ToolContext trim).
Local Abbreviation only_ := (@only_messages World Error ToolContext AbortSignal OnDelta).
Local Abbreviation run_guarded :=
  (@run World (list string) Error ToolContext AbortSignal OnDelta empty_context
     JSON_parse JSON_stringify client guarded_).

Lemma last_ten_short (msgs : list Message) :
  length (last_ten msgs) <= 10 /\
  exists dropped, msgs = (dropped ++ last_ten msgs)%list.
Proof.
  unfold last_ten. split.
  - rewrite length_skipn. lia.
  - exists (firstn (length msgs - 10) msgs). symmetry. apply firstn_skipn.
Qed.


End Guarding.

(** * The provider *)

Section Streaming.

Variables World Error AbortSignal : Type.

Local Abbreviation Stream_ := (Stream World Error).
Local Abbreviation Handler := (DeltaHandler World Error).
Local Abbreviation Record_ := (list (ProviderCall AbortSignal)).

(** Induction on a stream: the rest of a stream is what a [next()] gave. *)
Lemma Stream_induction (P : Stream_ -> Prop) :
  (forall next : World -> Outcome Error (option (Chunk * Stream_)) * World,
     (forall w chunk rest w', next w = (Ok (Some (chunk, rest)), w') -> P rest) ->
     P (Next next)) ->
  forall stream, P stream.
Proof.
  intros H. fix IH 1. intros [next]. apply H.
  intros w chunk rest w' E.
  destruct (next w) as [[[[c r]|]|e] w1]; try discriminate.
  injection E as _ <- _. apply IH.
Qed.

Lemma join_empty_cons (x : string) (l : list string) :
  join EmptyString (x :: l) = x ++ join EmptyString l.
Proof. destruct l; simpl; [rewrite append_empty|]; reflexivity. Qed.

Lemma chunk_by_chunk_next (steps : Record_) :
  chunk_by_chunk steps -> chunk_by_chunk (CallNext :: steps).
Proof. destruct steps as [|[request| |delta] steps]; simpl; tauto. Qed.

Lemma consume_record (onDelta : Handler) (stream : Stream_) :
  forall (full : string) (w : World) (log : Record_),
  exists steps,
    snd (consume onDelta stream full w log) = (log ++ steps)%list /\
    chunk_by_chunk steps /\
    Forall (fun delta => delta <> EmptyString) (delivered steps) /\
    forall content,
      fst (fst (consume onDelta stream full w log)) = Ok content ->
      content = full ++ join EmptyString (delivered steps).
Proof.
  induction stream as [next IH] using Stream_induction. intros full w log. simpl.
  destruct (next w) as [[[[chunk rest]|]|e] w1] eqn:N.
  - destruct (negb (String.eqb (chunk_text chunk) EmptyString)) eqn:D.
    + destruct (onDelta (chunk_text chunk) w1) as [[[]|e] w2].
      * destruct (IH w chunk rest w1 N (full ++ chunk_text chunk) w2
                    (log ++ [CallNext; CallOnDelta (chunk_text chunk)])%list)
          as [steps [E [C [F K]]]].
        exists (CallNext :: CallOnDelta (chunk_text chunk) :: steps).
        rewrite E, <- app_assoc. split; [reflexivity|]. split; [exact C|].
        split.
        -- simpl. constructor; [|exact F].
           apply negb_true_iff, String.eqb_neq in D. exact D.
        -- intros content H. rewrite (K content H). simpl delivered.
           change (flat_map _ steps) with (delivered steps).
           rewrite join_empty_cons, append_assoc. reflexivity.
      * exists [CallNext; CallOnDelta (chunk_text chunk)]. simpl.
        split; [reflexivity|]. split; [exact Logic.I|]. split.
        -- repeat constructor. apply negb_true_iff, String.eqb_neq in D. exact D.
        -- discriminate.
    + destruct (IH w chunk rest w1 N full w1 (log ++ [CallNext])%list)
        as [steps [E [C [F K]]]].
      exists (CallNext :: steps). rewrite E, <- app_assoc.
      split; [reflexivity|]. split; [apply chunk_by_chunk_next, C|].
      split; [exact F | exact K].
  - exists [CallNext]. simpl. split; [reflexivity|]. split; [exact Logic.I|].
    split; [constructor|]. intros content H. injection H as <-.
    symmetry. apply append_empty.
  - exists [CallNext]. simpl. split; [reflexivity|]. split; [exact Logic.I|].
    split; [constructor | discriminate].
Qed.

Lemma chat_message_same (msgs : list Message) : map chat_message msgs = msgs.
Proof.
  induction msgs as [|[r c n] msgs IH]; simpl; [reflexivity|].
  rewrite IH. reflexivity.
Qed.


(** [new Error(message)] *)
Variable error_of : string -> Error.

(** [createOpenAIClientFromEnv] throws when [OPENAI_API_KEY] is not set and
    when it is set to the empty string; with any other value it returns the
    [chat] of the SDK client made from that key. *)
Theorem client_needs_api_key (env : string -> option string)
  (connect : string -> OpenAI World Error AbortSignal) :
  (env "OPENAI_API_KEY" = None \/ env "OPENAI_API_KEY" = Some EmptyString ->
   createOpenAIClientFromEnv error_of env connect
   = Throw (error_of "OPENAI_API_KEY is not set in the environment")) /\
  (forall apiKey,
     env "OPENAI_API_KEY" = Some apiKey -> apiKey <> EmptyString ->
     createOpenAIClientFromEnv error_of env connect
     = Ok (provider_chat (connect apiKey))).
Proof.
  unfold createOpenAIClientFromEnv. split.
  - intros [-> | ->]; reflexivity.
  - intros apiKey -> N. apply String.eqb_neq in N. rewrite N. reflexivity.
Qed.

End Streaming.

(** * The properties at work on concrete agents *)

Section Scenarios.

Import Examples.

Local Abbreviation run_of script cfg passes :=
  (run tt JSON.parse JSON.stringify (scripted script) cfg (ask passes)).

Lemma recorder_quiet : quiet (Some recorder).
Proof. intros f H event w o. injection H as <-. reflexivity. Qed.

(** C2, the order the claim states: the first call of the provider is given
    the tool hint first, not the instructions. *)
Lemma instructions_first_fails :
  exists args,
    In (CallChat args)
       (calls (snd (run_example [ "Hi" ] (agent (Some [calculator]) None) None))) /\
    forall conversation,
      chat_messages args
      <> (message system "Be concise." :: tool_hint [calculator] :: conversation)%list.
Proof.
  eexists. split.
  - left. reflexivity.
  - intros conversation H. vm_compute in H. discriminate H.
Qed.

Lemma hint_precedes_instructions_witness :
  exists new,
    calls (snd (run_of [ "Hi" ] (agent (Some [calculator]) None) None start))
    = (calls start ++ new)%list /\
    forall args, In (CallChat args) new ->
      exists appended,
        chat_messages args
        = (tool_hint [calculator] :: message system "Be concise."
             :: guarded_input (agent (Some [calculator]) None) (ask None) (world start)
             ++ appended)%list.
Proof.
  apply (@hint_precedes_instructions World Obs Error unit unit unit tt
           JSON.parse JSON.stringify (scripted [ "Hi" ])
           (agent (Some [calculator]) None) (ask None)
           "Be concise." calculator [] start).
  - reflexivity.
  - discriminate.
  - reflexivity.
Defined.


Lemma calculator_directive :
  calls_tool JSON.parse call_calculator "calculator"
    (JObj [("expression", JStr "2+2")]).
Proof. eexists. repeat split; reflexivity. Qed.


Lemma spanish_directive :
  hands_off JSON.parse hand_and_call (JStr "Spanish") (Some (JStr "detected")).
Proof. eexists. repeat split; reflexivity. Qed.

Lemma handoff_short_circuits_witness :
  exists s',
    run_of [hand_and_call; "never asked"] (router (Some recorder)) None start
    = (Ok hola, s') /\
    world s' = 1 /\
    calls s'
    = (calls (started "Router" (Some recorder))
       ++ [CallTrace (llm_request "gpt-4o-mini" (tool_hint [calculator] :: router_history))]
       ++ [CallChat (chat_args (router (Some recorder)) (ask None)
                       (tool_hint [calculator] :: router_history))]
       ++ [CallTrace (llm_response hand_and_call)]
       ++ [CallTrace (handoff_event (Some "Router") (Some (JStr "Spanish"))
                        (Some (JStr "detected")))]
       ++ [CallHandoff (Some (JStr "Spanish")) router_history tt]
       ++ [CallTrace (agent_stop (Some "Router"))])%list.
Proof.
  apply (@handoff_short_circuits World Obs Error unit unit unit tt
           JSON.parse JSON.stringify (scripted [hand_and_call; "never asked"])
           (router (Some recorder)) (ask None) start 3 router_history EmptyString
           (started "Router" (Some recorder)) to_spanish hand_and_call
           (JStr "Spanish") (Some (JStr "detected")) 1 hola 1).
  - apply reaches_first. reflexivity.
  - exact recorder_quiet.
  - reflexivity.
  - reflexivity.
  - exact spanish_directive.
  - reflexivity.
Defined.

Lemma broken_directive : calls_tool JSON.parse call_broken "broken" (JObj []).
Proof. eexists. repeat split; reflexivity. Qed.

Lemma tool_error_aborts_run_witness :
  exists s',
    run_of [call_broken] (agent (Some [calculator; broken]) None) None start
    = (Throw "boom", s') /\
    world s' = 1 /\
    calls s'
    = (calls start
       ++ []
       ++ [CallChat (chat_args (agent (Some [calculator; broken]) None) (ask None)
                       (tool_hint [calculator; broken] :: first_history))]
       ++ [] ++ []
       ++ [CallTool "broken" (Some (JObj [])) tt])%list.
Proof.
  apply (@tool_error_aborts_run World Obs Error unit unit unit tt
           JSON.parse JSON.stringify (scripted [call_broken])
           (agent (Some [calculator; broken]) None) (ask None) start 3
           first_history EmptyString start call_broken 1 "broken" (JObj [])
           [calculator; broken] broken "boom" 1).
  - apply reaches_first. reflexivity.
  - apply quiet_none.
  - reflexivity.
  - exact broken_directive.
  - reflexivity.
  - reflexivity.
  - reflexivity.
Defined.

Lemma echo_directive : calls_tool JSON.parse call_echo "echo" (JObj []).
Proof. eexists. repeat split; reflexivity. Qed.



Lemma maybeExecuteTool_pass_through_witness :
  maybeExecuteTool JSON.parse JSON.stringify call_calculator (Some [broken]) tt
    (Some recorder) start
  = (Ok call_calculator, start).
Proof.
  apply (@maybeExecuteTool_pass_through World Obs Error unit unit unit
           JSON.parse JSON.stringify call_calculator (Some [broken]) tt
           (Some recorder) start).
  right. right. right. exists (Some (JObj [("tool", JStr "calculator");
                                            ("args", JObj [("expression", JStr "2+2")])])).
  split; [reflexivity|].
  intros t [<-|[]]. discriminate.
Defined.


(** ** More runs *)

Lemma input_guard_error_aborts_run_witness :
  run_of [ "never asked" ] (guarded (Some refusing) None (Some recorder)) None start
  = (Throw "refused",
     {| world := world start; obs := obs start;
        calls := (calls start ++ [CallInputGuard (messages (ask None))])%list |}).
Proof.
  apply (@input_guard_error_aborts_run World Obs Error unit unit unit tt
           JSON.parse JSON.stringify (scripted [ "never asked" ])
           (guarded (Some refusing) None (Some recorder)) (ask None) start
           refusing "refused" 0).
  - reflexivity.
  - reflexivity.
Defined.

Lemma provider_error_aborts_run_witness :
  exists s',
    run tt JSON.parse JSON.stringify down (agent None (Some recorder)) (ask None) start
    = (Throw "unavailable", s') /\
    world s' = 1 /\
    calls s'
    = (calls (started "Assistant" (Some recorder))
       ++ [CallTrace (llm_request "gpt-4o-mini" first_history)]
       ++ [CallChat (chat_args (agent None (Some recorder)) (ask None) first_history)])%list.
Proof.
  apply (@provider_error_aborts_run World Obs Error unit unit unit tt
           JSON.parse JSON.stringify down (agent None (Some recorder)) (ask None)
           start 3 first_history EmptyString (started "Assistant" (Some recorder))
           "unavailable" 1).
  - apply reaches_first. reflexivity.
  - exact recorder_quiet.
  - reflexivity.
Defined.

Lemma output_guard_feeds_schema_witness :
  exists s',
    run tt JSON.parse JSON.stringify (scripted [forty_two])
      (guarded None (Some marking) None) (ask_for (Some accepting)) start
    = (Ok {| result_content := forty_two ++ "!";
             result_structured := Some (JObj [("result", JNum 42)]) |}, s') /\
    world s' = 1 /\
    calls s'
    = ([CallChat (chat_args (guarded None (Some marking) None) (ask_for (Some accepting))
                    first_history)]
       ++ [CallOutputGuard forty_two]
       ++ [CallParse (Some (JObj [("result", JNum 42)]))] ++ [])%list.
Proof.
  exact (@output_guard_feeds_schema World Obs Error unit unit unit tt
           JSON.parse JSON.stringify (scripted [forty_two])
           (guarded None (Some marking) None) (ask_for (Some accepting))
           start forty_two
           {| world := 1; obs := [];
              calls := [CallChat (chat_args (guarded None (Some marking) None)
                                    (ask_for (Some accepting)) first_history)] |}
           marking accepting
           (ex_intro _ first_history
              (ex_intro _ start
                 (ex_intro _ first_history (conj eq_refl eq_refl))))
           (@quiet_none World Obs Error) eq_refl eq_refl).
Defined.

Lemma handoff_without_handler_ends_loop_witness :
  exists s',
    turn tt JSON.parse JSON.stringify (scripted [hand_and_call; "never asked"])
      (agent (Some [calculator]) (Some recorder)) (ask None) first_history
      (started "Assistant" (Some recorder))
    = (Ok (Break first_history hand_and_call), s') /\
    world s' = 1 /\
    calls s'
    = (calls (started "Assistant" (Some recorder))
       ++ [CallTrace (llm_request "gpt-4o-mini" (tool_hint [calculator] :: first_history))]
       ++ [CallChat (chat_args (agent (Some [calculator]) (Some recorder)) (ask None)
                       (tool_hint [calculator] :: first_history))]
       ++ [CallTrace (llm_response hand_and_call)]
       ++ [CallTrace (handoff_event (Some "Assistant") (Some (JStr "Spanish"))
                        (Some (JStr "detected")))])%list /\
    run_of [hand_and_call; "never asked"] (agent (Some [calculator]) (Some recorder))
      None start
    = finalize JSON.parse (agent (Some [calculator]) (Some recorder)) (ask None)
        hand_and_call s' /\
    (outputGuard (agent (Some [calculator]) (Some recorder)) = None ->
     forall res s'',
       run_of [hand_and_call; "never asked"] (agent (Some [calculator]) (Some recorder))
         None start = (Ok res, s'') ->
       result_content res = hand_and_call).
Proof.
  apply (@handoff_without_handler_ends_loop World Obs Error unit unit unit tt
           JSON.parse JSON.stringify (scripted [hand_and_call; "never asked"])
           (agent (Some [calculator]) (Some recorder)) (ask None) start 3
           first_history EmptyString (started "Assistant" (Some recorder))
           hand_and_call (JStr "Spanish") (Some (JStr "detected")) 1).
  - apply reaches_first. reflexivity.
  - exact recorder_quiet.
  - reflexivity.
  - reflexivity.
  - exact spanish_directive.
Defined.

Lemma second_pass_reached :
  reaches tt JSON.parse JSON.stringify (scripted [call_calculator; call_calculator])
    (agent (Some [calculator]) None) (ask (Some 1%Z)) start 1 second_history
    call_calculator second_state.
Proof.
  apply reaches_next with (history := first_history) (lastContent := EmptyString)
                          (s := start).
  - apply reaches_first. reflexivity.
  - reflexivity.
Qed.

Lemma last_pass_drops_tool_result_witness :
  exists s',
    world s' = 2 /\
    calls s'
    = (calls second_state
       ++ []
       ++ [CallChat (chat_args (agent (Some [calculator]) None) (ask (Some 1%Z))
                       (tool_hint [calculator] :: second_history))]
       ++ [] ++ []
       ++ [CallTool "calculator" (Some (JObj [("expression", JStr "2+2")])) tt]
       ++ [])%list /\
    run tt JSON.parse JSON.stringify (scripted [call_calculator; call_calculator])
      (agent (Some [calculator]) None) (ask (Some 1%Z)) start
    = finalize JSON.parse (agent (Some [calculator]) None) (ask (Some 1%Z))
        call_calculator s' /\
    (exists new,
       calls (snd (run tt JSON.parse JSON.stringify
                     (scripted [call_calculator; call_calculator])
                     (agent (Some [calculator]) None) (ask (Some 1%Z)) start))
       = (calls s' ++ new)%list /\
       count is_chat new = 0 /\ count is_tool new = 0) /\
    (outputGuard (agent (Some [calculator]) None) = None ->
     forall res s'',
       run tt JSON.parse JSON.stringify (scripted [call_calculator; call_calculator])
         (agent (Some [calculator]) None) (ask (Some 1%Z)) start = (Ok res, s'') ->
       result_content res = call_calculator).
Proof.
  apply (@last_pass_drops_tool_result World Obs Error unit unit unit tt
           JSON.parse JSON.stringify (scripted [call_calculator; call_calculator])
           (agent (Some [calculator]) None) (ask (Some 1%Z)) start
           second_history call_calculator second_state
           call_calculator 2 "calculator" (JObj [("expression", JStr "2+2")])
           [calculator] calculator (JStr "4") 2).
  - exact second_pass_reached.
  - apply quiet_none.
  - reflexivity.
  - exact calculator_directive.
  - reflexivity.
  - reflexivity.
  - reflexivity.
Defined.


Lemma agent_stop_iff_resolved_witness :
  exists new,
    calls (snd (run_of [call_calculator; "Four"]
                  (agent (Some [calculator]) (Some recorder)) None start))
    = (calls start ++ new)%list /\
    match fst (run_of [call_calculator; "Four"]
                 (agent (Some [calculator]) (Some recorder)) None start) with
    | Ok _ =>
        exists before,
          new = (before ++ traced (onTrace (agent (Some [calculator]) (Some recorder)))
                             (agent_stop (agent_name (agent (Some [calculator])
                                                        (Some recorder)))))%list /\
          count is_stop before = 0
    | Throw _ => count is_stop new = 0
    end.
Proof.
  apply (@agent_stop_iff_resolved World Obs Error unit unit unit tt
           JSON.parse JSON.stringify (scripted [call_calculator; "Four"])
           (agent (Some [calculator]) (Some recorder)) (ask None) start).
  exact recorder_quiet.
Defined.


Lemma run_without_tools_is_single_pass_witness :
  exists new,
    calls (snd (run_of [call_calculator; "never asked"] (agent None None) None start))
    = (calls start ++ new)%list /\
    count is_chat new <= 1 /\ count is_tool new = 0.
Proof.
  apply (@run_without_tools_is_single_pass World Obs Error unit unit unit tt
           JSON.parse JSON.stringify (scripted [call_calculator; "never asked"])
           (agent None None) (ask None) start).
  left. reflexivity.
Defined.

Lemma mergeTools_of_distinct_names_witness :
  mergeTools (Some [calculator]) (Some [broken; echo])
  = Some ([calculator] ++ [broken; echo])%list.
Proof.
  apply (@mergeTools_of_distinct_names World Error unit
           (Some [calculator]) (Some [broken; echo])).
  repeat constructor; simpl; intuition discriminate.
Defined.

Lemma maybeExecuteTool_runs_first_match_witness :
  settles
    (maybeExecuteTool JSON.parse JSON.stringify call_calculator
       (Some ([broken] ++ calculator :: [calculator_two])%list) tt (Some recorder))
    start (Ok "4") 0
    ([CallTrace (tool_start "calculator" (Some (JObj [("expression", JStr "2+2")])))]
     ++ [CallTool "calculator" (Some (JObj [("expression", JStr "2+2")])) tt]
     ++ [CallTrace (tool_stop "calculator" (JStr "4"))])%list.
Proof.
  assert (N : Forall (fun t : ToolDefinition World Error unit =>
                        tool_name t <> "calculator") [broken])
    by (repeat constructor; discriminate).
  exact (@maybeExecuteTool_runs_first_match World Obs Error unit unit unit
           JSON.parse JSON.stringify call_calculator
           [("tool", JStr "calculator"); ("args", JObj [("expression", JStr "2+2")])]
           "calculator" (JObj [("expression", JStr "2+2")])
           [broken] calculator [calculator_two] tt (Some recorder) start
           recorder_quiet eq_refl eq_refl eq_refl N eq_refl).
Defined.

Lemma with_overrides_tool_by_name_witness :
  exists merged s',
    tools (agent_with (agent (Some [calculator; broken]) None)
             (with_tools [calculator_two]))
    = Some merged /\
    find (named "calculator") merged = Some calculator_two /\
    turn tt JSON.parse JSON.stringify (scripted [call_calculator])
      (agent_with (agent (Some [calculator; broken]) None) (with_tools [calculator_two]))
      (ask None) first_history start
    = (Ok (if negb (String.eqb (tool_text JSON.stringify (JStr "5")) call_calculator)
           then Continue
                  (first_history
                   ++ exchange (call_calculator, tool_text JSON.stringify (JStr "5")))%list
                  call_calculator
           else Break first_history call_calculator), s') /\
    world s' = 1 /\
    calls s'
    = (calls start
       ++ []
       ++ [CallChat (chat_args
                       (agent_with (agent (Some [calculator; broken]) None)
                          (with_tools [calculator_two]))
                       (ask None)
                       (withToolCallHints first_history
                          (tools (agent_with (agent (Some [calculator; broken]) None)
                                    (with_tools [calculator_two])))))]
       ++ [] ++ []
       ++ [CallTool "calculator" (Some (JObj [("expression", JStr "2+2")])) tt]
       ++ [])%list.
Proof.
  apply (@with_overrides_tool_by_name World Obs Error unit unit unit tt
           JSON.parse JSON.stringify (scripted [call_calculator])
           (agent (Some [calculator; broken]) None) (with_tools [calculator_two])
           (ask None) first_history start call_calculator 1 "calculator"
           (JObj [("expression", JStr "2+2")]) [calculator_two] calculator_two
           (JStr "5") 1).
  - reflexivity.
  - reflexivity.
  - apply quiet_none.
  - reflexivity.
  - exact calculator_directive.
  - reflexivity.
Defined.


Lemma observer_error_aborts_run_witness :
  run_of [ "never asked" ] (agent None (Some jammed)) None start
  = (Throw "jammed",
     {| world := world start; obs := [];
        calls := (calls start
                  ++ [CallTrace (agent_start (agent_name (agent None (Some jammed))))])%list |}).
Proof.
  apply (@observer_error_aborts_run World Obs Error unit unit unit tt
           JSON.parse JSON.stringify (scripted [ "never asked" ])
           (agent None (Some jammed)) (ask None) start jammed "jammed" []).
  - reflexivity.
  - reflexivity.
  - reflexivity.
Defined.

Lemma router_directive :
  hands_off JSON.parse hand_to_spanish_agent (JStr "SpanishAgent")
    (Some (JStr "spanish")).
Proof. eexists. repeat split; reflexivity. Qed.

Lemma router_hands_its_history_on_witness :
  fst (run tt JSON.parse JSON.stringify (scripted [hand_to_spanish_agent; "Hola"])
         (handoffs_router Obs tt JSON.parse JSON.stringify
            (scripted [hand_to_spanish_agent; "Hola"]))
         (only_messages World Error unit unit unit [message user "Hola"]) start)
  = fst (run tt JSON.parse JSON.stringify (scripted [hand_to_spanish_agent; "Hola"])
           (target World Error unit (Some (JStr "SpanishAgent")))
           (only_messages World Error unit unit unit
              [message system router_instructions; message user "Hola"])
           {| world := 1; obs := tt; calls := [] |}) /\
  world (snd (run tt JSON.parse JSON.stringify
                (scripted [hand_to_spanish_agent; "Hola"])
                (handoffs_router Obs tt JSON.parse JSON.stringify
                   (scripted [hand_to_spanish_agent; "Hola"]))
                (only_messages World Error unit unit unit [message user "Hola"]) start))
  = world (snd (run tt JSON.parse JSON.stringify
                  (scripted [hand_to_spanish_agent; "Hola"])
                  (target World Error unit (Some (JStr "SpanishAgent")))
                  (only_messages World Error unit unit unit
                     [message system router_instructions; message user "Hola"])
                  {| world := 1; obs := tt; calls := [] |})) /\
  (exists own rest,
     instructions (target World Error unit (Some (JStr "SpanishAgent"))) = Some own /\
     calls (snd (run tt JSON.parse JSON.stringify
                   (scripted [hand_to_spanish_agent; "Hola"])
                   (target World Error unit (Some (JStr "SpanishAgent")))
                   (only_messages World Error unit unit unit
                      [message system router_instructions; message user "Hola"])
                   {| world := 1; obs := tt; calls := [] |}))
     = CallChat (chat_args (target World Error unit (Some (JStr "SpanishAgent")))
                   (only_messages World Error unit unit unit
                      [message system router_instructions; message user "Hola"])
                   [message system own; message system router_instructions;
                    message user "Hola"])
       :: rest) /\
  (JStr "SpanishAgent" = JStr "SpanishAgent" ->
   target World Error unit (Some (JStr "SpanishAgent")) = spanishAgent World Error unit) /\
  (JStr "SpanishAgent" <> JStr "SpanishAgent" ->
   target World Error unit (Some (JStr "SpanishAgent")) = englishAgent World Error unit).
Proof.
  apply (@router_hands_its_history_on World Obs Error unit unit unit tt
           JSON.parse JSON.stringify (scripted [hand_to_spanish_agent; "Hola"])
           [message user "Hola"] start hand_to_spanish_agent (JStr "SpanishAgent")
           (Some (JStr "spanish")) 1).
  - reflexivity.
  - exact router_directive.
Defined.



End Scenarios.
